(** * The geometric kernel of taspaths: a shallow embedding

    This development embeds the path-planning kernel of the triple-axis
    spectrometer tool (src/libs/hull.h and the roadmap graph it drives) and
    states the properties of its specification over the embedding.

    Conventions.
    - The C++ templates are instantiated at [t_real = double]; a double is
      modelled by a mathematical real number ([R]), so every comparison is
      the exact one.  Comparisons that steer the control flow are turned
      into booleans through the decision procedures of the real numbers.
    - [std::size_t] indices are natural numbers, [std::optional] is [option],
      [std::vector] is [list].
    - Loops whose termination is not structural carry a fuel argument and
      return [None] when the fuel runs out.
    - Headers of the repository that are not among the available sources
      (lines.h, graphs.h, circular_iterator.h) are modelled from the
      specification; each such definition says so. *)

From Stdlib Require Import Reals Lra Lia List Bool Arith ZArith String Ascii.
From Stdlib Require Import Permutation DecimalString DecimalNat.
Import ListNotations.

Set Implicit Arguments.

(* ================================================================== *)
(** * Part I: definitions *)
(* ================================================================== *)

(** ** Small list utilities used by several components *)

Section ListUtil.
Variable A : Type.

  (** [std::vector::erase(begin()+k)]: nothing happens out of range in the
      model (the C++ behaviour is undefined there; every caller below
      erases at a position it has just read). *)
Fixpoint erase_at (k : nat) (l : list A) {struct l} : list A :=
    match l, k with
    | [], _ => []
    | _ :: t, O => t
    | h :: t, S k' => h :: erase_at k' t
    end.

  (** Overwrite position [k] ([v[k] = x]). *)
Fixpoint set_at (k : nat) (x : A) (l : list A) {struct l} : list A :=
    match l, k with
    | [], _ => []
    | _ :: t, O => x :: t
    | h :: t, S k' => h :: set_at k' x t
    end.

  (** [std::vector::insert(begin()+k, x)]. *)
Fixpoint insert_at (k : nat) (x : A) (l : list A) : list A :=
    match k, l with
    | O, _ => x :: l
    | S k', h :: t => h :: insert_at k' x t
    | S _, [] => [x]
    end.

Definition is_some (o : option A) : bool :=
    match o with Some _ => true | None => false end.
End ListUtil.

(* ------------------------------------------------------------------ *)
(** ** The roadmap graph (graphs.h) *)
(* ------------------------------------------------------------------ *)

(** Modelled from the spec: graphs.h is not among the sources.  The spec
    (section 4.6) asks for add-vertex, add-edge, remove-vertex with cascaded
    edge removal, neighbours-of, the translation between vertex identifiers
    and vertex indices, and two backing representations.  [AddEdge] stores
    one directed entry: calc_voro calls it once per direction, and the unit
    test lists both (v2,v4,7) and (v4,v2,1). *)
Class IsGraph (G : Type) (W : Type) : Type := {
  graph_empty : G;
  GetNumVertices : G -> nat;
  GetVertexIdent : G -> nat -> string;
  GetVertexIndex : G -> string -> option nat;
  AddVertex : G -> string -> G;
  AddEdgeIdx : G -> nat -> nat -> W -> G;
  GetWeight : G -> nat -> nat -> option W;
  RemoveVertexIdx : G -> nat -> G
}.

Fixpoint find_ident (id : string) (l : list string) : option nat :=
  match l with
  | [] => None
  | h :: t => if String.eqb h id then Some 0
              else option_map S (find_ident id t)
  end.

Section GraphOps.
Variables (G W : Type).
Context {IG : IsGraph G W}.

  (** [AddEdge(ident1, ident2, w)]: unknown identifiers leave the graph
      unchanged. *)
Definition AddEdge (g : G) (id1 id2 : string) (w : W) : G :=
    match GetVertexIndex g id1, GetVertexIndex g id2 with
    | Some i, Some j => AddEdgeIdx g i j w
    | _, _ => g
    end.

  (** Indices of the vertices reached by an edge leaving [i]. *)
Definition GetNeighboursIdx (g : G) (i : nat) : list nat :=
    filter (fun j => is_some (GetWeight g i j)) (seq 0 (GetNumVertices g)).

  (** [GetNeighbours(ident, outgoing = true)]. *)
Definition GetNeighbours (g : G) (id : string) : list string :=
    match GetVertexIndex g id with
    | Some i => map (GetVertexIdent g) (GetNeighboursIdx g i)
    | None => []
    end.

Definition RemoveVertex (g : G) (id : string) : G :=
    match GetVertexIndex g id with
    | Some i => RemoveVertexIdx g i
    | None => g
    end.
End GraphOps.

(** Modelled from the spec: the adjacency matrix, a dense table of optional
    weights indexed by two vertex indices, next to the vertex identifiers. *)
Record AdjacencyMatrix (W : Type) : Type := mkAdjMat {
  am_idents : list string;
  am_weight : nat -> nat -> option W
}.

(** Index translation when the row and column [k] are deleted. *)
Definition skip_idx (k i : nat) : nat := if i <? k then i else S i.

Section AdjMat.
Variable W : Type.

Definition am_empty : AdjacencyMatrix W := mkAdjMat [] (fun _ _ => None).

Definition am_num (g : AdjacencyMatrix W) : nat := List.length (am_idents g).

Definition am_add_vertex (g : AdjacencyMatrix W) (id : string)
    : AdjacencyMatrix W :=
    mkAdjMat (am_idents g ++ [id]) (am_weight g).

Definition am_get_weight (g : AdjacencyMatrix W) (i j : nat) : option W :=
    if (i <? am_num g) && (j <? am_num g) then am_weight g i j else None.

Definition am_add_edge (g : AdjacencyMatrix W) (i j : nat) (w : W)
    : AdjacencyMatrix W :=
    if (i <? am_num g) && (j <? am_num g)
    then mkAdjMat (am_idents g)
           (fun a b => if (a =? i) && (b =? j) then Some w
                       else am_weight g a b)
    else g.

Definition am_remove_vertex (g : AdjacencyMatrix W) (k : nat)
    : AdjacencyMatrix W :=
    if k <? am_num g
    then mkAdjMat (erase_at k (am_idents g))
           (fun a b => am_weight g (skip_idx k a) (skip_idx k b))
    else g.

#[export] Instance AdjacencyMatrix_graph : IsGraph (AdjacencyMatrix W) W := {
    graph_empty := am_empty;
    GetNumVertices := am_num;
    GetVertexIdent := fun g i => nth i (am_idents g) EmptyString;
    GetVertexIndex := fun g id => find_ident id (am_idents g);
    AddVertex := am_add_vertex;
    AddEdgeIdx := am_add_edge;
    GetWeight := am_get_weight;
    RemoveVertexIdx := am_remove_vertex
  }.
End AdjMat.

(** Modelled from the spec: the adjacency list, one list of
    (target index, weight) entries per vertex. *)
Record AdjacencyList (W : Type) : Type := mkAdjList {
  al_nodes : list (string * list (nat * W))
}.

Section AdjList.
Variable W : Type.

Definition al_num (g : AdjacencyList W) : nat := List.length (al_nodes g).

Fixpoint al_lookup (j : nat) (es : list (nat * W)) : option W :=
    match es with
    | [] => None
    | (t, w) :: r => if t =? j then Some w else al_lookup j r
    end.

Fixpoint al_put (j : nat) (w : W) (es : list (nat * W)) : list (nat * W) :=
    match es with
    | [] => [(j, w)]
    | (t, w') :: r => if t =? j then (t, w) :: r else (t, w') :: al_put j w r
    end.

Definition al_get_weight (g : AdjacencyList W) (i j : nat) : option W :=
    match nth_error (al_nodes g) i with
    | Some (_, es) => if j <? al_num g then al_lookup j es else None
    | None => None
    end.

Definition al_add_edge (g : AdjacencyList W) (i j : nat) (w : W)
    : AdjacencyList W :=
    match nth_error (al_nodes g) i with
    | Some (id, es) =>
        if j <? al_num g
        then mkAdjList (set_at i (id, al_put j w es) (al_nodes g))
        else g
    | None => g
    end.

  (** Entries pointing at the removed vertex disappear, larger targets move
      down by one. *)
Definition al_shift (k : nat) (es : list (nat * W)) : list (nat * W) :=
    map (fun e => (if k <? fst e then pred (fst e) else fst e, snd e))
        (filter (fun e => negb (fst e =? k)) es).

Definition al_remove_vertex (g : AdjacencyList W) (k : nat)
    : AdjacencyList W :=
    if k <? al_num g
    then mkAdjList (map (fun n => (fst n, al_shift k (snd n)))
                        (erase_at k (al_nodes g)))
    else g.

#[export] Instance AdjacencyList_graph : IsGraph (AdjacencyList W) W := {
    graph_empty := mkAdjList [];
    GetNumVertices := al_num;
    GetVertexIdent := fun g i => fst (nth i (al_nodes g) (EmptyString, []));
    GetVertexIndex := fun g id => find_ident id (map fst (al_nodes g));
    AddVertex := fun g id => mkAdjList (al_nodes g ++ [(id, [])]);
    AddEdgeIdx := al_add_edge;
    GetWeight := al_get_weight;
    RemoveVertexIdx := al_remove_vertex
  }.
End AdjList.

(** *** Dijkstra's algorithm, two implementations *)

(** Modelled from the spec: graphs.h is not among the sources.  Section 4.6
    describes the standard algorithm, returning a predecessor array over
    all vertices, with ties on the distance broken by the lowest vertex
    index, in two equivalent implementations.  [dijk] settles one vertex
    per round, always the nearest unsettled one; [dijk_mod] keeps a work
    list of vertices whose distance has changed and relaxes until the list
    is empty.  Weights are the unsigned integers of the unit test. *)
Section Dijkstra.
Variable G : Type.
Context {IG : IsGraph G nat}.

Record dijk_state : Type := mkDijk {
    dj_dist : list (option nat);
    dj_pred : list (option nat)
  }.

Definition dist_of (st : dijk_state) (v : nat) : option nat :=
    nth v (dj_dist st) None.

  (** Is distance [a] strictly smaller than [b] ([None] is infinite)? *)
Definition dist_lt (a b : option nat) : bool :=
    match a, b with
    | Some x, Some y => x <? y
    | Some _, None => true
    | None, _ => false
    end.

  (** The candidate of smallest distance, the first one among equals. *)
Fixpoint nearest (st : dijk_state) (cands : list nat) (best : option nat)
    : option nat :=
    match cands with
    | [] => best
    | v :: r =>
        let best' :=
          match best with
          | None => if is_some (dist_of st v) then Some v else None
          | Some b => if dist_lt (dist_of st v) (dist_of st b)
                      then Some v else Some b
          end in
        nearest st r best'
    end.

  (** Relax the edge [u -> v]; the flag says whether [v] improved. *)
Definition relax (g : G) (u v : nat) (st : dijk_state)
    : dijk_state * bool :=
    match dist_of st u, GetWeight g u v with
    | Some du, Some w =>
        if dist_lt (Some (du + w)) (dist_of st v)
        then (mkDijk (set_at v (Some (du + w)) (dj_dist st))
                     (set_at v (Some u) (dj_pred st)), true)
        else (st, false)
    | _, _ => (st, false)
    end.

Definition init_state (g : G) (s : nat) : dijk_state :=
    mkDijk (set_at s (Some 0) (repeat None (GetNumVertices g)))
           (repeat None (GetNumVertices g)).

Fixpoint dijk_rounds (g : G) (rounds : nat) (unsettled : list nat)
      (st : dijk_state) : dijk_state :=
    match rounds with
    | O => st
    | S r =>
        match nearest st unsettled None with
        | None => st
        | Some u =>
            let rest := filter (fun v => negb (v =? u)) unsettled in
            let st' :=
              fold_left (fun s v => fst (relax g u v s))
                        (filter (fun v => existsb (Nat.eqb v) rest)
                                (GetNeighboursIdx g u)) st in
            dijk_rounds g r rest st'
        end
    end.

Definition dijk (g : G) (start : string) : list (option nat) :=
    match GetVertexIndex g start with
    | None => repeat None (GetNumVertices g)
    | Some s =>
        dj_pred (dijk_rounds g (GetNumVertices g)
                             (seq 0 (GetNumVertices g)) (init_state g s))
    end.

  (** One pass over the neighbours of [u] of the work-list version:
      improved vertices join the work list unless they wait there. *)
Definition relax_all (g : G) (u : nat) (work : list nat) (st : dijk_state)
    : list nat * dijk_state :=
    fold_left
      (fun (acc : list nat * dijk_state) v =>
         let '(s', improved) := relax g u v (snd acc) in
         if improved && negb (existsb (Nat.eqb v) (fst acc))
         then (fst acc ++ [v], s') else (fst acc, s'))
      (GetNeighboursIdx g u) (work, st).

Fixpoint dijk_mod_loop (g : G) (fuel : nat) (work : list nat)
      (st : dijk_state) : dijk_state :=
    match fuel with
    | O => st
    | S f =>
        match nearest st work None with
        | None => st
        | Some u =>
            let '(work', st') :=
              relax_all g u (filter (fun v => negb (v =? u)) work) st in
            dijk_mod_loop g f work' st'
        end
    end.

Definition dijk_mod (g : G) (start : string) : list (option nat) :=
    match GetVertexIndex g start with
    | None => repeat None (GetNumVertices g)
    | Some s =>
        let n := GetNumVertices g in
        dj_pred (dijk_mod_loop g (S (n * n * n)) [s] (init_state g s))
    end.
End Dijkstra.

(** The graph of the unit test (unittests/dijkstra.cpp), built by the same
    calls in the same order, for any graph representation. *)
Section TestGraph.
Variable G : Type.
Context {IG : IsGraph G nat}.

Definition test_graph : G :=
    let g := fold_left (@AddVertex G nat IG)
               ["v1"; "v2"; "v3"; "v4"; "v5"]%string graph_empty in
    fold_left (fun g e => AddEdge g (fst (fst e)) (snd (fst e)) (snd e))
      [ ("v1", "v2", 1); ("v1", "v4", 9); ("v1", "v5", 10);
        ("v2", "v3", 3); ("v2", "v4", 7); ("v3", "v1", 10);
        ("v3", "v4", 1); ("v3", "v5", 2); ("v4", "v2", 1);
        ("v4", "v5", 2) ]%string g.

  (** [expected_predecessors] of the unit test: indices 0..4 stand for
      v1..v5. *)
Definition expected_predecessors : list (option nat) :=
    [None; Some 0; Some 1; Some 2; Some 2].
End TestGraph.

(* ------------------------------------------------------------------ *)
(** ** Scalars and vectors (tlibs2) *)
(* ------------------------------------------------------------------ *)

Local Open Scope R_scope.

Definition Rltb (x y : R) : bool := if Rlt_dec x y then true else false.
Definition Rleb (x y : R) : bool := if Rle_dec x y then true else false.

(** [tl2::equals<t_real>(x, y, eps)] and [tl2::equals_0]. *)
Definition equals (x y eps : R) : bool := Rleb (Rabs (x - y)) eps.
Definition equals_0 (x eps : R) : bool := equals x 0 eps.

(** [std::fmod]: the remainder has the sign of [x]; the quotient is
    truncated towards zero. *)
Definition Rtrunc (x : R) : Z :=
  if Rle_dec 0 x then Int_part x else (- Int_part (- x))%Z.
Definition fmod (x m : R) : R := x - IZR (Rtrunc (x / m)) * m.

(** [tl2::mod_pos]: the remainder moved into [0, m). *)
Definition mod_pos (x m : R) : R :=
  let r := fmod x m in if Rltb r 0 then r + m else r.

(** [std::ceil]. *)
Definition Rceil (x : R) : R := IZR (- Int_part (- x)).

(** A two-dimensional [t_vec]. *)
Record vec : Type := mkvec { vx : R; vy : R }.

Definition vadd (a b : vec) : vec := mkvec (vx a + vx b) (vy a + vy b).
Definition vsub (a b : vec) : vec := mkvec (vx a - vx b) (vy a - vy b).
Definition vneg (a : vec) : vec := mkvec (- vx a) (- vy a).
Definition vscale (a : vec) (k : R) : vec := mkvec (vx a * k) (vy a * k).
Definition vdiv (a : vec) (k : R) : vec := mkvec (vx a / k) (vy a / k).

(** [tl2::norm]. *)
Definition norm (a : vec) : R := sqrt (vx a * vx a + vy a * vy a).

(** [tl2::equals<t_vec>]: componentwise. *)
Definition vequals (a b : vec) (eps : R) : bool :=
  equals (vx a) (vx b) eps && equals (vy a) (vy b) eps.

Definition vzero : vec := mkvec 0 0.

(** A line segment, [std::pair<t_vec, t_vec>]. *)
Definition t_line : Type := (vec * vec)%type.

(** Arithmetic in [std::size_t] (64 bits) wraps around. *)
Definition size_t_wrap (z : Z) : Z := (z mod 2 ^ 64)%Z.

(** [std::to_string] on a [std::size_t]. *)
Definition to_string (n : nat) : string :=
  NilEmpty.string_of_uint (Nat.to_uint n).

(* ------------------------------------------------------------------ *)
(** ** The Voronoi diagram of line segments (calc_voro) *)
(* ------------------------------------------------------------------ *)

(** The output of boost::polygon's [voronoi_builder], as far as calc_voro
    reads it.  A pointer to a Voronoi vertex is its position in
    [voro.vertices()]; [voro.edges()] lists the half-edges. *)
Inductive source_category : Type :=
| SOURCE_CATEGORY_SINGLE_POINT
| SOURCE_CATEGORY_SEGMENT_START_POINT
| SOURCE_CATEGORY_SEGMENT_END_POINT
| SOURCE_CATEGORY_INITIAL_SEGMENT
| SOURCE_CATEGORY_REVERSE_SEGMENT.

Record voro_cell : Type := mkcell {
  source_index : nat;
  cell_category : source_category
}.

(** [cell->contains_point()]. *)
Definition contains_point (c : voro_cell) : bool :=
  match cell_category c with
  | SOURCE_CATEGORY_SINGLE_POINT
  | SOURCE_CATEGORY_SEGMENT_START_POINT
  | SOURCE_CATEGORY_SEGMENT_END_POINT => true
  | _ => false
  end.

Record voro_edge : Type := mkedge {
  is_secondary : bool;
  vertex0 : option nat;
  vertex1 : option nat;
  cell : option voro_cell;
  twin_cell : option voro_cell;
  is_curved : bool
}.

(** [edge.is_finite()]: both end points exist. *)
Definition is_finite (e : voro_edge) : bool :=
  is_some (vertex0 e) && is_some (vertex1 e).

Record voronoi_diagram : Type := mkdiagram {
  vd_vertices : list vec;
  vd_edges : list voro_edge
}.

(** A linear bisector: the segment and the two optional vertex indices. *)
Definition linear_bisector : Type := (t_line * option nat * option nat)%type.
(** A parabolic bisector: the polyline and the two vertex indices. *)
Definition parabolic_bisector : Type := (list vec * nat * nat)%type.

(** The lambda [get_group_idx]: the first group whose half-open range
    holds the segment. *)
Fixpoint get_group_idx_from (line_groups : list (nat * nat))
    (grpidx segidx : nat) : option nat :=
  match line_groups with
  | [] => None
  | (grp_beg, grp_end) :: rest =>
      if (grp_beg <=? segidx) && (segidx <? grp_end) then Some grpidx
      else get_group_idx_from rest (S grpidx) segidx
  end.

Definition get_group_idx (line_groups : list (nat * nat)) (segidx : nat)
  : option nat := get_group_idx_from line_groups 0 segidx.

(** The lambda [get_segment_idx]. *)
Definition get_segment_idx (e : voro_edge) (twin : bool) : option nat :=
  option_map source_index (if twin then twin_cell e else cell e).

(** The lambda [get_vertex_idx]: a linear search for the pointer. *)
Fixpoint find_vertex_ptr (vert : nat) (vorovertices : list nat) (idx : nat)
  : option nat :=
  match vorovertices with
  | [] => None
  | vertex :: rest => if vertex =? vert then Some idx
                      else find_vertex_ptr vert rest (S idx)
  end.

Definition get_vertex_idx (vorovertices : list nat) (vert : option nat)
  : option nat :=
  match vert with
  | None => None
  | Some p => find_vertex_ptr p vorovertices 0
  end.

(** The length of the infinite edges: ten times the longest segment, and
    never less than ten. *)
Definition infline_len (lines : list t_line) : R :=
  fold_left (fun len (line : t_line) =>
               Rmax len (norm (vsub (snd line) (fst line)))) lines 1 * 10.

(** Are the generating segments of the edge part of the same group? *)
Definition same_group_edge (line_groups : list (nat * nat)) (e : voro_edge)
  : bool :=
  match get_segment_idx e false, get_segment_idx e true with
  | Some seg1idx, Some seg2idx =>
      match get_group_idx line_groups seg1idx,
            get_group_idx line_groups seg2idx with
      | Some region1, Some region2 => region1 =? region2
      | _, _ => false
      end
  | _, _ => false
  end.

(** Removing vertex [idx]: what happens to one stored index. *)
Definition shift_index (idx i : nat) : nat := if idx <=? i then pred i else i.

Definition opt_is (idx : nat) (o : option nat) : bool :=
  match o with Some i => i =? idx | None => false end.

(** One pass over the linear bisectors for a removed vertex. *)
Fixpoint compact_linear (idx : nat) (l : list linear_bisector)
  : list linear_bisector :=
  match l with
  | [] => []
  | (line, a, b) :: rest =>
      if opt_is idx a || opt_is idx b then compact_linear idx rest
      else (line, option_map (shift_index idx) a,
                  option_map (shift_index idx) b) :: compact_linear idx rest
  end.

(** One pass over the parabolic bisectors for a removed vertex. *)
Fixpoint compact_parabolic (idx : nat) (l : list parabolic_bisector)
  : list parabolic_bisector :=
  match l with
  | [] => []
  | (pts, a, b) :: rest =>
      if (a =? idx) || (b =? idx) then compact_parabolic idx rest
      else (pts, shift_index idx a, shift_index idx b)
             :: compact_parabolic idx rest
  end.

(** The loop over the reversed [removed_indices]; [None] stands for the
    [std::out_of_range] exception. *)
Fixpoint remove_vertex_coords (removed : list nat) (vertices : list vec)
    (lin : list linear_bisector) (par : list parabolic_bisector)
  : option (list vec * list linear_bisector * list parabolic_bisector) :=
  match removed with
  | [] => Some (vertices, lin, par)
  | idx :: rest =>
      if idx <? List.length vertices
      then remove_vertex_coords rest (erase_at idx vertices)
             (compact_linear idx lin) (compact_parabolic idx par)
      else None
  end.

(** The segments handed to the builder: scaled and converted to [int]. *)
Definition voro_input (lines : list t_line) (edge_eps : R)
  : list (Z * Z * Z * Z) :=
  let scale := Rceil (1 / (edge_eps * edge_eps)) in
  map (fun line : t_line =>
         (Rtrunc (vx (fst line) * scale), Rtrunc (vy (fst line) * scale),
          Rtrunc (vx (snd line) * scale), Rtrunc (vy (snd line) * scale)))
      lines.

Section CalcVoro.
Variable G : Type.
Context {IG : IsGraph G R}.

(** [voronoi_builder::construct] on the segments in integer coordinates
    (boost::polygon, an external library). *)
Variable construct : list (Z * Z * Z * Z) -> voronoi_diagram.
(** [voronoi_visual_utils::discretize] (boost::polygon). *)
Variable discretize : vec -> t_line -> R -> list vec -> list vec.
(** [pt_inside_poly] of lines.h, which is not among the sources: it only
    steers which edges are skipped, so it stays a parameter. *)
Variable pt_inside_poly : list t_line -> vec -> nat -> nat -> R -> bool.

Record voro_state : Type := mkvstate {
  vs_graph : G;
  vs_linear : list linear_bisector;
  vs_parabolic : list parabolic_bisector
}.

Section EdgeLoop.
Variable lines : list t_line.
Variable line_groups : list (nat * nat).
Variable remove_voronoi_vertices_in_regions : bool.
Variable edge_eps : R.
Variable vd : voronoi_diagram.

Definition voro_eps : R := edge_eps * edge_eps.
Definition voro_scale : R := Rceil (1 / voro_eps).

Definition vorovertices : list nat := seq 0 (List.length (vd_vertices vd)).

(** The vector [vertices]. *)
Definition voro_vertices : list vec :=
  map (fun v => mkvec (vx v / voro_scale) (vy v / voro_scale))
      (vd_vertices vd).

(** [*vert] for a vertex pointer that is not null. *)
Definition deref_vertex (p : option nat) : vec :=
  match p with Some i => nth i (vd_vertices vd) vzero | None => vzero end.

(** The lambda [get_segment]. *)
Definition get_segment (e : voro_edge) (twin : bool) : option t_line :=
  match get_segment_idx e twin with
  | Some idx => Some (nth idx lines (vzero, vzero))
  | None => None
  end.

(** The lambda [get_segment_point]. *)
Definition get_segment_point (e : voro_edge) (twin : bool) : option vec :=
  match (if twin then twin_cell e else cell e) with
  | None => None
  | Some c =>
      match get_segment e twin with
      | None => None
      | Some line =>
          match cell_category c with
          | SOURCE_CATEGORY_SEGMENT_START_POINT => Some (fst line)
          | SOURCE_CATEGORY_SEGMENT_END_POINT => Some (snd line)
          | _ => None
          end
      end
  end.

(** The loop over the groups that looks for an edge end point inside a
    group's polygon. *)
Fixpoint vert_inside_region (groups : list (nat * nat))
    (vert0idx vert1idx : option nat) : bool :=
  match groups with
  | [] => false
  | (grp_beg, grp_end) :: rest =>
      let inside (o : option nat) :=
        match o with
        | Some i => pt_inside_poly lines (nth i voro_vertices vzero)
                                   grp_beg grp_end voro_eps
        | None => false
        end in
      if inside vert0idx then true
      else if inside vert1idx then true
      else vert_inside_region rest vert0idx vert1idx
  end.

(** The direction and length of an infinite edge; [lineorg] is the end
    point that exists, already divided by the scale. *)
Definition infinite_bisector (lineorg v twinv : vec) (inverted : bool)
  : t_line :=
  let perpdir := vsub v twinv in
  let perpdir := if inverted then vneg perpdir else perpdir in
  let linedir := mkvec (vy perpdir) (- vx perpdir) in
  let linedir := vdiv linedir (norm linedir) in
  let linedir := vscale linedir (infline_len lines) in
  (lineorg, vadd lineorg linedir).

(** The part of the loop body after the graph edge has been added: the
    bisector that the edge contributes. *)
Definition emit_bisector (e : voro_edge) (vert0idx vert1idx : option nat)
    (st : voro_state) : voro_state :=
  if is_curved e && is_finite e then
    (* parabolic edge *)
    let cp := match cell e with Some c => contains_point c | None => false end in
    match get_segment e cp, get_segment_point e (negb cp) with
    | Some seg, Some pt =>
        let parabola :=
          discretize pt seg edge_eps
            [vdiv (deref_vertex (vertex0 e)) voro_scale;
             vdiv (deref_vertex (vertex1 e)) voro_scale] in
        match parabola, vert0idx, vert1idx with
        | _ :: _, Some i0, Some i1 =>
            mkvstate (vs_graph st) (vs_linear st)
                     (vs_parabolic st ++ [(parabola, i0, i1)])
        | _, _, _ => st
        end
    | _, _ => st
    end
  else if is_finite e then
    (* finite linear edge *)
    let line := (vdiv (deref_vertex (vertex0 e)) voro_scale,
                 vdiv (deref_vertex (vertex1 e)) voro_scale) in
    mkvstate (vs_graph st) (vs_linear st ++ [(line, vert0idx, vert1idx)])
             (vs_parabolic st)
  else
    (* infinite edge *)
    let org :=
      match vertex0 e, vertex1 e with
      | Some _, _ => Some (deref_vertex (vertex0 e), false)
      | None, Some _ => Some (deref_vertex (vertex1 e), true)
      | None, None => None
      end in
    match org with
    | None => st
    | Some (lineorg, inverted) =>
        match get_segment_point e false, get_segment_point e true with
        | Some v, Some twinv =>
            let line :=
              infinite_bisector (vdiv lineorg voro_scale) v twinv inverted in
            mkvstate (vs_graph st)
                     (vs_linear st ++ [(line, vert0idx, vert1idx)])
                     (vs_parabolic st)
        | _, _ => st
        end
    end.

(** The tests under [if(line_groups.size())] that make the loop skip an
    edge: both segments in one group, or an end point inside a region. *)
Definition skipped_by_groups (e : voro_edge) (vert0idx vert1idx : option nat)
  : bool :=
  match line_groups with [] => false | _ :: _ => true end
  && (same_group_edge line_groups e
      || (remove_voronoi_vertices_in_regions
          && vert_inside_region line_groups vert0idx vert1idx)).

(** The body of the loop over [voro.edges()]. *)
Definition voro_edge_step (st : voro_state) (e : voro_edge) : voro_state :=
  if is_secondary e then st
  else
    let vert0idx := get_vertex_idx vorovertices (vertex0 e) in
    let vert1idx := get_vertex_idx vorovertices (vertex1 e) in
    let valid_vertices := is_some vert0idx && is_some vert1idx in
    if skipped_by_groups e vert0idx vert1idx then st
    else
      let st1 :=
        match vert0idx, vert1idx with
        | Some i0, Some i1 =>
            let len := norm (vsub (nth i1 voro_vertices vzero)
                                  (nth i0 voro_vertices vzero)) in
            mkvstate (AddEdgeIdx (AddEdgeIdx (vs_graph st) i0 i1 len)
                                 i1 i0 len)
                     (vs_linear st) (vs_parabolic st)
        | _, _ => st
        end in
      if is_finite e && negb valid_vertices then st1
      else emit_bisector e vert0idx vert1idx st1.

(** The graph right after the loop over the vertices: one graph vertex
    per Voronoi vertex, named by its one-based position. *)
Definition voro_initial_graph : G :=
  fold_left (fun g k => AddVertex g (to_string (S k))) vorovertices
            graph_empty.

Definition voro_edges_done : voro_state :=
  fold_left voro_edge_step (vd_edges vd)
            (mkvstate voro_initial_graph [] []).
End EdgeLoop.

(** The loop that removes the vertices without connection from the graph
    and records their positions. *)
Fixpoint remove_isolated (verts : list string) (vertidx : nat) (g : G)
    (removed_indices : list nat) : G * list nat :=
  match verts with
  | [] => (g, removed_indices)
  | id :: rest =>
      match GetNeighbours g id with
      | [] => remove_isolated rest (S vertidx) (RemoveVertex g id)
                              (removed_indices ++ [vertidx])
      | _ :: _ => remove_isolated rest (S vertidx) g removed_indices
      end
  end.

Definition calc_voro (lines : list t_line) (line_groups : list (nat * nat))
    (remove_voronoi_vertices_in_regions : bool) (edge_eps : R)
  : option (list vec * list linear_bisector * list parabolic_bisector * G) :=
  let vd := construct (voro_input lines edge_eps) in
  let st := voro_edges_done lines line_groups
              remove_voronoi_vertices_in_regions edge_eps vd in
  let vertices := voro_vertices edge_eps vd in
  match line_groups with
  | [] => Some (vertices, vs_linear st, vs_parabolic st, vs_graph st)
  | _ :: _ =>
      let graph := vs_graph st in
      let verts := map (GetVertexIdent graph) (seq 0 (GetNumVertices graph)) in
      let '(graph', removed_indices) := remove_isolated verts 0 graph [] in
      match remove_vertex_coords (rev removed_indices) vertices
                                 (vs_linear st) (vs_parabolic st) with
      | Some (vertices', lin, par) => Some (vertices', lin, par, graph')
      | None => None
      end
  end.
End CalcVoro.

(* ------------------------------------------------------------------ *)
(** ** Helpers of lines.h and circular_iterator.h *)
(* ------------------------------------------------------------------ *)

(** [std::atan2], by the quadrant of the direction. *)
Definition atan2 (y x : R) : R :=
  if Rltb 0 x then atan (y / x)
  else if Rltb x 0 then
    (if Rleb 0 y then atan (y / x) + PI else atan (y / x) - PI)
  else if Rltb 0 y then PI / 2
  else if Rltb y 0 then - (PI / 2)
  else 0.

(** Modelled from the spec: lines.h is not among the sources.  The angle
    of the direction from [pt1] to [pt2] against the x axis (the spec's
    polar angle, section 4.5.1). *)
Definition line_angle (pt1 pt2 : vec) : R :=
  atan2 (vy pt2 - vy pt1) (vx pt2 - vx pt1).

(** Modelled from the spec: lines.h is not among the sources.  The turn
    angle from the first line to the second (sections 4.3 and 4.4). *)
Definition line_angle4 (pt1a pt1b pt2a pt2b : vec) : R :=
  line_angle pt2a pt2b - line_angle pt1a pt1b.

(** Modelled from the spec: lines.h is not among the sources.  The signed
    area test of section 8: positive when [pt] lies to the left of the
    line from [a] to [b]. *)
Definition side_of_line (a b pt : vec) : R :=
  (vx b - vx a) * (vy pt - vy a) - (vy b - vy a) * (vx pt - vx a).

Section Sorting.
Variable A : Type.
Variable lt : A -> A -> bool.

(** [std::stable_sort]: an element goes in front of the first one that is
    strictly greater. *)
Fixpoint insert_sorted (x : A) (l : list A) : list A :=
  match l with
  | [] => [x]
  | y :: r => if lt x y then x :: y :: r else y :: insert_sorted x r
  end.

Definition stable_sort (l : list A) : list A :=
  fold_left (fun acc x => insert_sorted x acc) l [].
End Sorting.

(** Modelled from the spec: lines.h is not among the sources.  Duplicate
    points (within eps) are dropped (section 4.5.1): a point stays when no
    point kept before it equals it. *)
Definition _remove_duplicates (verts : list vec) (eps : R) : list vec :=
  fold_left (fun kept v =>
               if existsb (fun w => vequals w v eps) kept then kept
               else kept ++ [v]) verts [].

(** Modelled from the spec: lines.h is not among the sources.  The points
    sorted by x, then by y, without duplicates (section 4.5.1). *)
Definition _sort_vertices (verts : list vec) (eps : R) : list vec :=
  _remove_duplicates
    (stable_sort (fun v1 v2 =>
                    if equals (vx v1) (vx v2) eps then Rltb (vy v1) (vy v2)
                    else Rltb (vx v1) (vx v2)) verts) eps.

(** [std::accumulate] over the vertices, divided by their number. *)
Definition vmean (verts : list vec) : vec :=
  vdiv (fold_left vadd verts vzero) (INR (List.length verts)).

(** Modelled from the spec: lines.h is not among the sources.  The points
    sorted by their polar angle around their centroid (section 4.5.1); the
    centroid is returned as well. *)
Definition sort_vertices_by_angle (verts : list vec) : list vec * vec :=
  match verts with
  | [] => ([], vzero)
  | _ :: _ =>
      let mean := vmean verts in
      (stable_sort (fun v1 v2 =>
                      Rltb (line_angle mean v1) (line_angle mean v2)) verts,
       mean)
  end.

(** Modelled from the spec: circular_iterator.h is not among the sources.
    Section 9 describes a thin index-wrapping view over the backing
    vector.  An iterator is an unrolled position: the round times the
    size plus the offset. *)
Section Circular.
Variable A : Type.
Variable dflt : A.

Definition circ_pos (n : nat) (it : Z) : nat :=
  Z.to_nat (it mod Z.of_nat n).

(** [*iter] and [circularverts[i]]. *)
Definition circ_get (l : list A) (it : Z) : A :=
  nth (circ_pos (List.length l) it) l dflt.

(** [iter.GetRound()]. *)
Definition circ_round (n : nat) (it : Z) : Z := (it / Z.of_nat n)%Z.

(** [iter.SetRound(r)]. *)
Definition circ_set_round (n : nat) (it r : Z) : Z :=
  (r * Z.of_nat n + it mod Z.of_nat n)%Z.

(** The offsets of the unrolled range [a, b), at most one round. *)
Definition circ_range (n : nat) (a b : Z) : list nat :=
  map (fun k => circ_pos n (a + Z.of_nat k))
      (seq 0 (Nat.min n (Z.to_nat (b - a)))).

Fixpoint erase_positions (ps : list nat) (pos : nat) (l : list A) : list A :=
  match l with
  | [] => []
  | x :: r => if existsb (Nat.eqb pos) ps then erase_positions ps (S pos) r
              else x :: erase_positions ps (S pos) r
  end.

(** [circularverts.erase(a, b)]: the list without the range and the new
    offset of the element that followed the range. *)
Definition circ_erase (l : list A) (a b : Z) : list A * nat :=
  let n := List.length l in
  let ps := circ_range n a b in
  (erase_positions ps 0 l,
   List.length (filter (fun p => negb (existsb (Nat.eqb p) ps))
                       (seq 0 (circ_pos n b)))).
End Circular.

(* ------------------------------------------------------------------ *)
(** ** Convex hulls *)
(* ------------------------------------------------------------------ *)

(** Position of the first largest / smallest x ([std::max_element],
    [std::min_element]). *)
Fixpoint max_element_x (l : list vec) (idx best : nat) (bestx : R) : nat :=
  match l with
  | [] => best
  | v :: r => if Rltb bestx (vx v) then max_element_x r (S idx) idx (vx v)
              else max_element_x r (S idx) best bestx
  end.

Fixpoint min_element_x (l : list vec) (idx best : nat) (bestx : R) : nat :=
  match l with
  | [] => best
  | v :: r => if Rltb (vx v) bestx then min_element_x r (S idx) idx (vx v)
              else min_element_x r (S idx) best bestx
  end.

Definition iter_max_x (l : list vec) : Z :=
  match l with
  | [] => 0%Z
  | v :: r => Z.of_nat (max_element_x r 1 0 (vx v))
  end.

Definition iter_min_x (l : list vec) : Z :=
  match l with
  | [] => 0%Z
  | v :: r => Z.of_nat (min_element_x r 1 0 (vx v))
  end.

(** The inner [while] loops of the merge step: an iterator moves while the
    test holds; [None] when the fuel runs out. *)
Fixpoint walk_while (fuel : nat) (test : Z -> bool) (step : Z) (it : Z)
  : option (Z * bool) :=
  match fuel with
  | O => None
  | S f =>
      if test it then
        match walk_while f test step (it + step)%Z with
        | Some (it', _) => Some (it', true)
        | None => None
        end
      else Some (it, false)
  end.

(** The outer [while(true)] of the merge step, for the upper ([up = true])
    or the lower tangent. *)
Fixpoint find_tangent (fuel : nat) (up : bool) (hullLeft hullRight : list vec)
    (iterLeft iterRight : Z) : option (Z * Z) :=
  match fuel with
  | O => None
  | S f =>
      let gl := circ_get vzero hullLeft in
      let gr := circ_get vzero hullRight in
      let testL it :=
        if up then Rltb 0 (side_of_line (gl it) (gr iterRight) (gl (it + 1)%Z))
        else Rltb (side_of_line (gl it) (gr iterRight) (gl (it - 1)%Z)) 0 in
      match walk_while fuel testL (if up then 1 else -1)%Z iterLeft with
      | None => None
      | Some (iterLeft', leftChanged) =>
          let testR it :=
            if up
            then Rltb 0 (side_of_line (gl iterLeft') (gr it) (gr (it - 1)%Z))
            else Rltb (side_of_line (gl iterLeft') (gr it) (gr (it + 1)%Z)) 0
          in
          match walk_while fuel testR (if up then -1 else 1)%Z iterRight with
          | None => None
          | Some (iterRight', rightChanged) =>
              if negb leftChanged && negb rightChanged
              then Some (iterLeft', iterRight')
              else find_tangent f up hullLeft hullRight iterLeft' iterRight'
          end
      end
  end.

(** The merge of two hulls in [_calc_hull_recursive_sorted]. *)
Definition merge_hulls (fuel : nat) (hullLeft hullRight : list vec)
  : option (list vec) :=
  (* upper part *)
  let iterLeftMax := iter_max_x hullLeft in
  let iterRightMin := iter_min_x hullRight in
  match find_tangent fuel true hullLeft hullRight iterLeftMax iterRightMin with
  | None => None
  | Some (iterLeft, iterRight) =>
      let leftIsOnMax := (iterLeft =? iterLeftMax)%Z in
      let rightIsOnMin := (iterRight =? iterRightMin)%Z in
      let hullLeft1 := fst (circ_erase hullLeft (iterLeftMax + 1) iterLeft) in
      let hullRight1 :=
        fst (circ_erase hullRight (iterRight + 1) iterRightMin) in
      (* lower part *)
      let iterLeftMax := iter_max_x hullLeft1 in
      let iterRightMin := iter_min_x hullRight1 in
      match find_tangent fuel false hullLeft1 hullRight1
                         iterLeftMax iterRightMin with
      | None => None
      | Some (iterLeft, iterRight) =>
          let hullLeft2 :=
            fst (circ_erase hullLeft1 (iterLeft + 1)
                   (if leftIsOnMax then iterLeftMax else iterLeftMax + 1)) in
          let hullRight2 :=
            fst (circ_erase hullRight1
                   (if rightIsOnMin then iterRightMin + 1 else iterRightMin)
                   iterRight) in
          Some (fst (sort_vertices_by_angle (hullLeft2 ++ hullRight2)))
      end
  end.

(** [_calc_hull_recursive_sorted]; the recursive calls and the comparison
    of the x coordinates at the cut run with the default eps. *)
Fixpoint _calc_hull_recursive_sorted (fuel : nat) (verts : list vec)
  : option (list vec) :=
  match fuel with
  | O => None
  | S f =>
      if (List.length verts <=? 3)%nat
      then Some (fst (sort_vertices_by_angle verts))
      else
        let div := (List.length verts / 2)%nat in
        let div :=
          if equals (vx (nth (div - 1) verts vzero)) (vx (nth div verts vzero))
                    (1 / 100000)
          then S div else div in
        match _calc_hull_recursive_sorted f (firstn div verts),
              _calc_hull_recursive_sorted f (skipn div verts) with
        | Some hullLeft, Some hullRight =>
            merge_hulls (4 * List.length verts + 4) hullLeft hullRight
        | _, _ => None
        end
  end.

Definition calc_hull_recursive (_verts : list vec) (eps : R)
  : option (list vec) :=
  let verts := _sort_vertices _verts eps in
  _calc_hull_recursive_sorted (S (List.length verts)) verts.

(** [is_vert_in_hull] with the point inside the hull given. *)
Fixpoint is_vert_in_hull_from (hull rest : list vec) (hullvertidx1 : nat)
    (newvert vert_in_hull : vec) : bool * nat * nat :=
  match rest with
  | [] => (true, 0%nat, 0%nat)
  | hullvert1 :: rest' =>
      let hullvertidx2 :=
        if (List.length hull <=? S hullvertidx1)%nat then 0%nat
        else S hullvertidx1 in
      let hullvert2 := nth hullvertidx2 hull vzero in
      if Rltb 0 (side_of_line vert_in_hull hullvert1 newvert)
         && Rleb (side_of_line vert_in_hull hullvert2 newvert) 0
         && Rltb (side_of_line hullvert1 hullvert2 newvert) 0
      then (false, hullvertidx1, hullvertidx2)
      else is_vert_in_hull_from hull rest' (S hullvertidx1)
                                newvert vert_in_hull
  end.

Definition is_vert_in_hull (hull : list vec) (newvert : vec)
    (vert_in_hull : option vec) : bool * nat * nat :=
  is_vert_in_hull_from hull hull 0 newvert
    (match vert_in_hull with Some m => m | None => vmean hull end).

(** The two [for] loops that look for the ends of the visible chain; they
    stop on the round of the iterator at the latest. *)
Fixpoint scan_lower (fuel : nat) (hull : list vec) (newvert : vec) (it : Z)
  : Z :=
  match fuel with
  | O => it
  | S f =>
      if (circ_round (List.length hull) it <? -2)%Z then it
      else if Rleb 0 (side_of_line (circ_get vzero hull it) newvert
                                   (circ_get vzero hull (it - 1)%Z))
      then it
      else scan_lower f hull newvert (it - 1)%Z
  end.

Fixpoint scan_upper (fuel : nat) (hull : list vec) (newvert : vec) (it : Z)
  : Z :=
  match fuel with
  | O => it
  | S f =>
      if (2 <? circ_round (List.length hull) it)%Z then it
      else if Rleb (side_of_line (circ_get vzero hull it) newvert
                                 (circ_get vzero hull (it + 1)%Z)) 0
      then it
      else scan_upper f hull newvert (it + 1)%Z
  end.

(** The ends of the chain of hull vertices visible from [newvert]. *)
Definition visible_chain (hull : list vec) (newvert : vec)
    (hullvertidx1 hullvertidx2 : nat) : Z * Z :=
  let n := List.length hull in
  let iterLower := Z.of_nat hullvertidx1 in
  let iterUpper := Z.of_nat hullvertidx2 in
  (* correct cycles *)
  let iterUpper :=
    if (hullvertidx2 <? hullvertidx1)%nat
       && (circ_round n iterLower =? circ_round n iterUpper)%Z
    then circ_set_round n iterUpper (circ_round n iterLower + 1)%Z
    else iterUpper in
  (scan_lower (8 * n + 8) hull newvert iterLower,
   scan_upper (8 * n + 8) hull newvert iterUpper).

(** The body of the insertion loop of [calc_hull_iterative]. *)
Definition hull_insert (vert_in_hull : vec) (hull : list vec) (newvert : vec)
  : list vec :=
  let '(already_in_hull, hullvertidx1, hullvertidx2) :=
    is_vert_in_hull hull newvert (Some vert_in_hull) in
  if already_in_hull then hull
  else
    let '(iterLower, iterUpper) :=
      visible_chain hull newvert hullvertidx1 hullvertidx2 in
    if (iterLower + 1 <? iterUpper)%Z
    then
      let '(hull', pos) := circ_erase hull (iterLower + 1)%Z iterUpper in
      insert_at pos newvert hull'
    else insert_at (circ_pos (List.length hull) iterUpper) newvert hull.

Definition calc_hull_iterative (_verts : list vec) (eps : R) : list vec :=
  let verts := _remove_duplicates _verts eps in
  if (List.length verts <=? 3)%nat then verts
  else
    let '(hull, vert_in_hull) := sort_vertices_by_angle (firstn 3 verts) in
    fold_left (hull_insert vert_in_hull) (skipn 3 verts) hull.

(** [calc_hull_contour], first half: the four monotone contours.  The
    pairs hold the smallest and the largest y seen so far; [None] stands
    for the initial [numeric_limits] bounds. *)
Definition contour_scan (verts : list vec) (front_top front_bottom : bool)
  : list vec * list vec :=
  let '(top, bottom, _, _) :=
    fold_left
      (fun (acc : list vec * list vec * option R * option R) v =>
         let '(top, bottom, miny, maxy) := acc in
         let higher :=
           match maxy with Some m => Rltb m (vy v) | None => true end in
         let lower :=
           match miny with Some m => Rltb (vy v) m | None => true end in
         (if higher then (if front_top then v :: top else top ++ [v])
          else top,
          if lower then (if front_bottom then v :: bottom else bottom ++ [v])
          else bottom,
          if lower then Some (vy v) else miny,
          if higher then Some (vy v) else maxy))
      verts ([], [], None, None) in
  (top, bottom).

(** A vertex is appended unless it equals the last one.  On the empty
    vector the source reads the element in front of the buffer; the model
    takes that comparison to fail. *)
Definition push_if_new (eps : R) (verts : list vec) (v : vec) : list vec :=
  match last (map Some verts) None with
  | Some l => if vequals l v eps then verts else verts ++ [v]
  | None => verts ++ [v]
  end.

(** The search for [lastgood] in the hull loop of [calc_hull_contour]. *)
Fixpoint contour_lastgood (verts : list vec) (curidx : nat) (lastgood : nat)
  : option nat :=
  match lastgood with
  | O => None
  | S lg =>
      let g := circ_get vzero verts in
      if Rleb (side_of_line (g (Z.of_nat lg)) (g (Z.of_nat lastgood))
                            (g (Z.of_nat (S curidx)))) 0
         && negb (S curidx <? S lastgood)%nat
      then Some lastgood
      else contour_lastgood verts curidx lg
  end.

(** The hull loop of [calc_hull_contour]; its bound is computed in
    [std::size_t] and wraps around for the empty vector. *)
Fixpoint contour_hull (fuel : nat) (verts : list vec) (curidx : nat)
  : option (list vec) :=
  match fuel with
  | O => None
  | S f =>
      if negb (Z.of_nat curidx <? size_t_wrap (2 * Z.of_nat (List.length verts) - 1))%Z
         || (curidx <? 1)%nat
      then Some verts
      else
        let g := circ_get vzero verts in
        let removed :=
          if Rltb (side_of_line (g (Z.of_nat (curidx - 1)))
                                (g (Z.of_nat (S curidx)))
                                (g (Z.of_nat curidx))) 0
          then contour_lastgood verts curidx curidx
          else None in
        match removed with
        | Some lastgood =>
            contour_hull f
              (fst (circ_erase verts (Z.of_nat (S lastgood))
                               (Z.of_nat (S curidx))))
              lastgood
        | None => contour_hull f verts (S curidx)
        end
  end.

Definition calc_hull_contour (_verts : list vec) (eps : R)
  : option (list vec) :=
  let verts := _sort_vertices _verts eps in
  let '(contour_left_top, contour_left_bottom) :=
    contour_scan verts false true in
  let '(contour_right_top, contour_right_bottom) :=
    contour_scan (rev verts) true false in
  let verts :=
    fold_left (push_if_new eps)
      (contour_left_top ++ contour_right_top
       ++ contour_right_bottom ++ contour_left_bottom) [] in
  let verts :=
    match verts with
    | first :: _ :: _ =>
        if vequals first (last verts vzero) eps then removelast verts
        else verts
    | _ => verts
    end in
  let n := List.length verts in
  contour_hull (S (n * n + 2 * n)) verts 1.

(** [calc_hull_iterative_bintree]: the hull lives in a binary search tree
    ordered by the polar angle around the centre of the first three
    points; the model keeps the in-order sequence of the tree. *)
Definition node_lt (n1 n2 : vec * R) : bool := Rltb (snd n1) (snd n2).

(** The lambda [is_in_hull]: the neighbours of the new vertex by angle. *)
Definition bintree_is_in_hull (vert_in_hull : vec) (hull : list (vec * R))
    (newvert : vec) : bool * nat * nat :=
  let tosearch := (newvert, line_angle vert_in_hull newvert) in
  let ub := List.length (filter (fun nd => negb (node_lt tosearch nd)) hull) in
  let idx2 := if (ub <? List.length hull)%nat then ub else 0%nat in
  let idx1 := if (idx2 =? 0)%nat then (List.length hull - 1)%nat
              else (idx2 - 1)%nat in
  if Rltb (side_of_line (fst (nth idx1 hull (vzero, 0)))
                        (fst (nth idx2 hull (vzero, 0))) newvert) 0
  then (false, idx1, idx2)
  else (true, 0%nat, 0%nat).

Definition bintree_insert (vert_in_hull : vec) (hull : list (vec * R))
    (newvert : vec) : list (vec * R) :=
  let '(already_in_hull, hullvertidx1, hullvertidx2) :=
    bintree_is_in_hull vert_in_hull hull newvert in
  if already_in_hull then hull
  else
    let '(iterLower, iterUpper) :=
      visible_chain (map fst hull) newvert hullvertidx1 hullvertidx2 in
    let hull' :=
      if (0 <? iterUpper - (iterLower + 1))%Z
      then fst (circ_erase hull (iterLower + 1)%Z iterUpper)
      else hull in
    insert_sorted node_lt (newvert, line_angle vert_in_hull newvert) hull'.

Definition calc_hull_iterative_bintree (_verts : list vec) (eps : R)
  : list vec :=
  let verts := _remove_duplicates _verts eps in
  if (List.length verts <=? 3)%nat then verts
  else
    let vert_in_hull := vmean (firstn 3 verts) in
    let hull :=
      fold_left (fun h v => insert_sorted node_lt
                              (v, line_angle vert_in_hull v) h)
                (firstn 3 verts) [] in
    map fst (fold_left (bintree_insert vert_in_hull) (skipn 3 verts) hull).

(* ------------------------------------------------------------------ *)
(** ** Contour simplification *)
(* ------------------------------------------------------------------ *)

(** Is the line from [vert2] to [vert3] horizontal or vertical?  The four
    angles are those written in the source. *)
Definition horizontal_or_vertical (eps : R) (vert2 vert3 : vec) : bool :=
  let angle := mod_pos (line_angle vert2 vert3) (2 * PI) in
  equals_0 angle eps
  || equals angle PI eps
  || equals angle (PI / 2) eps
  || equals angle (PI / (3 / 2)) eps.

(** The test of the staircase loop: are [vert3] and [vert4] dropped? *)
Definition staircase_test (min_dist eps : R) (vert1 vert2 vert3 vert4 : vec)
  : bool :=
  if Rltb min_dist (norm (vsub vert4 vert1)) then false
  else if horizontal_or_vertical eps vert2 vert3 then
    let angle1 := mod_pos (line_angle vert1 vert2) (2 * PI) in
    let angle2 := mod_pos (line_angle vert3 vert4) (2 * PI) in
    equals angle1 angle2 eps
  else false.

(** [circularverts.erase(circularverts.begin() + k)]. *)
Definition circ_erase_at (contour : list vec) (k : nat) : list vec :=
  erase_at (circ_pos (List.length contour) (Z.of_nat k)) contour.

(** The first loop of [simplify_contour]; the counter runs up to the
    current size of the contour. *)
Fixpoint remove_staircases (fuel : nat) (min_dist eps : R)
    (contour : list vec) (curidx : nat) : list vec :=
  match fuel with
  | O => contour
  | S f =>
      if (curidx <? List.length contour + 1)%nat then
        let g k := circ_get vzero contour (Z.of_nat k) in
        let contour' :=
          if staircase_test min_dist eps (g curidx) (g (curidx + 1)%nat)
                            (g (curidx + 2)%nat) (g (curidx + 3)%nat)
          then circ_erase_at (circ_erase_at contour (curidx + 3))
                             (curidx + 2)
          else contour in
        remove_staircases f min_dist eps contour' (S curidx)
      else contour
  end.

(** The second loop: vertices along almost straight lines are dropped. *)
Fixpoint remove_straight (fuel : nat) (eps : R) (contour : list vec)
    (curidx : nat) : option (list vec) :=
  match fuel with
  | O => None
  | S f =>
      if (Z.of_nat curidx
            <? size_t_wrap (2 * Z.of_nat (List.length contour) - 1))%Z
      then
        let g k := circ_get vzero contour (Z.of_nat k) in
        let vert1 := g (curidx - 1)%nat in
        let vert2 := g curidx in
        let vert3 := g (curidx + 1)%nat in
        let angle := mod_pos (line_angle4 vert1 vert2 vert2 vert3) (2 * PI) in
        let angle := if Rltb PI angle then angle - 2 * PI else angle in
        if Rltb (Rabs angle) eps
        then remove_straight f eps (circ_erase_at contour curidx) curidx
        else remove_straight f eps contour (S curidx)
      else Some contour
  end.

Definition simplify_contour (contour : list vec) (min_dist eps : R)
  : option (list vec) :=
  let n := List.length contour in
  remove_straight (4 * n + 4) eps
    (remove_staircases (n + 1) min_dist eps contour 0) 1.

(* ------------------------------------------------------------------ *)
(** ** Delaunay triangulation *)
(* ------------------------------------------------------------------ *)

(** A triangle is a vector of three vertices. *)
Definition triangle : Type := list vec.

Definition tri_get (t : triangle) (i : nat) : vec := nth i t vzero.

(** [get_triag_sharing_edge]: the six ways in which the edge can sit in
    another triangle, in the order of the source. *)
Definition shares_edge (triag : triangle) (vert1 vert2 : vec) (eps : R)
  : option (nat * nat * nat) :=
  let eq i v := vequals (tri_get triag i) v eps in
  if eq 0%nat vert1 && eq 1%nat vert2 then Some (0, 1, 2)%nat
  else if eq 1%nat vert1 && eq 0%nat vert2 then Some (1, 0, 2)%nat
  else if eq 0%nat vert1 && eq 2%nat vert2 then Some (0, 2, 1)%nat
  else if eq 2%nat vert1 && eq 0%nat vert2 then Some (2, 0, 1)%nat
  else if eq 1%nat vert1 && eq 2%nat vert2 then Some (1, 2, 0)%nat
  else if eq 2%nat vert1 && eq 1%nat vert2 then Some (2, 1, 0)%nat
  else None.

Fixpoint get_triag_sharing_edge_from (rest : list triangle) (i : nat)
    (vert1 vert2 : vec) (curtriagidx : nat) (eps : R)
  : option (nat * nat * nat * nat) :=
  match rest with
  | [] => None
  | triag :: rest' =>
      if (i =? curtriagidx)%nat
      then get_triag_sharing_edge_from rest' (S i) vert1 vert2 curtriagidx eps
      else
        match shares_edge triag vert1 vert2 eps with
        | Some (a, b, c) => Some (i, a, b, c)
        | None =>
            get_triag_sharing_edge_from rest' (S i) vert1 vert2 curtriagidx eps
        end
  end.

Definition get_triag_sharing_edge (triags : list triangle) (vert1 vert2 : vec)
    (curtriagidx : nat) (eps : R) : option (nat * nat * nat * nat) :=
  get_triag_sharing_edge_from triags 0 vert1 vert2 curtriagidx eps.

(** [std::set<std::size_t>::insert]. *)
Fixpoint set_insert (x : nat) (l : list nat) : list nat :=
  match l with
  | [] => [x]
  | y :: r => if (x <? y)%nat then x :: y :: r
              else if (x =? y)%nat then y :: r
              else y :: set_insert x r
  end.

Section Delaunay.
(** [calc_circumcentre] and [get_containing_triag] of lines.h, which is
    not among the sources; the triangulation is stated for any such pair
    of functions. *)
Variable calc_circumcentre : triangle -> vec.
Variable get_containing_triag : list triangle -> vec -> option nat.

(** [is_conflicting_triag]: does the point lie inside the circumscribed
    circle? *)
Definition is_conflicting_triag (triag : triangle) (pt : vec) : bool :=
  let center := calc_circumcentre triag in
  let rad := norm (vsub (tri_get triag 0) center) in
  let dist := norm (vsub pt center) in
  Rltb dist rad.

(** [flip_edge].  The second assignment reads [triags[triagidx]] after the
    first one has overwritten it, as the source does. *)
Fixpoint flip_edge (fuel : nat) (triags : list triangle)
    (triagidx nonsharedidx : nat) (eps : R) : option (list triangle) :=
  match fuel with
  | O => None
  | S f =>
      let triag := nth triagidx triags [] in
      let sharedidx1 := ((nonsharedidx + 1) mod List.length triag)%nat in
      let sharedidx2 := ((nonsharedidx + 2) mod List.length triag)%nat in
      match get_triag_sharing_edge triags (tri_get triag sharedidx1)
                                   (tri_get triag sharedidx2) triagidx eps with
      | None => Some triags
      | Some (othertriagidx, othersharedidx1, othersharedidx2,
              othernonsharedidx) =>
          if is_conflicting_triag (nth othertriagidx triags [])
                                  (tri_get triag nonsharedidx)
          then
            let triags1 :=
              set_at triagidx
                [tri_get (nth triagidx triags []) nonsharedidx;
                 tri_get (nth othertriagidx triags []) othernonsharedidx;
                 tri_get (nth othertriagidx triags []) othersharedidx1]
                triags in
            let triags2 :=
              set_at othertriagidx
                [tri_get (nth triagidx triags1 []) nonsharedidx;
                 tri_get (nth othertriagidx triags1 []) othernonsharedidx;
                 tri_get (nth othertriagidx triags1 []) othersharedidx2]
                triags1 in
            let flip t i (o : option (list triangle)) :=
              match o with
              | Some ts => flip_edge f ts t i eps
              | None => None
              end in
            flip triagidx sharedidx2
              (flip triagidx sharedidx1
                 (flip triagidx nonsharedidx
                    (flip othertriagidx othersharedidx2
                       (flip othertriagidx othersharedidx1
                          (flip othertriagidx othernonsharedidx
                                (Some triags2))))))
          else Some triags
      end
  end.

(** The body of the insertion loop; the state holds the triangles and the
    vertices inserted so far. *)
Definition delaunay_insert (fuel : nat) (eps : R)
    (st : list triangle * list vec) (newvert : vec)
  : option (list triangle * list vec) :=
  let '(triags, curverts) := st in
  match get_containing_triag triags newvert with
  | Some idx =>
      let conttriag := nth idx triags [] in
      let triags :=
        erase_at idx triags
          ++ [[newvert; tri_get conttriag 0; tri_get conttriag 1];
              [newvert; tri_get conttriag 0; tri_get conttriag 2];
              [newvert; tri_get conttriag 1; tri_get conttriag 2]] in
      match flip_edge fuel triags (List.length triags - 3) 0 eps with
      | None => None
      | Some triags =>
          match flip_edge fuel triags (List.length triags - 2) 0 eps with
          | None => None
          | Some triags =>
              match flip_edge fuel triags (List.length triags - 1) 0 eps with
              | None => None
              | Some triags => Some (triags, curverts ++ [newvert])
              end
          end
      end
  | None =>
      let hull := calc_hull_iterative_bintree curverts eps in
      let hull := fst (sort_vertices_by_angle hull) in
      let '(already_in_hull, hullvertidx1, hullvertidx2) :=
        is_vert_in_hull hull newvert None in
      if already_in_hull then Some (triags, curverts)
      else
        let '(iterLower, iterUpper) :=
          visible_chain hull newvert hullvertidx1 hullvertidx2 in
        let visible :=
          map (fun k => circ_get vzero hull (iterLower + Z.of_nat k)%Z)
              (seq 0 (Z.to_nat (iterUpper - iterLower + 1))) in
        let add (o : option (list triangle)) (visidx : nat) :=
          match o with
          | None => None
          | Some triags =>
              let triags :=
                triags ++ [[newvert; nth visidx visible vzero;
                            nth (S visidx) visible vzero]] in
              flip_edge fuel triags (List.length triags - 1) 0 eps
          end in
        match visible with
        | [] => None (* the bound [visible.size()-1] wraps around *)
        | _ :: _ =>
            match fold_left add (seq 0 (List.length visible - 1))
                            (Some triags) with
            | None => None
            | Some triags => Some (triags, curverts ++ [newvert])
            end
        end
  end.

(** The last loop: every triangle is sorted, its circumcentre is a
    Voronoi vertex, its neighbours are looked up in the vector as it is
    at that moment. *)
Fixpoint delaunay_finish (eps : R) (triags : list triangle) (triagidx n : nat)
    (voronoi : list vec) (neighbours : list (list nat))
  : list vec * list triangle * list (list nat) :=
  match n with
  | O => (voronoi, triags, neighbours)
  | S n' =>
      let triag := fst (sort_vertices_by_angle (nth triagidx triags [])) in
      let triags := set_at triagidx triag triags in
      let look i j :=
        get_triag_sharing_edge triags (tri_get triag i) (tri_get triag j)
                               triagidx eps in
      let ins (o : option (nat * nat * nat * nat)) (s : list nat) :=
        match o with
        | Some (i, _, _, _) => set_insert i s
        | None => s
        end in
      delaunay_finish eps triags (S triagidx) n'
        (voronoi ++ [calc_circumcentre triag])
        (neighbours
           ++ [ins (look 1 2) (ins (look 0 2) (ins (look 0 1) []))])%nat
  end.

(** [calc_delaunay_iterative]: Voronoi vertices, triangles and the sets of
    neighbouring triangles; [None] when the fuel of [flip_edge] is used
    up. *)
Definition calc_delaunay_iterative (fuel : nat) (verts : list vec) (eps : R)
  : option (list vec * list triangle * list (list nat)) :=
  if (List.length verts <? 3)%nat then Some ([], [], [])
  else
    let first := firstn 3 verts in
    match fold_left
            (fun (o : option (list triangle * list vec)) newvert =>
               match o with
               | Some st => delaunay_insert fuel eps st newvert
               | None => None
               end)
            (skipn 3 verts) (Some ([first], first)) with
    | None => None
    | Some (triags, _) =>
        Some (delaunay_finish eps triags 0 (List.length triags) [] [])
    end.
End Delaunay.

(* ------------------------------------------------------------------ *)
(** ** Splitting a polygon into convex parts *)
(* ------------------------------------------------------------------ *)

Section ConvexSplit.
(** The four-point [line_angle] of lines.h and [tl2::intersect_line_line]
    of tlibs2 are not among the sources; the splitter is stated for any
    such pair of functions.  The intersection yields
    (pt1, pt2, valid, dist, param1, param2). *)
Variable line_angle_lines : vec -> vec -> vec -> vec -> R.
Variable intersect_line_line :
  vec -> vec -> vec -> vec -> R -> vec * vec * bool * R * R * R.

(** The loop that looks for the first concave corner. *)
Fixpoint find_concave_from (eps : R) (poly : list vec) (idx1 count : nat)
  : option nat :=
  match count with
  | O => None
  | S c =>
      let N := List.length poly in
      let vert1 := nth idx1 poly vzero in
      let vert2 := nth ((idx1 + 1) mod N)%nat poly vzero in
      let vert3 := nth ((idx1 + 2) mod N)%nat poly vzero in
      let angle := PI - line_angle_lines vert1 vert2 vert2 vert3 in
      let angle := mod_pos angle (2 * PI) in
      if Rltb (PI + eps) angle then Some idx1
      else find_concave_from eps poly (S idx1) c
  end.

Definition find_concave (eps : R) (poly : list vec) : option nat :=
  find_concave_from eps poly 0 (List.length poly).

(** The loop that intersects the line of the concave edge with the other
    edges; [k] is the unrolled position of the circular iterator. *)
Fixpoint find_intersection_from (eps : R) (poly : list vec)
    (vert1 dir1 : vec) (k count : nat) : option nat :=
  match count with
  | O => None
  | S c =>
      let N := List.length poly in
      let vert3 := nth (k mod N)%nat poly vzero in
      let vert4 := nth ((k + 1) mod N)%nat poly vzero in
      let dir2 := vsub vert4 vert3 in
      let '(pt1, pt2, valid, _, _, param2) :=
        intersect_line_line vert1 dir1 vert3 dir2 eps in
      if valid && Rleb 0 param2 && Rltb param2 1 && vequals pt1 pt2 eps
      then Some ((k + 1) mod N)%nat
      else find_intersection_from eps poly vert1 dir1 (S k) c
  end.

Definition find_intersection (eps : R) (poly : list vec) (idx_concave : nat)
  : option nat :=
  let N := List.length poly in
  let vert1 := nth idx_concave poly vzero in
  let vert2 := nth ((idx_concave + 1) mod N)%nat poly vzero in
  find_intersection_from eps poly vert1 (vsub vert2 vert1)
                         (idx_concave + 2) (N - 2).

(** The two loops that copy a chain of vertices: from position [pos]
    onwards, cyclically, up to and including position [target]. *)
Fixpoint chain_until (fuel : nat) (poly : list vec) (pos target : nat)
  : list vec :=
  match fuel with
  | O => []
  | S f =>
      nth pos poly vzero ::
      (if (pos =? target)%nat then []
       else chain_until f poly ((pos + 1) mod List.length poly)%nat target)
  end.

(** What one recursive call contributes: its parts with at least three
    vertices, or the sub-polygon itself when the call returned nothing. *)
Definition collect_subsplit (subsplit : list (list vec)) (poly : list vec)
  : list (list vec) :=
  match subsplit with
  | [] => [poly]
  | _ :: _ => filter (fun newpoly => (3 <=? List.length newpoly)%nat) subsplit
  end.

Fixpoint convex_split (fuel : nat) (poly : list vec) (eps : R)
  : option (list (list vec)) :=
  match fuel with
  | O => None
  | S f =>
      let N := List.length poly in
      if (N <=? 3)%nat then Some []
      else
        match find_concave eps poly with
        | None => Some []
        | Some idx_concave =>
            match find_intersection eps poly idx_concave with
            | None => Some []
            | Some idx_intersection =>
                let poly1 :=
                  chain_until N poly idx_intersection
                              ((idx_concave + 1) mod N)%nat in
                let poly2 :=
                  chain_until N poly ((idx_concave + 1) mod N)%nat
                              idx_intersection in
                match convex_split f poly1 eps, convex_split f poly2 eps with
                | Some subsplit1, Some subsplit2 =>
                    Some (collect_subsplit subsplit1 poly1
                          ++ collect_subsplit subsplit2 poly2)
                | _, _ => None
                end
            end
        end
  end.
End ConvexSplit.

(** [tl2::intersect_line_line] in the plane: the two lines
    [pos1 + param1 * dir1] and [pos2 + param2 * dir2] meet unless they are
    parallel. *)
Definition intersect_line_line_2d (pos1 dir1 pos2 dir2 : vec) (eps : R)
  : vec * vec * bool * R * R * R :=
  let det := vx dir1 * vy dir2 - vy dir1 * vx dir2 in
  if equals_0 det eps then (vzero, vzero, false, 0, 0, 0)
  else
    let d := vsub pos2 pos1 in
    let param1 := (vx d * vy dir2 - vy d * vx dir2) / det in
    let param2 := (vx d * vy dir1 - vy d * vx dir1) / det in
    let pt1 := vadd pos1 (vscale dir1 param1) in
    let pt2 := vadd pos2 (vscale dir2 param2) in
    (pt1, pt2, true, norm (vsub pt2 pt1), param1, param2).

(** Twice the signed area of a closed polygon (the shoelace sum). *)
Definition cross (a b : vec) : R := vx a * vy b - vy a * vx b.




(* ------------------------------------------------------------------ *)
(** ** Concrete inputs used by the examples *)
(* ------------------------------------------------------------------ *)

Definition example_group_edge : voro_edge :=
  mkedge false (Some 0%nat) (Some 1%nat)
         (Some (mkcell 0 SOURCE_CATEGORY_INITIAL_SEGMENT))
         (Some (mkcell 1 SOURCE_CATEGORY_SEGMENT_START_POINT)) false.

Definition example_voro_state : voro_state (AdjacencyMatrix R) :=
  mkvstate (am_empty R) [] [].

(** The vertices of a polygon seen as a periodic sequence, and the
    shoelace sum along a stretch of [len] edges starting at position [a]. *)
Definition cyc (poly : list vec) (i : nat) : vec :=
  nth (i mod List.length poly)%nat poly vzero.



(** When the groups do not overlap, as the data model asks. *)
Definition groups_disjoint (line_groups : list (nat * nat)) : Prop :=
  forall i j bi ei bj ej seg,
    nth_error line_groups i = Some (bi, ei) ->
    nth_error line_groups j = Some (bj, ej) ->
    (bi <= seg < ei)%nat -> (bj <= seg < ej)%nat -> i = j.

(** The default eps of [convex_split]. *)
Definition split_eps : R := 1 / 1000000.

(** The unit square, counter-clockwise. *)
Definition unit_square : list vec :=
  [mkvec 0 0; mkvec 1 0; mkvec 1 1; mkvec 0 1].


(** An L-shaped hexagon, counter-clockwise; its corner (1,1) is reflex. *)
Definition l_shape : list vec :=
  [mkvec 0 0; mkvec 2 0; mkvec 2 1; mkvec 1 1; mkvec 1 2; mkvec 0 2].


(** The two parts into which [convex_split] cuts the L-shape. *)
Definition l_shape_part1 : list vec :=
  [mkvec 0 0; mkvec 2 0; mkvec 2 1; mkvec 1 1].

Definition l_shape_part2 : list vec :=
  [mkvec 1 1; mkvec 1 2; mkvec 0 2; mkvec 0 0].






(** The default arguments of [simplify_contour]. *)
Definition contour_min_dist : R := 1 / 100.
Definition contour_eps : R := 1 / 100 / 180 * PI.

(** A closed counter-clockwise contour whose lower edge steps down by
    0.004 at x = 0.001: the first four vertices form a staircase whose
    middle part runs vertically downwards. *)
Definition notch_contour : list vec :=
  [mkvec 0 (4 / 1000); mkvec (1 / 1000) (4 / 1000); mkvec (1 / 1000) 0;
   mkvec (3 / 1000) 0; mkvec (3 / 1000) 1; mkvec 0 1].

(** The four vertices [contour[k .. k+3]], cyclically. *)
Definition contour_window (contour : list vec) (k : nat)
  : vec * vec * vec * vec :=
  let g i := circ_get vzero contour (Z.of_nat i) in
  (g k, g (k + 1)%nat, g (k + 2)%nat, g (k + 3)%nat).

Definition staircase_test_at (min_dist eps : R) (contour : list vec) (k : nat)
  : bool :=
  let '(v1, v2, v3, v4) := contour_window contour k in
  staircase_test min_dist eps v1 v2 v3 v4.

(** Two vertex sequences describe the same closed polygon with the same
    orientation when one is the other started at a different vertex. *)
Definition is_rotation (l1 l2 : list vec) : Prop :=
  exists k, (k <= List.length l1)%nat /\ l2 = skipn k l1 ++ firstn k l1.

(** The points are pairwise different, by more than eps in some
    coordinate. *)
Definition separated (eps : R) (verts : list vec) : Prop :=
  NoDup verts
  /\ forall a b, In a verts -> In b verts -> a <> b -> vequals a b eps = false.

(** The default eps of the hull functions. *)
Definition hull_eps : R := 1 / 100000.

(** Three points given in clockwise order; their centroid is the origin. *)
Definition clockwise_triangle : list vec :=
  [mkvec 2 0; mkvec (-1) (-1); mkvec (-1) 1].

(** The same three points in anticlockwise order. *)
Definition anticlockwise_triangle : list vec :=
  [mkvec (-1) 1; mkvec (-1) (-1); mkvec 2 0].

(** The identifier that calc_voro gives to the graph vertex of the
    Voronoi vertex at position [k]. *)
Definition vertex_ident (k : nat) : string := to_string (S k).

(** Every vertex index stored in the bisectors is smaller than [n]. *)
Definition linear_valid (n : nat) (lin : list linear_bisector) : Prop :=
  forall line a b, In (line, a, b) lin ->
    (forall i, a = Some i -> (i < n)%nat)
    /\ (forall i, b = Some i -> (i < n)%nat).

Definition parabolic_valid (n : nat) (par : list parabolic_bisector) : Prop :=
  forall pts a b, In (pts, a, b) par -> (a < n)%nat /\ (b < n)%nat.

(** A list of positions in strictly descending order, all below [b]. *)
Inductive desc_below : nat -> list nat -> Prop :=
| desc_nil : forall b, desc_below b []
| desc_cons : forall b d D, (d < b)%nat -> desc_below d D ->
                            desc_below b (d :: D).

(** In an adjacency matrix: no edge leaves vertex [k]. *)
Definition am_isolated (W : Type) (g : AdjacencyMatrix W) (k : nat) : bool :=
  forallb (fun j => negb (is_some (am_weight g k j))) (seq 0 (am_num g)).

(** The matrix [g] holds the vertices [K] of the matrix [g0], in this
    order, with the edges that [g0] has between them. *)
Definition am_restricts (W : Type) (g0 g : AdjacencyMatrix W) (K : list nat)
  : Prop :=
  am_idents g = map vertex_ident K
  /\ forall a b, (a < List.length K)%nat -> (b < List.length K)%nat ->
       am_weight g a b = am_weight g0 (nth a K 0%nat) (nth b K 0%nat).


(** Edges come in pairs, one per direction. *)
Definition am_symmetric (W : Type) (g : AdjacencyMatrix W) : Prop :=
  forall i j, is_some (am_weight g i j) = is_some (am_weight g j i).

(** What holds of the state of the loop over the edges, for a diagram
    with [n] vertices. *)
Definition edge_loop_invariant (n : nat)
    (st : voro_state (AdjacencyMatrix R)) : Prop :=
  am_idents (vs_graph st) = map vertex_ident (seq 0 n)
  /\ am_symmetric (vs_graph st)
  /\ linear_valid n (vs_linear st)
  /\ parabolic_valid n (vs_parabolic st).

(** Erase the positions [D], one after the other. *)
Definition erase_all (A : Type) (D : list nat) (l : list A) : list A :=
  fold_left (fun acc d => erase_at d acc) D l.

(** Three segments shorter than the grid of the builder, far from each
    other: in integer coordinates they are the three points (0,0),
    (40000,0) and (0,40000). *)
Definition tiny_lines : list t_line :=
  [(mkvec 0 0, mkvec (5 / 100000) 0);
   (mkvec 4 0, mkvec (4 + 5 / 100000) 0);
   (mkvec 0 4, mkvec (5 / 100000) 4)].

Definition tiny_input : list (Z * Z * Z * Z) :=
  [(0, 0, 0, 0); (40000, 0, 40000, 0); (0, 40000, 0, 40000)]%Z.

(** The diagram of three points: one vertex, the centre of the circle
    through them, and three rays, each listed as two half-edges. *)
Definition point_cell (k : nat) : option voro_cell :=
  Some (mkcell k SOURCE_CATEGORY_SEGMENT_START_POINT).

Definition three_points_diagram : voronoi_diagram :=
  mkdiagram [mkvec 20000 20000]
    [mkedge false (Some 0%nat) None (point_cell 0) (point_cell 1) false;
     mkedge false None (Some 0%nat) (point_cell 1) (point_cell 0) false;
     mkedge false (Some 0%nat) None (point_cell 1) (point_cell 2) false;
     mkedge false None (Some 0%nat) (point_cell 2) (point_cell 1) false;
     mkedge false (Some 0%nat) None (point_cell 2) (point_cell 0) false;
     mkedge false None (Some 0%nat) (point_cell 0) (point_cell 2) false].

Definition quad_eqb (a b : Z * Z * Z * Z) : bool :=
  let '(a1, a2, a3, a4) := a in
  let '(b1, b2, b3, b4) := b in
  ((a1 =? b1) && (a2 =? b2) && (a3 =? b3) && (a4 =? b4))%Z.

Fixpoint quads_eqb (l1 l2 : list (Z * Z * Z * Z)) : bool :=
  match l1, l2 with
  | [], [] => true
  | a :: r1, b :: r2 => quad_eqb a b && quads_eqb r1 r2
  | _, _ => false
  end.

(** A builder that answers the given input with the given diagram. *)
Definition builder_on (input : list (Z * Z * Z * Z)) (vd : voronoi_diagram)
  : list (Z * Z * Z * Z) -> voronoi_diagram :=
  fun segments => if quads_eqb segments input then vd else mkdiagram [] [].

(** What "compacted consistently" asks of a result of [calc_voro], given
    the vertex array before the removal: the bisectors index into the
    returned array, the graph has one vertex per array position, none of
    them without a neighbour, and the vertex at a position is the Voronoi
    vertex whose coordinates stand at that position. *)
Definition compacted
    (vertices0 : list vec)
    (result : list vec * list linear_bisector * list parabolic_bisector
              * AdjacencyMatrix R) : Prop :=
  let '(vertices, lin, par, graph) := result in
  linear_valid (List.length vertices) lin
  /\ parabolic_valid (List.length vertices) par
  /\ GetNumVertices graph = List.length vertices
  /\ (forall i, (i < List.length vertices)%nat ->
                GetNeighboursIdx graph i <> [])
  /\ (forall i, (i < List.length vertices)%nat ->
        exists k,
          GetVertexIdent graph i = vertex_ident k
          /\ nth i vertices vzero = nth k vertices0 vzero).

(** Every segment a group of its own. *)
Definition tiny_groups : list (nat * nat) := [(0, 1); (1, 2); (2, 3)]%nat.

(** The unit square cut along the diagonal from (1,0) to (0,1). *)
Definition two_triangles : list triangle :=
  [[mkvec 0 0; mkvec 1 0; mkvec 0 1]; [mkvec 1 0; mkvec 1 1; mkvec 0 1]].

(** The points that occur as a corner of some triangle. *)
Definition corner (triags : list triangle) (v : vec) : Prop :=
  exists t, In t triags /\ In v t.

(** Every triangle has three corners. *)
Definition proper_triangles (triags : list triangle) : Prop :=
  forall t, In t triags -> List.length t = 3%nat.

(** Two corners of the first triangle equal (within eps) two different
    corners of the second one: the triangles share an edge. *)
Definition shares_two_corners (eps : R) (t1 t2 : triangle) : Prop :=
  exists u w rest x y,
    Permutation t1 (u :: w :: rest)
    /\ (x < 3)%nat /\ (y < 3)%nat /\ x <> y
    /\ vequals u (tri_get t2 x) eps = true
    /\ vequals w (tri_get t2 y) eps = true.

(** The triangle with its corners sorted by angle, as the last loop of
    calc_delaunay_iterative stores it. *)
Definition sorted_triangle (t : triangle) : triangle :=
  fst (sort_vertices_by_angle t).

(** The new vertex lies in the wedge that the hull edge from position [i]
    to the next position spans as seen from the centre, and strictly on
    the outer side of that edge. *)
Definition beyond_hull_edge (centre : vec) (hull : list vec) (newvert : vec)
    (i : nat) : Prop :=
  let hullvert1 := nth i hull vzero in
  let hullvert2 := nth (S i mod List.length hull) hull vzero in
  0 < side_of_line centre hullvert1 newvert
  /\ side_of_line centre hullvert2 newvert <= 0
  /\ side_of_line hullvert1 hullvert2 newvert < 0.

(** What calc_delaunay_iterative needs from [get_containing_triag]: the
    index it returns is a position of the vector of triangles. *)
Definition valid_containing
    (get_containing_triag : list triangle -> vec -> option nat) : Prop :=
  forall triags v idx,
    get_containing_triag triags v = Some idx ->
    (idx < List.length triags)%nat.

(** Every edge of the graph is weighted with the distance between the
    coordinates of its two ends. *)
Definition weights_are_distances (vertices : list vec)
    (g : AdjacencyMatrix R) : Prop :=
  forall i j w,
    am_weight g i j = Some w ->
    w = norm (vsub (nth j vertices vzero) (nth i vertices vzero)).

(* ------------------------------------------------------------------ *)
(** ** The edges of a triangulation (get_edges) *)
(* ------------------------------------------------------------------ *)

(** The lambda [get_vert_idx]: the first vertex equal to [vert]. *)
Fixpoint get_vert_idx_from (verts : list vec) (eps : R) (vert : vec)
    (vertidx : nat) : option nat :=
  match verts with
  | [] => None
  | vert2 :: rest =>
      if vequals vert vert2 eps then Some vertidx
      else get_vert_idx_from rest eps vert (S vertidx)
  end.

Definition get_vert_idx (verts : list vec) (eps : R) (vert : vec)
  : option nat := get_vert_idx_from verts eps vert 0.

(** The body of the innermost loop of [get_edges], for the corner [i] of
    a triangle.  The source dereferences the result of [get_vert_idx]
    without a test; [None] stands for a dereferenced [std::nullopt]. *)
Definition edges_of_corner (verts : list vec) (eps : R) (vertidx : nat)
    (triag : triangle) (acc : option (list (nat * nat))) (i : nat)
  : option (list (nat * nat)) :=
  match acc with
  | None => None
  | Some edges =>
      if vequals (nth vertidx verts vzero) (nth i triag vzero) eps then
        let vert2 := nth ((i + 1) mod List.length triag) triag vzero in
        let vert3 := nth ((i + 2) mod List.length triag) triag vzero in
        match get_vert_idx verts eps vert2, get_vert_idx verts eps vert3 with
        | Some vert2idx, Some vert3idx =>
            Some (edges ++ [(vertidx, vert2idx); (vertidx, vert3idx)])
        | _, _ => None
        end
      else Some edges
  end.

(** [get_edges]: for every vertex, every triangle and every corner. *)
Definition get_edges (verts : list vec) (triags : list triangle) (eps : R)
  : option (list (nat * nat)) :=
  fold_left
    (fun acc vertidx =>
       fold_left
         (fun acc triag =>
            fold_left (edges_of_corner verts eps vertidx triag)
                      (seq 0 (List.length triag)) acc)
         triags acc)
    (seq 0 (List.length verts)) (Some []).

(** Every corner of every triangle is found among the vertices. *)
Definition corners_found (verts : list vec) (triags : list triangle)
    (eps : R) : Prop :=
  forall t v, In t triags -> In v t ->
    exists k, (k < List.length verts)%nat
              /\ vequals v (nth k verts vzero) eps = true.

(** [l1] is [l2] with some elements left out, the order kept. *)
Inductive subseq (A : Type) : list A -> list A -> Prop :=
| subseq_nil : subseq [] []
| subseq_skip : forall x l1 l2, subseq l1 l2 -> subseq l1 (x :: l2)
| subseq_keep : forall x l1 l2, subseq l1 l2 -> subseq (x :: l1) (x :: l2).

(** The diagram without its secondary edges. *)
Definition primary_edges_only (vd : voronoi_diagram) : voronoi_diagram :=
  mkdiagram (vd_vertices vd)
            (filter (fun e => negb (is_secondary e)) (vd_edges vd)).

(** The vertex indices stored with a linear bisector point at its end
    points: both ends for a finite edge, the starting point for an edge
    with one end. *)
Definition linear_ends (vertices : list vec) (lin : list linear_bisector)
  : Prop :=
  forall line a b, In (line, a, b) lin ->
    match a, b with
    | Some i, Some j =>
        fst line = nth i vertices vzero /\ snd line = nth j vertices vzero
    | Some i, None => fst line = nth i vertices vzero
    | None, Some j => fst line = nth j vertices vzero
    | None, None => True
    end.

(** The corner angle that [convex_split] computes for position [idx1]:
    the angle at the vertex after [idx1], between the edge that arrives
    there and the edge that leaves it. *)
Definition corner_angle (line_angle_lines : vec -> vec -> vec -> vec -> R)
    (poly : list vec) (idx1 : nat) : R :=
  let N := List.length poly in
  let vert1 := nth idx1 poly vzero in
  let vert2 := nth ((idx1 + 1) mod N)%nat poly vzero in
  let vert3 := nth ((idx1 + 2) mod N)%nat poly vzero in
  mod_pos (PI - line_angle_lines vert1 vert2 vert2 vert3) (2 * PI).

(** No corner of the polygon has an angle above pi + eps. *)
Definition no_reflex_corner (line_angle_lines : vec -> vec -> vec -> vec -> R)
    (eps : R) (poly : list vec) : Prop :=
  forall idx1, (idx1 < List.length poly)%nat ->
    corner_angle line_angle_lines poly idx1 <= PI + eps.









(** The L-shape started at its reflex corner: the corner is the last one
    that the search for a concave corner looks at. *)
Definition l_shape_rotated : list vec :=
  [mkvec 1 1; mkvec 1 2; mkvec 0 2; mkvec 0 0; mkvec 2 0; mkvec 2 1].

(** Modelled from the spec: lines.h is not among the sources.  The centre
    of the circle through the three corners of a triangle, the circle of
    the Delaunay property (section 4.5.2). *)
Definition circumcentre (t : triangle) : vec :=
  let a := tri_get t 0 in
  let b := tri_get t 1 in
  let c := tri_get t 2 in
  let na := vx a * vx a + vy a * vy a in
  let nb := vx b * vx b + vy b * vy b in
  let nc := vx c * vx c + vy c * vy c in
  let d := 2 * (vx a * (vy b - vy c) + vx b * (vy c - vy a)
                + vx c * (vy a - vy b)) in
  mkvec ((na * (vy b - vy c) + nb * (vy c - vy a) + nc * (vy a - vy b)) / d)
        ((na * (vx c - vx b) + nb * (vx a - vx c) + nc * (vx b - vx a)) / d).

(** Modelled from the spec: lines.h is not among the sources.  The
    position of the first triangle that holds the point (section 4.5.2):
    the point lies on the same side of the three edges, or on them. *)
Definition inside_triangle (t : triangle) (pt : vec) : bool :=
  let s0 := side_of_line (tri_get t 0) (tri_get t 1) pt in
  let s1 := side_of_line (tri_get t 1) (tri_get t 2) pt in
  let s2 := side_of_line (tri_get t 2) (tri_get t 0) pt in
  (Rleb 0 s0 && Rleb 0 s1 && Rleb 0 s2)
  || (Rleb s0 0 && Rleb s1 0 && Rleb s2 0).

Fixpoint containing_triag_from (triags : list triangle) (pt : vec)
    (idx : nat) : option nat :=
  match triags with
  | [] => None
  | t :: rest =>
      if inside_triangle t pt then Some idx
      else containing_triag_from rest pt (S idx)
  end.

Definition containing_triag (triags : list triangle) (pt : vec)
  : option nat :=
  containing_triag_from triags pt 0.

(** Five points: the corners (-4,0), (4,0), (0,8) of a triangle and the
    points (-1,1) and (0,4) inside it. *)
Definition five_a : vec := mkvec (-4) 0.
Definition five_b : vec := mkvec 4 0.
Definition five_c : vec := mkvec 0 8.
Definition five_e : vec := mkvec (-1) 1.
Definition five_f : vec := mkvec 0 4.

Definition five_points : list vec :=
  [five_a; five_b; five_c; five_e; five_f].

(** The triangles after (-1,1) has been inserted. *)
Definition four_points_triangles : list triangle :=
  [[five_e; five_a; five_b]; [five_e; five_a; five_c];
   [five_e; five_b; five_c]].

(** The triangles after the triangle that holds (0,4) has been split. *)
Definition five_points_split : list triangle :=
  [[five_e; five_a; five_b]; [five_e; five_a; five_c];
   [five_f; five_e; five_b]; [five_f; five_e; five_c];
   [five_f; five_b; five_c]].

(** The triangles after the edge from (-1,1) to (0,8) has been flipped
    into the edge from (0,4) to (-4,0). *)
Definition five_points_flipped : list triangle :=
  [[five_e; five_a; five_b]; [five_f; five_a; five_c];
   [five_f; five_e; five_b]; [five_f; five_a; five_e];
   [five_f; five_b; five_c]].

(** What [calc_delaunay_iterative] returns for the five points. *)
Definition five_points_triangles : list triangle :=
  [[five_a; five_b; five_e]; [five_a; five_f; five_c];
   [five_e; five_b; five_f]; [five_a; five_e; five_f];
   [five_b; five_c; five_f]].

Definition five_points_voronoi : list vec :=
  [mkvec 0 (-7); mkvec (-6) 6; mkvec (7 / 4) (7 / 4);
   mkvec (- (7 / 2)) (7 / 2); mkvec 6 6].

Definition five_points_neighbours : list (list nat) :=
  [[2; 3]; [3; 4]; [0; 3; 4]; [0; 1; 2]; [1; 2]]%nat.

(** The default eps of the triangulation. *)
Definition delaunay_eps : R := 1 / 100000.




(** The polygon has no edge of length zero, and at every corner it turns
    to the left or goes straight on: a convex polygon given
    counter-clockwise. *)
Definition turns_left (poly : list vec) : Prop :=
  forall i, (i < List.length poly)%nat ->
    cyc poly i <> cyc poly (i + 1)
    /\ cyc poly (i + 1) <> cyc poly (i + 2)
    /\ 0 <= cross (vsub (cyc poly (i + 1)) (cyc poly i))
                  (vsub (cyc poly (i + 2)) (cyc poly (i + 1))).

(* END OF DEFINITIONS *)

(* ================================================================== *)
(** * Part II: theorems *)
(* ================================================================== *)

Unset Implicit Arguments.

(** C5.  On the graph of the unit test, Dijkstra from v1 returns the
    predecessors [none, v1, v2, v3, v3]; the two implementations agree with
    each other on the adjacency matrix and on the adjacency list. *)
Theorem dijkstra_canonical :
  dijk (test_graph (G := AdjacencyMatrix nat)) "v1"
    = expected_predecessors
  /\ dijk (test_graph (G := AdjacencyList nat)) "v1"
    = expected_predecessors
  /\ dijk_mod (test_graph (G := AdjacencyMatrix nat)) "v1"
    = dijk (test_graph (G := AdjacencyMatrix nat)) "v1"
  /\ dijk_mod (test_graph (G := AdjacencyList nat)) "v1"
    = dijk (test_graph (G := AdjacencyList nat)) "v1".
Proof. repeat split; vm_compute; reflexivity. Qed.


(* ------------------------------------------------------------------ *)
(** ** Delaunay triangulation: degenerate input *)
(* ------------------------------------------------------------------ *)

(** C10.  With fewer than three vertices [calc_delaunay_iterative] returns
    empty lists of Voronoi vertices, triangles and neighbours, whatever the
    helpers and the fuel are. *)
Theorem delaunay_fewer_than_three :
  forall calc_circumcentre get_containing_triag fuel verts eps,
    (List.length verts < 3)%nat ->
    calc_delaunay_iterative calc_circumcentre get_containing_triag
                            fuel verts eps
    = Some ([], [], []).
Proof.
  intros cc gct fuel verts eps Hlen.
  unfold calc_delaunay_iterative.
  apply Nat.ltb_lt in Hlen. rewrite Hlen. reflexivity.
Qed.

Lemma delaunay_fewer_than_three_witness :
  (List.length [mkvec 0 0; mkvec 1 0] < 3)%nat
  /\ calc_delaunay_iterative (fun _ => vzero) (fun _ _ => None) 0
       [mkvec 0 0; mkvec 1 0] (1 / 100000)
     = Some ([], [], []).
Proof.
  split.
  - simpl. lia.
  - apply delaunay_fewer_than_three. simpl. lia.
Defined.

(* ------------------------------------------------------------------ *)
(** ** Voronoi diagram: edges inside one group *)
(* ------------------------------------------------------------------ *)

Section VoroGroups.
Variable G : Type.
Context {IG : IsGraph G R}.
Variable discretize : vec -> t_line -> R -> list vec -> list vec.
Variable pt_inside_poly : list t_line -> vec -> nat -> nat -> R -> bool.
Variable lines : list t_line.
Variable line_groups : list (nat * nat).
Variable remove_in_regions : bool.
Variable edge_eps : R.
Variable vd : voronoi_diagram.

Let step :=
  voro_edge_step discretize pt_inside_poly lines line_groups
                 remove_in_regions edge_eps vd.

Lemma get_group_idx_from_nonempty :
  forall groups k seg g,
    get_group_idx_from groups k seg = Some g -> groups <> [].
Proof. intros [| p r] k seg g H; [discriminate | discriminate]. Qed.

Lemma same_group_step :
  forall st e,
    same_group_edge line_groups e = true -> step st e = st.
Proof.
  intros st e Hsame. unfold step, voro_edge_step, skipped_by_groups.
  destruct (is_secondary e); [reflexivity |].
  destruct line_groups as [| grp rest] eqn:Hgroups.
  - unfold same_group_edge in Hsame.
    destruct (get_segment_idx e false); [| discriminate].
    destruct (get_segment_idx e true); discriminate.
  - rewrite Hsame. reflexivity.
Qed.

(** The whole loop over the edges: the edges inside one group could as
    well be absent from the diagram. *)
Lemma same_group_edges_filtered :
  forall edges st,
    fold_left step edges st
    = fold_left step
        (filter (fun e => negb (same_group_edge line_groups e)) edges) st.
Proof.
  induction edges as [| e r IH]; intros st; [reflexivity |].
  simpl. destruct (same_group_edge line_groups e) eqn:Hs; simpl.
  - rewrite same_group_step by exact Hs. apply IH.
  - apply IH.
Qed.
End VoroGroups.

(** C6.  An edge of the diagram whose two generating segments lie in the
    same group leaves the graph, the linear bisectors and the parabolic
    bisectors as they were: nothing is emitted and no graph edge is added
    for it. *)
Theorem same_group_edge_discarded :
  forall (G : Type) (IG : IsGraph G R) discretize pt_inside_poly
         lines line_groups remove_in_regions edge_eps vd
         (st : voro_state G) e seg1idx seg2idx region,
    get_segment_idx e false = Some seg1idx ->
    get_segment_idx e true = Some seg2idx ->
    get_group_idx line_groups seg1idx = Some region ->
    get_group_idx line_groups seg2idx = Some region ->
    line_groups <> []
    /\ voro_edge_step discretize pt_inside_poly lines line_groups
                      remove_in_regions edge_eps vd st e = st.
Proof.
  intros G IG discretize pt_inside_poly lines line_groups remove_in_regions
         edge_eps vd st e seg1idx seg2idx region H1 H2 G1 G2.
  split.
  - unfold get_group_idx in G1.
    eapply get_group_idx_from_nonempty; eassumption.
  - apply same_group_step. unfold same_group_edge.
    rewrite H1, H2, G1, G2. apply Nat.eqb_refl.
Qed.

Lemma same_group_edge_discarded_witness :
  [(0, 4)%nat] <> []
  /\ voro_edge_step (fun _ _ _ l => l) (fun _ _ _ _ _ => false)
       [] [(0, 4)%nat] false (1 / 100)
       (mkdiagram [mkvec 0 0; mkvec 1 1] [example_group_edge])
       example_voro_state example_group_edge = example_voro_state.
Proof.
  apply (@same_group_edge_discarded (AdjacencyMatrix R) _
           (fun _ _ _ l => l) (fun _ _ _ _ _ => false)
           [] [(0, 4)%nat] false (1 / 100)
           (mkdiagram [mkvec 0 0; mkvec 1 1] [example_group_edge])
           example_voro_state example_group_edge 0%nat 1%nat 0%nat);
    reflexivity.
Defined.

(** When the groups do not overlap, lying in the range of one group is the
    same as being reported by [get_group_idx]. *)
Lemma get_group_idx_from_member :
  forall groups k seg g b e,
    groups_disjoint groups ->
    nth_error groups g = Some (b, e) -> (b <= seg < e)%nat ->
    get_group_idx_from groups k seg = Some (k + g)%nat.
Proof.
  induction groups as [| [b0 e0] rest IH]; intros k seg g b e Hd Hn Hin.
  - destruct g; discriminate.
  - simpl.
    destruct ((b0 <=? seg)%nat && (seg <? e0)%nat) eqn:Hhit.
    + apply andb_true_iff in Hhit. destruct Hhit as [H1 H2].
      apply Nat.leb_le in H1. apply Nat.ltb_lt in H2.
      assert (Hg : 0%nat = g).
      { apply (Hd 0%nat g b0 e0 b e seg); [reflexivity | exact Hn | lia | lia]. }
      subst g. f_equal. lia.
    + destruct g as [| g'].
      * simpl in Hn. inversion Hn; subst.
        apply andb_false_iff in Hhit.
        destruct Hhit as [H | H];
          [apply Nat.leb_gt in H | apply Nat.ltb_ge in H]; lia.
      * simpl in Hn.
        rewrite (IH (S k) seg g' b e); [f_equal; lia | | exact Hn | exact Hin].
        intros i j bi ei bj ej s Hi Hj Hsi Hsj.
        assert (S i = S j) by
          (apply (Hd (S i) (S j) bi ei bj ej s); assumption).
        lia.
Qed.

Lemma get_group_idx_member :
  forall groups seg g b e,
    groups_disjoint groups ->
    nth_error groups g = Some (b, e) -> (b <= seg < e)%nat ->
    get_group_idx groups seg = Some g.
Proof.
  intros. unfold get_group_idx.
  erewrite get_group_idx_from_member by eassumption. reflexivity.
Qed.

(* ------------------------------------------------------------------ *)
(** ** Polygon splitting: areas *)
(* ------------------------------------------------------------------ *)







Section Cyclic.
Variable poly : list vec.
Let N := List.length poly.
Hypothesis N_pos : (0 < N)%nat.













End Cyclic.

(* ------------------------------------------------------------------ *)
(** ** Polygon splitting: the result of [convex_split] *)
(* ------------------------------------------------------------------ *)



Section SplitResult.
Variable line_angle_lines : vec -> vec -> vec -> vec -> R.
Variable intersect_line_line :
  vec -> vec -> vec -> vec -> R -> vec * vec * bool * R * R * R.






End SplitResult.

(* ------------------------------------------------------------------ *)
(** ** Evaluating comparisons, remainders and angles *)
(* ------------------------------------------------------------------ *)

Lemma Rltb_true : forall x y, x < y -> Rltb x y = true.
Proof. intros x y H. unfold Rltb. destruct (Rlt_dec x y); [reflexivity | contradiction]. Qed.

Lemma Rltb_false : forall x y, y <= x -> Rltb x y = false.
Proof. intros x y H. unfold Rltb. destruct (Rlt_dec x y); [lra | reflexivity]. Qed.

Lemma Rleb_true : forall x y, x <= y -> Rleb x y = true.
Proof. intros x y H. unfold Rleb. destruct (Rle_dec x y); [reflexivity | contradiction]. Qed.

Lemma Rleb_false : forall x y, y < x -> Rleb x y = false.
Proof. intros x y H. unfold Rleb. destruct (Rle_dec x y); [lra | reflexivity]. Qed.

Lemma equals_true :
  forall x y eps, x - y <= eps -> y - x <= eps -> equals x y eps = true.
Proof.
  intros x y eps H1 H2. unfold equals. apply Rleb_true.
  unfold Rabs. destruct (Rcase_abs (x - y)); lra.
Qed.

Lemma equals_false :
  forall x y eps, eps < x - y \/ eps < y - x -> equals x y eps = false.
Proof.
  intros x y eps H. unfold equals. apply Rleb_false.
  unfold Rabs. destruct (Rcase_abs (x - y)); lra.
Qed.

Lemma vequals_refl : forall v eps, 0 <= eps -> vequals v v eps = true.
Proof.
  intros v eps He. unfold vequals.
  rewrite !equals_true by lra. reflexivity.
Qed.

Lemma vec_eq_dec : forall a b : vec, {a = b} + {a <> b}.
Proof.
  intros [ax ay] [bx by_].
  destruct (Req_EM_T ax bx) as [-> | Hx];
    [| right; intros H; inversion H; contradiction].
  destruct (Req_EM_T ay by_) as [-> | Hy];
    [left; reflexivity | right; intros H; inversion H; contradiction].
Qed.

Lemma separated_vequals :
  forall eps verts a b,
    separated eps verts -> In a verts -> In b verts ->
    vequals a b eps = true -> a = b.
Proof.
  intros eps verts a b [_ Hs] Ha Hb He.
  destruct (vec_eq_dec a b) as [Heq | Hne]; [exact Heq |].
  rewrite (Hs a b Ha Hb Hne) in He. discriminate.
Qed.

Lemma vequals_false :
  forall a b eps,
    eps < vx a - vx b \/ eps < vx b - vx a
    \/ eps < vy a - vy b \/ eps < vy b - vy a ->
    vequals a b eps = false.
Proof.
  intros a b eps H. unfold vequals.
  destruct H as [H | [H | [H | H]]].
  - rewrite (equals_false (vx a) (vx b)) by (left; exact H). reflexivity.
  - rewrite (equals_false (vx a) (vx b)) by (right; exact H). reflexivity.
  - rewrite (equals_false (vy a) (vy b)) by (left; exact H).
    apply andb_false_r.
  - rewrite (equals_false (vy a) (vy b)) by (right; exact H).
    apply andb_false_r.
Qed.

Lemma div_unit_interval :
  forall x m, 0 < m -> 0 <= x < m -> 0 <= x / m < 1.
Proof.
  intros x m Hm [H0 H1]. unfold Rdiv.
  assert (Hi : 0 < / m) by (apply Rinv_0_lt_compat; exact Hm).
  assert (Hmi : m * / m = 1) by (apply Rinv_r; lra).
  split; nra.
Qed.

Lemma Rtrunc_unit : forall x, 0 <= x < 1 -> Rtrunc x = 0%Z.
Proof.
  intros x [H0 H1]. unfold Rtrunc.
  destruct (Rle_dec 0 x); [| contradiction].
  symmetry. apply Int_part_spec. simpl. lra.
Qed.

Lemma Rtrunc_unit_neg : forall x, -1 < x <= 0 -> Rtrunc x = 0%Z.
Proof.
  intros x [H0 H1]. unfold Rtrunc.
  destruct (Rle_dec 0 x).
  - symmetry. apply Int_part_spec. simpl. lra.
  - replace (Int_part (- x)) with 0%Z; [reflexivity |].
    apply Int_part_spec. simpl. lra.
Qed.

Lemma Rtrunc_one : forall x, 1 <= x < 2 -> Rtrunc x = 1%Z.
Proof.
  intros x [H0 H1]. unfold Rtrunc.
  destruct (Rle_dec 0 x); [| lra].
  symmetry. apply Int_part_spec. simpl. lra.
Qed.

Lemma mod_pos_first : forall x m, 0 < m -> 0 <= x < m -> mod_pos x m = x.
Proof.
  intros x m Hm Hx. unfold mod_pos, fmod.
  rewrite (Rtrunc_unit (x / m)) by (apply div_unit_interval; assumption).
  rewrite Rltb_false by (simpl; lra). simpl. lra.
Qed.

Lemma mod_pos_below : forall x m, 0 < m -> - m < x < 0 -> mod_pos x m = x + m.
Proof.
  intros x m Hm Hx. unfold mod_pos, fmod.
  assert (Hd : -1 < x / m <= 0).
  { pose proof (div_unit_interval (- x) m Hm ltac:(lra)) as [H1 H2].
    unfold Rdiv in *. rewrite <- Ropp_mult_distr_l in H1, H2. lra. }
  rewrite (Rtrunc_unit_neg (x / m)) by exact Hd.
  rewrite Rltb_true by (simpl; lra). simpl. lra.
Qed.

Lemma mod_pos_second :
  forall x m, 0 < m -> m <= x < 2 * m -> mod_pos x m = x - m.
Proof.
  intros x m Hm Hx. unfold mod_pos, fmod.
  assert (Hd : 1 <= x / m < 2).
  { pose proof (div_unit_interval (x - m) m Hm ltac:(lra)) as [H1 H2].
    unfold Rdiv in *. rewrite Rmult_minus_distr_r in H1, H2.
    rewrite (Rinv_r m) in H1, H2 by lra. lra. }
  rewrite (Rtrunc_one (x / m)) by exact Hd.
  rewrite Rltb_false by (simpl; lra). simpl. lra.
Qed.

(** The angle of the eight compass directions. *)
Lemma line_angle_east :
  forall a b, vy b - vy a = 0 -> 0 < vx b - vx a -> line_angle a b = 0.
Proof.
  intros a b Hy Hx. unfold line_angle, atan2.
  rewrite Rltb_true by exact Hx. rewrite Hy.
  unfold Rdiv. rewrite Rmult_0_l. apply atan_0.
Qed.

Lemma line_angle_north :
  forall a b, vx b - vx a = 0 -> 0 < vy b - vy a -> line_angle a b = PI / 2.
Proof.
  intros a b Hx Hy. unfold line_angle, atan2. rewrite Hx.
  rewrite !(Rltb_false 0 0) by lra. rewrite Rltb_true by exact Hy. reflexivity.
Qed.

Lemma line_angle_west :
  forall a b, vy b - vy a = 0 -> vx b - vx a < 0 -> line_angle a b = PI.
Proof.
  intros a b Hy Hx. unfold line_angle, atan2.
  rewrite Rltb_false by lra. rewrite Rltb_true by exact Hx. rewrite Hy.
  rewrite Rleb_true by lra.
  unfold Rdiv. rewrite Rmult_0_l, atan_0. lra.
Qed.

Lemma line_angle_south :
  forall a b, vx b - vx a = 0 -> vy b - vy a < 0 ->
    line_angle a b = - (PI / 2).
Proof.
  intros a b Hx Hy. unfold line_angle, atan2. rewrite Hx.
  rewrite !(Rltb_false 0 0) by lra.
  rewrite Rltb_false by lra. rewrite Rltb_true by exact Hy. reflexivity.
Qed.

Lemma line_angle_north_east :
  forall a b, vy b - vy a = vx b - vx a -> 0 < vx b - vx a ->
    line_angle a b = PI / 4.
Proof.
  intros a b Hy Hx. unfold line_angle, atan2.
  rewrite Rltb_true by exact Hx. rewrite Hy.
  replace ((vx b - vx a) / (vx b - vx a)) with 1 by (field; lra).
  apply atan_1.
Qed.

Lemma line_angle_south_west :
  forall a b, vy b - vy a = vx b - vx a -> vx b - vx a < 0 ->
    line_angle a b = - (3 * PI / 4).
Proof.
  intros a b Hy Hx. unfold line_angle, atan2.
  rewrite Rltb_false by lra. rewrite Rltb_true by exact Hx.
  rewrite Rleb_false by lra. rewrite Hy.
  replace ((vx b - vx a) / (vx b - vx a)) with 1 by (field; lra).
  rewrite atan_1. lra.
Qed.

Lemma line_angle_north_west :
  forall a b, vy b - vy a = - (vx b - vx a) -> vx b - vx a < 0 ->
    line_angle a b = 3 * PI / 4.
Proof.
  intros a b Hy Hx. unfold line_angle, atan2.
  rewrite Rltb_false by lra. rewrite Rltb_true by exact Hx.
  rewrite Rleb_true by lra. rewrite Hy.
  replace (- (vx b - vx a) / (vx b - vx a)) with (Ropp 1) by (field; lra).
  rewrite atan_opp, atan_1. lra.
Qed.

Lemma line_angle_south_east :
  forall a b, vy b - vy a = - (vx b - vx a) -> 0 < vx b - vx a ->
    line_angle a b = - (PI / 4).
Proof.
  intros a b Hy Hx. unfold line_angle, atan2.
  rewrite Rltb_true by exact Hx. rewrite Hy.
  replace (- (vx b - vx a) / (vx b - vx a)) with (Ropp 1) by (field; lra).
  rewrite atan_opp, atan_1. lra.
Qed.

Lemma PI_bounds : 2 < PI <= 4.
Proof. split; [pose proof PI2_1; lra | apply PI_4]. Qed.

(** Rewrite every angle of a compass direction, then every remainder,
    then every comparison that linear arithmetic over PI decides. *)
Ltac eval_line_angles :=
  repeat match goal with
  | |- context [line_angle ?a ?b] =>
      first [ rewrite (line_angle_east a b) by (simpl; lra)
            | rewrite (line_angle_north a b) by (simpl; lra)
            | rewrite (line_angle_west a b) by (simpl; lra)
            | rewrite (line_angle_south a b) by (simpl; lra)
            | rewrite (line_angle_north_east a b) by (simpl; lra)
            | rewrite (line_angle_south_west a b) by (simpl; lra)
            | rewrite (line_angle_north_west a b) by (simpl; lra)
            | rewrite (line_angle_south_east a b) by (simpl; lra) ]
  end.

Ltac pi_lra := pose proof PI_bounds; simpl; lra.

Ltac eval_mod_pos :=
  repeat match goal with
  | |- context [mod_pos ?x ?m] =>
      first [ rewrite (mod_pos_first x m) by pi_lra
            | rewrite (mod_pos_below x m) by pi_lra
            | rewrite (mod_pos_second x m) by pi_lra ]
  end.

Ltac eval_compare :=
  repeat match goal with
  | |- context [Rltb ?x ?y] =>
      first [ rewrite (Rltb_true x y) by pi_lra
            | rewrite (Rltb_false x y) by pi_lra ]
  | |- context [Rleb ?x ?y] =>
      first [ rewrite (Rleb_true x y) by pi_lra
            | rewrite (Rleb_false x y) by pi_lra ]
  | |- context [equals ?x ?y ?e] =>
      first [ rewrite (equals_true x y e) by pi_lra
            | rewrite (equals_false x y e) by (first [left; pi_lra | right; pi_lra]) ]
  end.

(** The angle of a direction that points upwards, and of one that points
    downwards, by the arc tangent of the cotangent. *)
Lemma line_angle_upwards :
  forall a b, 0 < vy b - vy a ->
    line_angle a b = PI / 2 - atan ((vx b - vx a) / (vy b - vy a)).
Proof.
  intros a b Hy. unfold line_angle, atan2.
  set (x := vx b - vx a). set (y := vy b - vy a). fold y in Hy.
  destruct (Rlt_dec 0 x) as [Hx | Hx].
  - rewrite Rltb_true by exact Hx.
    replace (y / x) with (/ (x / y)) by (field; lra).
    apply atan_inv. apply Rdiv_lt_0_compat; assumption.
  - rewrite Rltb_false by lra.
    destruct (Rlt_dec x 0) as [Hx' | Hx'].
    + rewrite Rltb_true by exact Hx'. rewrite Rleb_true by lra.
      replace (y / x) with (- / (- x / y)) by (field; lra).
      rewrite atan_opp, atan_inv
        by (apply Rdiv_lt_0_compat; lra).
      replace (- x / y) with (- (x / y)) by (field; lra).
      rewrite atan_opp. lra.
    + rewrite Rltb_false by lra. rewrite Rltb_true by exact Hy.
      replace x with 0 by lra. unfold Rdiv. rewrite Rmult_0_l, atan_0. lra.
Qed.

Lemma line_angle_downwards :
  forall a b, vy b - vy a < 0 ->
    line_angle a b = - (PI / 2) - atan ((vx b - vx a) / (vy b - vy a)).
Proof.
  intros a b Hy. unfold line_angle, atan2.
  set (x := vx b - vx a). set (y := vy b - vy a). fold y in Hy.
  destruct (Rlt_dec 0 x) as [Hx | Hx].
  - rewrite Rltb_true by exact Hx.
    replace (y / x) with (- / (x / - y)) by (field; lra).
    rewrite atan_opp, atan_inv by (apply Rdiv_lt_0_compat; lra).
    replace (x / - y) with (- (x / y)) by (field; lra).
    rewrite atan_opp. lra.
  - rewrite Rltb_false by lra.
    destruct (Rlt_dec x 0) as [Hx' | Hx'].
    + rewrite Rltb_true by exact Hx'. rewrite Rleb_false by lra.
      replace (y / x) with (/ (x / y)) by (field; lra).
      rewrite atan_inv.
      * lra.
      * replace (x / y) with (- x / - y) by (field; lra).
        apply Rdiv_lt_0_compat; lra.
    + rewrite Rltb_false by lra. rewrite Rltb_false by lra.
      rewrite Rltb_true by exact Hy.
      replace x with 0 by lra. unfold Rdiv. rewrite Rmult_0_l, atan_0. lra.
Qed.

(** Rewrite every angle into its closed form, collect what is known about
    the arc tangents that occur, and decide the comparison. *)
Ltac angle_normal_forms :=
  repeat match goal with
  | |- context [line_angle ?a ?b] =>
      first [ rewrite (line_angle_east a b) by (simpl; lra)
            | rewrite (line_angle_west a b) by (simpl; lra)
            | rewrite (line_angle_upwards a b) by (simpl; lra)
            | rewrite (line_angle_downwards a b) by (simpl; lra) ]
  end.

Ltac atan_bounds :=
  repeat match goal with
  | |- context [atan ?q] =>
      lazymatch goal with
      | _ : - PI / 2 < atan q < PI / 2 |- _ => fail
      | _ => pose proof (atan_bound q)
      end
  end.

Ltac atan_order :=
  repeat match goal with
  | H1 : - PI / 2 < atan ?q1 < PI / 2,
    H2 : - PI / 2 < atan ?q2 < PI / 2 |- _ =>
      lazymatch q1 with q2 => fail | _ => idtac end;
      lazymatch goal with
      | _ : atan q1 < atan q2 |- _ => fail
      | _ : atan q2 < atan q1 |- _ => fail
      | _ => idtac
      end;
      first [ assert (atan q1 < atan q2)
                by (apply atan_increasing; simpl; lra)
            | assert (atan q2 < atan q1)
                by (apply atan_increasing; simpl; lra) ]
  end.

Ltac angle_lra := atan_bounds; atan_order; pose proof PI_bounds; lra.

Ltac eval_angle_compare :=
  repeat match goal with
  | |- context [Rltb ?x ?y] =>
      first [ rewrite (Rltb_true x y) by angle_lra
            | rewrite (Rltb_false x y) by angle_lra ]
  end.

Ltac eval_vequals :=
  repeat match goal with
  | |- context [vequals ?a ?b ?e] =>
      first [ rewrite (vequals_refl a e) by (simpl; lra)
            | rewrite (vequals_false a b e)
                by (simpl;
                    first [ left; lra | right; left; lra
                          | right; right; left; lra
                          | right; right; right; lra ]) ]
  end.

(* ------------------------------------------------------------------ *)
(** ** Polygon splitting: the search for a concave corner *)
(* ------------------------------------------------------------------ *)

(** What the loop over the corners returns: the first position whose
    corner angle is above pi + eps, or nothing when no position from
    [idx1] on has one. *)
Lemma find_concave_from_spec :
  forall line_angle_lines eps poly count idx1,
    match find_concave_from line_angle_lines eps poly idx1 count with
    | Some ic =>
        (idx1 <= ic < idx1 + count)%nat
        /\ PI + eps < corner_angle line_angle_lines poly ic
        /\ forall j, (idx1 <= j < ic)%nat ->
             corner_angle line_angle_lines poly j <= PI + eps
    | None =>
        forall j, (idx1 <= j < idx1 + count)%nat ->
          corner_angle line_angle_lines poly j <= PI + eps
    end.
Proof.
  intros la eps poly count.
  induction count as [| c IH]; intros idx1; cbn [find_concave_from].
  - intros j Hj. lia.
  - fold (corner_angle la poly idx1).
    unfold Rltb. destruct (Rlt_dec (PI + eps) (corner_angle la poly idx1))
      as [Hlt | Hge].
    + split; [lia |]. split; [exact Hlt |]. intros j Hj. lia.
    + specialize (IH (S idx1)).
      destruct (find_concave_from la eps poly (S idx1) c) as [ic |].
      * destruct IH as (Hb & Hic & Hmin).
        split; [lia |]. split; [exact Hic |].
        intros j Hj. destruct (Nat.eq_dec j idx1) as [-> | Hne];
          [lra | apply Hmin; lia].
      * intros j Hj. destruct (Nat.eq_dec j idx1) as [-> | Hne];
          [lra | apply IH; lia].
Qed.

(** The search looks at every corner of the polygon: it finds nothing
    exactly when no corner angle is above pi + eps. *)
Lemma find_concave_none_iff :
  forall line_angle_lines eps poly,
    find_concave line_angle_lines eps poly = None
    <-> no_reflex_corner line_angle_lines eps poly.
Proof.
  intros la eps poly. unfold find_concave, no_reflex_corner.
  pose proof (find_concave_from_spec la eps poly (List.length poly) 0) as H.
  destruct (find_concave_from la eps poly 0 (List.length poly)) as [ic |].
  - destruct H as (Hb & Hic & _). split; [discriminate |].
    intros Hall. specialize (Hall ic ltac:(lia)). lra.
  - split; [| reflexivity]. intros _ j Hj. apply H. lia.
Qed.

(** Otherwise it returns the first position with such a corner. *)
Lemma find_concave_some_iff :
  forall line_angle_lines eps poly ic,
    find_concave line_angle_lines eps poly = Some ic
    <-> ((ic < List.length poly)%nat
         /\ PI + eps < corner_angle line_angle_lines poly ic
         /\ forall j, (j < ic)%nat ->
              corner_angle line_angle_lines poly j <= PI + eps).
Proof.
  intros la eps poly ic. unfold find_concave.
  pose proof (find_concave_from_spec la eps poly (List.length poly) 0) as H.
  destruct (find_concave_from la eps poly 0 (List.length poly)) as [ic' |].
  - destruct H as (Hb & Hic & Hmin). split.
    + intros Heq. inversion Heq; subst ic'.
      split; [lia |]. split; [exact Hic |]. intros j Hj. apply Hmin. lia.
    + intros (Hb' & Hic' & Hmin'). f_equal.
      destruct (Nat.lt_trichotomy ic' ic) as [Hlt | [Heq | Hgt]];
        [| exact Heq |].
      * specialize (Hmin' ic' Hlt). lra.
      * specialize (Hmin ic ltac:(lia)). lra.
  - split; [discriminate |]. intros (Hb & Hic & _).
    specialize (H ic ltac:(lia)). lra.
Qed.

Lemma convex_split_without_concave :
  forall line_angle_lines intersect_line_line fuel poly eps,
    find_concave line_angle_lines eps poly = None ->
    convex_split line_angle_lines intersect_line_line (S fuel) poly eps
    = Some [].
Proof.
  intros la ill fuel poly eps H. cbn [convex_split].
  destruct (List.length poly <=? 3)%nat; [reflexivity |].
  rewrite H. reflexivity.
Qed.

(** One level of [convex_split] on a polygon that is cut. *)
Lemma convex_split_cut :
  forall line_angle_lines intersect_line_line fuel poly eps ic ii,
    (3 < List.length poly)%nat ->
    find_concave line_angle_lines eps poly = Some ic ->
    find_intersection intersect_line_line eps poly ic = Some ii ->
    let N := List.length poly in
    let poly1 := chain_until N poly ii ((ic + 1) mod N)%nat in
    let poly2 := chain_until N poly ((ic + 1) mod N)%nat ii in
    convex_split line_angle_lines intersect_line_line (S fuel) poly eps
    = match convex_split line_angle_lines intersect_line_line fuel poly1 eps,
            convex_split line_angle_lines intersect_line_line fuel poly2 eps
      with
      | Some subsplit1, Some subsplit2 =>
          Some (collect_subsplit subsplit1 poly1
                ++ collect_subsplit subsplit2 poly2)
      | _, _ => None
      end.
Proof.
  intros la ill fuel poly eps ic ii HN Hc Hi N poly1 poly2.
  cbn [convex_split].
  apply Nat.leb_gt in HN. rewrite HN, Hc, Hi. reflexivity.
Qed.


(* ------------------------------------------------------------------ *)
(** ** Polygon splitting: corner angle and turning direction *)
(* ------------------------------------------------------------------ *)

Lemma norm_eq :
  forall v r, 0 <= r -> vx v * vx v + vy v * vy v = r * r -> norm v = r.
Proof.
  intros v r Hr H. unfold norm. apply sqrt_lem_1.
  - nra.
  - exact Hr.
  - symmetry. exact H.
Qed.

Lemma norm_nonneg : forall v, 0 <= norm v.
Proof. intros v. unfold norm. apply sqrt_pos. Qed.

Lemma norm_sqr : forall v, norm v * norm v = vx v * vx v + vy v * vy v.
Proof. intros v. unfold norm. apply sqrt_sqrt. nra. Qed.

Lemma norm_zero_vec : forall v, norm v = 0 -> vx v = 0 /\ vy v = 0.
Proof.
  intros v H. pose proof (norm_sqr v) as Hs. rewrite H in Hs.
  split; nra.
Qed.

Lemma atan_nonpos : forall q, q <= 0 -> atan q <= 0.
Proof.
  intros q Hq. destruct (Req_dec q 0) as [-> | Hne].
  - rewrite atan_0. lra.
  - pose proof (atan_increasing q 0 ltac:(lra)) as H. rewrite atan_0 in H. lra.
Qed.

Lemma atan_pos : forall q, 0 < q -> 0 < atan q.
Proof.
  intros q Hq. pose proof (atan_increasing 0 q Hq) as H.
  rewrite atan_0 in H. exact H.
Qed.

(** The angle of a direction lies in (-pi, pi]. *)
Lemma line_angle_range : forall a b, - PI < line_angle a b <= PI.
Proof.
  intros a b. unfold line_angle, atan2.
  set (x := vx b - vx a). set (y := vy b - vy a).
  pose proof PI_bounds as HPI.
  pose proof (atan_bound (y / x)) as Hb.
  unfold Rltb, Rleb.
  destruct (Rlt_dec 0 x) as [Hx | Hx]; [lra |].
  destruct (Rlt_dec x 0) as [Hx' | Hx'].
  - destruct (Rle_dec 0 y) as [Hy | Hy].
    + assert (Hq : y / x <= 0).
      { unfold Rdiv. assert (/ x < 0) by (apply Rinv_lt_0_compat; exact Hx').
        nra. }
      pose proof (atan_nonpos _ Hq). lra.
    + assert (Hq : 0 < y / x).
      { unfold Rdiv. assert (/ x < 0) by (apply Rinv_lt_0_compat; exact Hx').
        nra. }
      pose proof (atan_pos _ Hq). lra.
  - destruct (Rlt_dec 0 y); [lra |].
    destruct (Rlt_dec y 0); lra.
Qed.

Lemma sqrt_one_plus_sqr :
  forall x y, 0 < y ->
    sqrt (1 + (x / y)²) = sqrt (x * x + y * y) / y.
Proof.
  intros x y Hy.
  replace (1 + (x / y)²) with ((x * x + y * y) / (y * y))
    by (unfold Rsqr; field; lra).
  rewrite sqrt_div_alt by nra.
  rewrite sqrt_square by lra. reflexivity.
Qed.

(** Cosine and sine of the angle of a direction. *)
Lemma line_angle_cos_sin :
  forall a b, a <> b ->
    cos (line_angle a b) = (vx b - vx a) / norm (vsub b a)
    /\ sin (line_angle a b) = (vy b - vy a) / norm (vsub b a).
Proof.
  intros a b Hne.
  assert (Hr : 0 < norm (vsub b a)).
  { pose proof (norm_nonneg (vsub b a)) as H0.
    destruct (Req_dec (norm (vsub b a)) 0) as [Hz | Hz]; [| lra].
    exfalso. apply norm_zero_vec in Hz. cbn [vsub vx vy] in Hz.
    apply Hne. destruct a as [ax ay], b as [bx by_]. cbn [vx vy] in Hz. f_equal; lra. }
  unfold norm in *. cbn [vsub vx vy] in *.
  set (x := vx b - vx a) in *. set (y := vy b - vy a) in *.
  set (r := sqrt (x * x + y * y)) in *.
  destruct (Rlt_dec 0 y) as [Hy | Hy].
  - rewrite (line_angle_upwards a b) by exact Hy. fold x y.
    rewrite cos_shift, sin_shift, sin_atan, cos_atan.
    rewrite (sqrt_one_plus_sqr x y Hy). fold r.
    split; field; lra.
  - destruct (Rlt_dec y 0) as [Hy' | Hy'].
    + rewrite (line_angle_downwards a b) by exact Hy'. fold x y.
      replace (- (PI / 2) - atan (x / y)) with (- (PI / 2 + atan (x / y)))
        by lra.
      rewrite cos_neg, sin_neg.
      pose proof (sin_cos (atan (x / y))) as Hsc.
      pose proof (cos_sin (atan (x / y))) as Hcs.
      assert (Hc : cos (PI / 2 + atan (x / y)) = - sin (atan (x / y)))
        by lra.
      rewrite Hc, <- Hcs, sin_atan, cos_atan.
      replace (x / y) with ((- x) / (- y)) by (field; lra).
      rewrite (sqrt_one_plus_sqr (- x) (- y)) by lra.
      replace (- x * - x + - y * - y) with (x * x + y * y) by ring.
      fold r. split; field; lra.
    + assert (Hy0 : y = 0) by lra.
      assert (Hx0 : x <> 0).
      { intros Hx0. apply Hne. unfold x, y in *.
        destruct a as [ax ay], b as [bx by_].
        cbn [vx vy] in *. f_equal; lra. }
      assert (Hrx : r = Rabs x).
      { unfold r. rewrite Hy0.
        replace (x * x + 0 * 0) with (x²) by (unfold Rsqr; ring).
        apply sqrt_Rsqr_abs. }
      destruct (Rlt_dec 0 x) as [Hx | Hx].
      * rewrite (line_angle_east a b) by (fold x y; lra).
        rewrite cos_0, sin_0, Hrx, Rabs_right by lra.
        rewrite Hy0. split; field; lra.
      * rewrite (line_angle_west a b) by (fold x y; lra).
        rewrite cos_PI, sin_PI, Hrx, Rabs_left by lra.
        rewrite Hy0. split; field; lra.
Qed.

(** The sine of the turn from one edge to the next has the sign of the
    cross product of the two edges. *)
Lemma turn_sine :
  forall a b c, a <> b -> b <> c ->
    sin (line_angle4 a b b c)
    = cross (vsub b a) (vsub c b) / (norm (vsub b a) * norm (vsub c b)).
Proof.
  intros a b c Hab Hbc. unfold line_angle4. rewrite sin_minus.
  destruct (line_angle_cos_sin a b Hab) as [C1 S1].
  destruct (line_angle_cos_sin b c Hbc) as [C2 S2].
  rewrite C1, S1, C2, S2.
  assert (H1 : norm (vsub b a) <> 0).
  { intros Hz. apply norm_zero_vec in Hz. cbn [vsub vx vy] in Hz.
    apply Hab. destruct a as [ax ay], b as [bx by_]. cbn [vx vy] in Hz. f_equal; lra. }
  assert (H2 : norm (vsub c b) <> 0).
  { intros Hz. apply norm_zero_vec in Hz. cbn [vsub vx vy] in Hz.
    apply Hbc. destruct b as [bx by_], c as [cx cy]. cbn [vx vy] in Hz. f_equal; lra. }
  unfold cross. cbn [vsub vx vy]. field. split; assumption.
Qed.

(** The corner angle of [convex_split], for the turn angle of the model
    of lines.h: at a corner where the polygon turns to the left or goes
    straight on the angle is at most pi, at a corner where it turns to
    the right it is above pi. *)
Lemma corner_angle_of_turn :
  forall a b c, a <> b -> b <> c ->
    (0 <= cross (vsub b a) (vsub c b) ->
     mod_pos (PI - line_angle4 a b b c) (2 * PI) <= PI)
    /\ (cross (vsub b a) (vsub c b) < 0 ->
        PI < mod_pos (PI - line_angle4 a b b c) (2 * PI)).
Proof.
  intros a b c Hab Hbc.
  pose proof (turn_sine a b c Hab Hbc) as Hs.
  pose proof PI_bounds as HPI.
  assert (Hn : 0 < norm (vsub b a) * norm (vsub c b)).
  { apply Rmult_lt_0_compat.
    - pose proof (norm_nonneg (vsub b a)).
      destruct (Req_dec (norm (vsub b a)) 0) as [Hz | Hz]; [| lra].
      exfalso. apply norm_zero_vec in Hz. cbn [vsub vx vy] in Hz.
      apply Hab. destruct a as [ax ay], b as [bx by_]. cbn [vx vy] in Hz. f_equal; lra.
    - pose proof (norm_nonneg (vsub c b)).
      destruct (Req_dec (norm (vsub c b)) 0) as [Hz | Hz]; [| lra].
      exfalso. apply norm_zero_vec in Hz. cbn [vsub vx vy] in Hz.
      apply Hbc. destruct b as [bx by_], c as [cx cy]. cbn [vx vy] in Hz. f_equal; lra. }
  pose proof (line_angle_range a b) as R1.
  pose proof (line_angle_range b c) as R2.
  set (t := line_angle4 a b b c) in *.
  assert (Ht : - (2 * PI) < t < 2 * PI)
    by (unfold t, line_angle4; lra).
  split; intros Hc.
  - assert (Hsin : 0 <= sin t).
    { rewrite Hs. apply Rmult_le_pos; [exact Hc |].
      apply Rlt_le, Rinv_0_lt_compat. exact Hn. }
    destruct (Rle_dec 0 t) as [H0 | H0].
    + destruct (Rle_dec t PI) as [H1 | H1].
      * rewrite mod_pos_first by lra. lra.
      * pose proof (sin_lt_0 t ltac:(lra) ltac:(lra)). lra.
    + destruct (Rle_dec t (- PI)) as [H1 | H1].
      * rewrite mod_pos_second by lra. lra.
      * pose proof (sin_lt_0_var t ltac:(lra) ltac:(lra)). lra.
  - assert (Hsin : sin t < 0).
    { rewrite Hs. unfold Rdiv.
      assert (0 < / (norm (vsub b a) * norm (vsub c b)))
        by (apply Rinv_0_lt_compat; exact Hn).
      nra. }
    destruct (Rlt_dec 0 t) as [H0 | H0].
    + destruct (Rle_dec t PI) as [H1 | H1].
      * pose proof (sin_ge_0 t ltac:(lra) H1). lra.
      * rewrite mod_pos_below by lra. lra.
    + destruct (Rle_dec t (- PI)) as [H1 | H1].
      * assert (Hp : 0 <= sin (t + 2 * PI))
          by (apply sin_ge_0; lra).
        rewrite sin_plus, sin_2PI, cos_2PI in Hp. lra.
      * destruct (Req_dec t 0) as [Hz | Hz].
        { rewrite Hz, sin_0 in Hsin. lra. }
        rewrite mod_pos_first by lra. lra.
Qed.

(** A convex polygon given counter-clockwise has no corner angle above
    pi + eps, for the turn angle of the model of lines.h. *)
Lemma turns_left_no_reflex_corner :
  forall eps poly,
    0 <= eps -> turns_left poly -> no_reflex_corner line_angle4 eps poly.
Proof.
  intros eps poly He Hleft i Hi.
  destruct (Hleft i Hi) as (H1 & H2 & Hc).
  unfold corner_angle. unfold cyc in *.
  rewrite (Nat.mod_small i) in * by exact Hi.
  destruct (corner_angle_of_turn _ _ _ H1 H2) as [Hle _].
  specialize (Hle Hc). lra.
Qed.

(** A corner where the polygon turns to the right has an angle above
    pi. *)
Lemma right_turn_corner_angle :
  forall poly i,
    (i < List.length poly)%nat ->
    cyc poly i <> cyc poly (i + 1) ->
    cyc poly (i + 1) <> cyc poly (i + 2) ->
    cross (vsub (cyc poly (i + 1)) (cyc poly i))
          (vsub (cyc poly (i + 2)) (cyc poly (i + 1))) < 0 ->
    PI < corner_angle line_angle4 poly i.
Proof.
  intros poly i Hi H1 H2 Hc.
  unfold corner_angle. unfold cyc in *.
  rewrite (Nat.mod_small i) in * by exact Hi.
  destruct (corner_angle_of_turn _ _ _ H1 H2) as [_ Hgt].
  exact (Hgt Hc).
Qed.

(** A convex polygon given counter-clockwise is not cut. *)
Lemma convex_split_of_left_turning_polygon :
  forall intersect_line_line fuel poly eps,
    0 <= eps -> turns_left poly ->
    convex_split line_angle4 intersect_line_line (S fuel) poly eps = Some [].
Proof.
  intros ill fuel poly eps He Hleft.
  apply convex_split_without_concave, find_concave_none_iff,
    turns_left_no_reflex_corner; assumption.
Qed.

Lemma unit_square_turns_left : turns_left unit_square.
Proof.
  intros i Hi. unfold unit_square in *. cbn [List.length] in Hi.
  destruct i as [| [| [| [| i]]]]; try lia;
    unfold cyc, cross;
    cbn [List.length nth Nat.modulo Nat.divmod Nat.add fst snd Nat.sub
         vsub vx vy];
    (split; [intros E; inversion E; lra |]);
    (split; [intros E; inversion E; lra | lra]).
Qed.

(* ------------------------------------------------------------------ *)
(** ** Polygon splitting: a square, an L-shape and a hook *)
(* ------------------------------------------------------------------ *)

Ltac eval_find_concave :=
  unfold find_concave;
  cbn [List.length find_concave_from nth Nat.modulo Nat.divmod Nat.add fst snd
       Nat.sub];
  unfold line_angle4;
  eval_line_angles; eval_mod_pos; eval_compare.

Ltac eval_find_intersection :=
  unfold find_intersection;
  cbn [List.length find_intersection_from nth Nat.modulo Nat.divmod Nat.add
       fst snd Nat.sub];
  unfold intersect_line_line_2d, equals_0, vequals, vsub, vadd, vscale;
  cbn [vx vy];
  eval_compare.

Lemma unit_square_no_concave :
  find_concave line_angle4 split_eps unit_square = None.
Proof.
  unfold unit_square, split_eps. eval_find_concave. reflexivity.
Qed.

Lemma l_shape_concave :
  find_concave line_angle4 split_eps l_shape = Some 2%nat.
Proof.
  unfold l_shape, split_eps. eval_find_concave. reflexivity.
Qed.

(** The search reaches the last position: started at its reflex corner,
    the L-shape has that corner at position 5. *)
Lemma l_shape_rotated_concave :
  find_concave line_angle4 split_eps l_shape_rotated = Some 5%nat.
Proof.
  unfold l_shape_rotated, split_eps. eval_find_concave. reflexivity.
Qed.

Lemma l_shape_part1_no_concave :
  find_concave line_angle4 split_eps l_shape_part1 = None.
Proof.
  unfold l_shape_part1, split_eps. eval_find_concave. reflexivity.
Qed.

Lemma l_shape_part2_no_concave :
  find_concave line_angle4 split_eps l_shape_part2 = None.
Proof.
  unfold l_shape_part2, split_eps. eval_find_concave. reflexivity.
Qed.

Lemma l_shape_intersection :
  find_intersection intersect_line_line_2d split_eps l_shape 2 = Some 0%nat.
Proof.
  unfold l_shape, split_eps. eval_find_intersection. reflexivity.
Qed.

Lemma l_shape_split :
  convex_split line_angle4 intersect_line_line_2d 2 l_shape split_eps
  = Some [l_shape_part1; l_shape_part2].
Proof.
  cbn [convex_split].
  change (List.length l_shape <=? 3)%nat with false. cbv iota.
  rewrite l_shape_concave, l_shape_intersection.
  change (chain_until (List.length l_shape) l_shape 0
            ((2 + 1) mod List.length l_shape)%nat) with l_shape_part1.
  change (chain_until (List.length l_shape) l_shape
            ((2 + 1) mod List.length l_shape)%nat 0) with l_shape_part2.
  change (List.length l_shape_part1 <=? 3)%nat with false.
  change (List.length l_shape_part2 <=? 3)%nat with false. cbv iota.
  rewrite l_shape_part1_no_concave, l_shape_part2_no_concave.
  reflexivity.
Qed.










(* ------------------------------------------------------------------ *)
(** ** Polygon splitting: convex input *)
(* ------------------------------------------------------------------ *)

(** C4, as amended.  A polygon has no corner angle above pi + eps exactly
    when the search for a concave corner, which looks at all its
    corners, finds none.  For such a polygon [convex_split] returns the
    empty list, not the polygon: the empty result is how the function
    reports that there is nothing to split.  Where such a polygon is one
    of the two parts that the function cuts off a larger polygon, the
    recursion puts it into the result unchanged. *)
Theorem convex_polygon_yields_empty_split :
  forall line_angle_lines intersect_line_line poly eps,
    (no_reflex_corner line_angle_lines eps poly
     <-> find_concave line_angle_lines eps poly = None)
    /\ (no_reflex_corner line_angle_lines eps poly ->
        forall fuel,
          convex_split line_angle_lines intersect_line_line (S fuel) poly eps
            = Some []
          /\ forall whole ic ii split,
               (3 < List.length whole)%nat ->
               find_concave line_angle_lines eps whole = Some ic ->
               find_intersection intersect_line_line eps whole ic = Some ii ->
               poly = chain_until (List.length whole) whole ii
                        ((ic + 1) mod List.length whole)%nat
               \/ poly = chain_until (List.length whole) whole
                           ((ic + 1) mod List.length whole)%nat ii ->
               convex_split line_angle_lines intersect_line_line
                            (S (S fuel)) whole eps = Some split ->
               In poly split).
Proof.
  intros la ill poly eps.
  split; [symmetry; apply find_concave_none_iff |].
  intros Hno fuel.
  assert (Hempty : forall f, convex_split la ill (S f) poly eps = Some []).
  { intros f. apply convex_split_without_concave.
    apply find_concave_none_iff. exact Hno. }
  split; [apply Hempty |].
  intros whole ic ii split HN Hc Hi Hpoly Hrun.
  rewrite (convex_split_cut la ill (S fuel) whole eps ic ii HN Hc Hi) in Hrun.
  destruct Hpoly as [Hp | Hp]; rewrite <- Hp in Hrun;
    rewrite (Hempty fuel) in Hrun.
  - destruct (convex_split la ill (S fuel) _ eps) as [sub2 |];
      [| discriminate].
    inversion Hrun; subst split. left. reflexivity.
  - destruct (convex_split la ill (S fuel) _ eps) as [sub1 |];
      [| discriminate].
    inversion Hrun; subst split. apply in_or_app. right. left. reflexivity.
Qed.

Lemma convex_polygon_yields_empty_split_witness :
  no_reflex_corner line_angle4 split_eps unit_square
  /\ convex_split line_angle4 intersect_line_line_2d 1 unit_square split_eps
     = Some []
  /\ no_reflex_corner line_angle4 split_eps l_shape_part1
  /\ In l_shape_part1 [l_shape_part1; l_shape_part2].
Proof.
  destruct (convex_polygon_yields_empty_split line_angle4
              intersect_line_line_2d unit_square split_eps) as [Hiff Hrun].
  pose proof (proj2 Hiff unit_square_no_concave) as Hno.
  split; [exact Hno |].
  split; [exact (proj1 (Hrun Hno 0%nat)) |].
  destruct (convex_polygon_yields_empty_split line_angle4
              intersect_line_line_2d l_shape_part1 split_eps) as [Hiff1 Hrun1].
  pose proof (proj2 Hiff1 l_shape_part1_no_concave) as Hno1.
  split; [exact Hno1 |].
  apply (proj2 (Hrun1 Hno1 0%nat) l_shape 2%nat 0%nat).
  - cbn. lia.
  - exact l_shape_concave.
  - exact l_shape_intersection.
  - left. reflexivity.
  - exact l_shape_split.
Defined.

(** C4 as stated fails on the unit square: it has no reflex corner, and
    the result is never the list holding the square. *)
Lemma convex_square_not_returned :
  find_concave line_angle4 split_eps unit_square = None
  /\ forall fuel,
       convex_split line_angle4 intersect_line_line_2d fuel unit_square
                    split_eps
       <> Some [unit_square].
Proof.
  split; [exact unit_square_no_concave |].
  intros [| fuel].
  - discriminate.
  - rewrite convex_split_without_concave by exact unit_square_no_concave.
    discriminate.
Qed.

(* ------------------------------------------------------------------ *)
(** ** Polygon splitting: the parts of a concave polygon *)
(* ------------------------------------------------------------------ *)





(* ------------------------------------------------------------------ *)
(** ** Voronoi diagram: infinite edges *)
(* ------------------------------------------------------------------ *)





Section VoroInfinite.
Variable G : Type.
Context {IG : IsGraph G R}.
Variable discretize : vec -> t_line -> R -> list vec -> list vec.
Variable pt_inside_poly : list t_line -> vec -> nat -> nat -> R -> bool.
Variable lines : list t_line.
Variable line_groups : list (nat * nat).
Variable remove_in_regions : bool.
Variable edge_eps : R.
Variable vd : voronoi_diagram.

Let step :=
  voro_edge_step discretize pt_inside_poly lines line_groups
                 remove_in_regions edge_eps vd.

Lemma get_vertex_idx_none : forall ptrs, get_vertex_idx ptrs None = None.
Proof. reflexivity. Qed.

(** An edge with a missing end point never reaches [AddEdge], and never
    becomes a parabolic bisector. *)
Lemma infinite_edge_graph :
  forall st e,
    is_finite e = false ->
    vs_graph (step st e) = vs_graph st
    /\ vs_parabolic (step st e) = vs_parabolic st.
Proof.
  intros st e Hinf. unfold step, voro_edge_step.
  destruct (is_secondary e); [split; reflexivity |].
  destruct (skipped_by_groups _ _ _ _ _ _ _ _ _); [split; reflexivity |].
  assert (Hidx : match get_vertex_idx (vorovertices vd) (vertex0 e),
                       get_vertex_idx (vorovertices vd) (vertex1 e) with
                 | Some _, Some _ => False
                 | _, _ => True
                 end).
  { unfold is_finite in Hinf.
    destruct (vertex0 e), (vertex1 e); simpl in Hinf; try discriminate;
      simpl; try exact I;
      destruct (find_vertex_ptr _ _ _); exact I. }
  rewrite Hinf. cbn [andb].
  unfold emit_bisector. rewrite Hinf, andb_false_r.
  destruct (get_vertex_idx (vorovertices vd) (vertex0 e)) as [i0 |];
    destruct (get_vertex_idx (vorovertices vd) (vertex1 e)) as [i1 |];
    try contradiction;
    destruct (vertex0 e), (vertex1 e);
    repeat match goal with
    | |- context [match ?x with _ => _ end] => destruct x
    end; split; reflexivity.
Qed.


End VoroInfinite.



Lemma Rceil_IZR : forall z, Rceil (IZR z) = IZR z.
Proof.
  intros z. unfold Rceil. f_equal.
  replace (Int_part (- IZR z)) with (- z)%Z; [lia |].
  apply Int_part_spec. rewrite opp_IZR. lra.
Qed.

Lemma voro_scale_default : voro_scale (1 / 100) = 10000.
Proof.
  unfold voro_scale, voro_eps.
  replace (1 / (1 / 100 * (1 / 100))) with (IZR 10000) by (simpl; field).
  apply Rceil_IZR.
Qed.




(* ------------------------------------------------------------------ *)
(** ** Contour simplification: staircases *)
(* ------------------------------------------------------------------ *)

Lemma norm_gt :
  forall v m, 0 <= m -> m * m < vx v * vx v + vy v * vy v -> m < norm v.
Proof.
  intros v m Hm H. unfold norm.
  rewrite <- (sqrt_square m) by exact Hm.
  apply sqrt_lt_1_alt. split; [nra | exact H].
Qed.

Lemma norm_le :
  forall v m, 0 <= m -> vx v * vx v + vy v * vy v <= m * m -> norm v <= m.
Proof.
  intros v m Hm H. unfold norm.
  rewrite <- (sqrt_square m) by exact Hm.
  apply sqrt_le_1_alt. exact H.
Qed.

Lemma circ_get_nat :
  forall (l : list vec) k,
    l <> [] ->
    circ_get vzero l (Z.of_nat k) = nth (k mod List.length l)%nat l vzero.
Proof.
  intros l k Hl. unfold circ_get, circ_pos.
  assert (Hn : List.length l <> 0%nat) by (destruct l; [contradiction | discriminate]).
  rewrite <- Nat2Z.inj_mod, Nat2Z.id. reflexivity.
Qed.

(** A segment that runs vertically downwards is not recognised by the
    test for horizontal or vertical lines: its angle is 3/2 pi, and the
    fourth angle of the test is pi/(3/2). *)
Lemma vertical_down_not_recognised :
  forall eps v2 v3,
    0 <= eps < PI / 6 ->
    vx v3 - vx v2 = 0 -> vy v3 - vy v2 < 0 ->
    horizontal_or_vertical eps v2 v3 = false.
Proof.
  intros eps v2 v3 Heps Hx Hy. unfold horizontal_or_vertical, equals_0.
  rewrite (line_angle_south v2 v3 Hx Hy).
  rewrite (mod_pos_below (- (PI / 2)) (2 * PI)) by pi_lra.
  replace (PI / (3 / 2)) with (2 * PI / 3) by (field; lra).
  rewrite !equals_false by (left; pi_lra). reflexivity.
Qed.

(** The other three directions pass the test. *)
Lemma vertical_up_recognised :
  forall eps v2 v3,
    0 <= eps ->
    vx v3 - vx v2 = 0 -> 0 < vy v3 - vy v2 ->
    horizontal_or_vertical eps v2 v3 = true.
Proof.
  intros eps v2 v3 Heps Hx Hy. unfold horizontal_or_vertical, equals_0.
  rewrite (line_angle_north v2 v3 Hx Hy).
  rewrite (mod_pos_first (PI / 2) (2 * PI)) by pi_lra.
  rewrite (equals_true (PI / 2) (PI / 2)) by lra.
  rewrite !orb_true_r. reflexivity.
Qed.

Lemma remove_staircases_unchanged :
  forall fuel min_dist eps contour curidx,
    (forall k, (curidx <= k < curidx + fuel)%nat ->
               (k < List.length contour + 1)%nat ->
               staircase_test_at min_dist eps contour k = false) ->
    remove_staircases fuel min_dist eps contour curidx = contour.
Proof.
  induction fuel as [| f IH]; intros min_dist eps contour curidx H.
  - reflexivity.
  - cbn [remove_staircases].
    destruct (curidx <? List.length contour + 1)%nat eqn:Hc; [| reflexivity].
    apply Nat.ltb_lt in Hc.
    pose proof (H curidx ltac:(lia) Hc) as Ht.
    unfold staircase_test_at, contour_window in Ht. rewrite Ht.
    apply IH. intros k Hk Hlen. apply H; [lia | exact Hlen].
Qed.

Lemma contour_eps_small : 0 <= contour_eps < PI / 6.
Proof. unfold contour_eps. pose proof PI_bounds. lra. Qed.

Ltac eval_norm_test :=
  match goal with
  | |- context [Rltb ?m (norm ?v)] =>
      first [ rewrite (Rltb_true m (norm v))
                by (apply norm_gt; simpl; lra)
            | rewrite (Rltb_false m (norm v))
                by (apply norm_le; simpl; lra) ]
  end.

Lemma notch_contour_tests :
  forall k, (k < 7)%nat ->
    staircase_test_at contour_min_dist contour_eps notch_contour k = false.
Proof.
  intros k Hk. unfold staircase_test_at, contour_window.
  rewrite !circ_get_nat by discriminate.
  destruct k as [| [| [| [| [| [| [| k]]]]]]]; [.. | lia];
    cbn [notch_contour List.length nth Nat.modulo Nat.divmod Nat.add
         fst snd Nat.sub];
    unfold staircase_test, contour_min_dist, vsub; cbn [vx vy];
    eval_norm_test;
    try reflexivity;
    try (rewrite vertical_down_not_recognised
           by (first [exact contour_eps_small | simpl; lra]);
         reflexivity).
  unfold horizontal_or_vertical, equals_0, contour_eps.
  eval_line_angles. eval_mod_pos. eval_compare. reflexivity.
Qed.

(** C9, the code at a failing input.  The first four vertices of the
    notched contour are closer than [min_dist], the segment between the
    second and the third runs vertically (downwards), and the segments
    before and after it have the same angle; yet the test fails and the
    staircase loop leaves the contour as it is.  The same staircase
    running upwards passes the test. *)
Theorem staircase_down_not_collapsed :
  norm (vsub (mkvec (3 / 1000) 0) (mkvec 0 (4 / 1000))) < contour_min_dist
  /\ vx (mkvec (1 / 1000) (4 / 1000)) = vx (mkvec (1 / 1000) 0)
  /\ line_angle (mkvec 0 (4 / 1000)) (mkvec (1 / 1000) (4 / 1000))
     = line_angle (mkvec (1 / 1000) 0) (mkvec (3 / 1000) 0)
  /\ staircase_test contour_min_dist contour_eps
       (mkvec 0 (4 / 1000)) (mkvec (1 / 1000) (4 / 1000))
       (mkvec (1 / 1000) 0) (mkvec (3 / 1000) 0) = false
  /\ remove_staircases (List.length notch_contour + 1) contour_min_dist
       contour_eps notch_contour 0 = notch_contour
  /\ staircase_test contour_min_dist contour_eps
       (mkvec 0 0) (mkvec (1 / 1000) 0)
       (mkvec (1 / 1000) (4 / 1000)) (mkvec (3 / 1000) (4 / 1000)) = true.
Proof.
  split.
  { rewrite (norm_eq _ (5 / 1000)) by (simpl; lra).
    unfold contour_min_dist. lra. }
  split; [reflexivity |].
  split.
  { rewrite !line_angle_east by (simpl; lra). reflexivity. }
  split.
  { exact (notch_contour_tests 0 ltac:(lia)). }
  split.
  { apply remove_staircases_unchanged.
    intros k Hk _. apply notch_contour_tests. simpl in Hk. lia. }
  unfold staircase_test, contour_min_dist, vsub. cbn [vx vy].
  eval_norm_test.
  rewrite vertical_up_recognised
    by (first [apply contour_eps_small | simpl; lra]).
  rewrite !line_angle_east by (simpl; lra).
  rewrite (mod_pos_first 0 (2 * PI)) by pi_lra.
  unfold contour_eps. eval_compare. reflexivity.
Qed.

(* ------------------------------------------------------------------ *)
(** ** Convex hulls of at most three points *)
(* ------------------------------------------------------------------ *)

Lemma insert_sorted_perm :
  forall (A : Type) (lt : A -> A -> bool) x l,
    Permutation (insert_sorted lt x l) (x :: l).
Proof.
  intros A lt x l. induction l as [| y r IH]; simpl.
  - apply Permutation_refl.
  - destruct (lt x y).
    + apply Permutation_refl.
    + eapply Permutation_trans; [apply perm_skip, IH | apply perm_swap].
Qed.

Lemma stable_sort_fold_perm :
  forall (A : Type) (lt : A -> A -> bool) l acc,
    Permutation (fold_left (fun acc x => insert_sorted lt x acc) l acc)
                (acc ++ l).
Proof.
  intros A lt l. induction l as [| x r IH]; intros acc; simpl.
  - rewrite app_nil_r. apply Permutation_refl.
  - eapply Permutation_trans; [apply IH |].
    eapply Permutation_trans;
      [apply Permutation_app_tail, insert_sorted_perm |].
    simpl. apply Permutation_middle.
Qed.

Lemma stable_sort_perm :
  forall (A : Type) (lt : A -> A -> bool) l,
    Permutation (stable_sort lt l) l.
Proof. intros A lt l. unfold stable_sort. apply (stable_sort_fold_perm A lt l []). Qed.

Lemma separated_perm :
  forall eps l l', Permutation l l' -> separated eps l -> separated eps l'.
Proof.
  intros eps l l' Hp [Hnd Hsep]. split.
  - eapply Permutation_NoDup; eassumption.
  - intros a b Ha Hb Hab. apply Hsep; try exact Hab;
      eapply Permutation_in; try eassumption; apply Permutation_sym; exact Hp.
Qed.

Lemma remove_duplicates_fold :
  forall eps l kept,
    separated eps (kept ++ l) ->
    fold_left (fun kept v =>
                 if existsb (fun w => vequals w v eps) kept then kept
                 else kept ++ [v]) l kept
    = kept ++ l.
Proof.
  intros eps l. induction l as [| v r IH]; intros kept Hs; simpl.
  - rewrite app_nil_r. reflexivity.
  - assert (Hex : existsb (fun w => vequals w v eps) kept = false).
    { destruct (existsb (fun w => vequals w v eps) kept) eqn:He;
        [| reflexivity].
      apply existsb_exists in He. destruct He as (w & Hw & Heq).
      destruct Hs as [Hnd Hsep].
      rewrite Hsep in Heq; [discriminate | | |].
      - apply in_or_app. left. exact Hw.
      - apply in_or_app. right. left. reflexivity.
      - intros ->. apply NoDup_remove_2 in Hnd. apply Hnd.
        apply in_or_app. left. exact Hw. }
    rewrite Hex, IH; rewrite <- app_assoc; [reflexivity | exact Hs].
Qed.

Lemma remove_duplicates_separated :
  forall eps l, separated eps l -> _remove_duplicates l eps = l.
Proof.
  intros eps l Hs. unfold _remove_duplicates.
  apply (remove_duplicates_fold eps l [] Hs).
Qed.

Lemma sort_vertices_separated :
  forall eps l,
    separated eps l ->
    Permutation (_sort_vertices l eps) l /\ separated eps (_sort_vertices l eps).
Proof.
  intros eps l Hs. unfold _sort_vertices.
  set (sorted := stable_sort _ l).
  assert (Hp : Permutation sorted l) by apply stable_sort_perm.
  assert (Hs' : separated eps sorted).
  { apply (separated_perm eps l sorted); [apply Permutation_sym, Hp | exact Hs]. }
  rewrite (remove_duplicates_separated eps sorted Hs').
  split; assumption.
Qed.

Lemma sort_vertices_by_angle_perm :
  forall l, Permutation (fst (sort_vertices_by_angle l)) l.
Proof.
  intros [| v r]; simpl.
  - apply Permutation_refl.
  - apply stable_sort_perm.
Qed.

(** What the two functions do with at most three separated points. *)
Lemma hull_of_three :
  forall verts eps,
    (List.length verts <= 3)%nat ->
    separated eps verts ->
    calc_hull_iterative verts eps = verts
    /\ calc_hull_recursive verts eps
       = Some (fst (sort_vertices_by_angle (_sort_vertices verts eps)))
    /\ Permutation (fst (sort_vertices_by_angle (_sort_vertices verts eps)))
                   verts.
Proof.
  intros verts eps Hlen Hs.
  destruct (sort_vertices_separated eps verts Hs) as [Hp Hs'].
  split; [| split].
  - unfold calc_hull_iterative.
    rewrite (remove_duplicates_separated eps verts Hs).
    apply Nat.leb_le in Hlen. rewrite Hlen. reflexivity.
  - unfold calc_hull_recursive. cbn [_calc_hull_recursive_sorted].
    rewrite (Permutation_length Hp).
    apply Nat.leb_le in Hlen. rewrite Hlen. reflexivity.
  - eapply Permutation_trans; [apply sort_vertices_by_angle_perm | exact Hp].
Qed.

(** For at most three points that are pairwise more than eps apart,
    [calc_hull_iterative] returns the points in the order of the input,
    and [calc_hull_recursive] returns the same points sorted by their
    polar angle around the centroid: the two results hold the same
    vertices, in an order that need not agree up to rotation. *)
Theorem hull_of_three_points :
  forall verts eps,
    (List.length verts <= 3)%nat ->
    separated eps verts ->
    calc_hull_iterative verts eps = verts
    /\ exists hull,
         calc_hull_recursive verts eps = Some hull
         /\ hull = fst (sort_vertices_by_angle (_sort_vertices verts eps))
         /\ Permutation hull (calc_hull_iterative verts eps).
Proof.
  intros verts eps Hlen Hs.
  destruct (hull_of_three verts eps Hlen Hs) as (Hi & Hr & Hp).
  split; [exact Hi |].
  exists (fst (sort_vertices_by_angle (_sort_vertices verts eps))).
  split; [exact Hr |]. split; [reflexivity |].
  rewrite Hi. exact Hp.
Qed.

Lemma clockwise_triangle_separated : separated hull_eps clockwise_triangle.
Proof.
  unfold separated, clockwise_triangle, hull_eps. split.
  - repeat constructor; simpl; intuition (try congruence);
      match goal with H : _ = _ |- _ => inversion H; lra end.
  - intros a b Ha Hb Hab. simpl in Ha, Hb.
    unfold vequals.
    destruct Ha as [<- | [<- | [<- | []]]];
      destruct Hb as [<- | [<- | [<- | []]]];
      try contradiction; cbn [vx vy];
      first [ rewrite (equals_false 2 (-1)) by (left; lra); reflexivity
            | rewrite (equals_false (-1) 2) by (right; lra); reflexivity
            | rewrite (equals_false (-1) 1) by (right; lra);
              apply andb_false_r
            | rewrite (equals_false 1 (-1)) by (left; lra);
              apply andb_false_r ].
Qed.

Lemma clockwise_triangle_sorted_by_x :
  _sort_vertices clockwise_triangle hull_eps
  = [mkvec (-1) (-1); mkvec (-1) 1; mkvec 2 0].
Proof.
  unfold _sort_vertices.
  assert (Hsort :
    stable_sort (fun v1 v2 =>
                   if equals (vx v1) (vx v2) hull_eps
                   then Rltb (vy v1) (vy v2) else Rltb (vx v1) (vx v2))
                clockwise_triangle
    = [mkvec (-1) (-1); mkvec (-1) 1; mkvec 2 0]).
  { unfold stable_sort, clockwise_triangle, hull_eps.
    cbn [fold_left insert_sorted vx vy].
    eval_compare. cbn [insert_sorted vx vy]. eval_compare.
    reflexivity. }
  rewrite Hsort.
  apply remove_duplicates_separated.
  apply (separated_perm hull_eps clockwise_triangle).
  - rewrite <- Hsort. apply Permutation_sym, stable_sort_perm.
  - exact clockwise_triangle_separated.
Qed.

Lemma triangle_sorted_by_angle :
  fst (sort_vertices_by_angle [mkvec (-1) (-1); mkvec (-1) 1; mkvec 2 0])
  = [mkvec (-1) (-1); mkvec 2 0; mkvec (-1) 1].
Proof.
  unfold sort_vertices_by_angle.
  assert (Hm : vmean [mkvec (-1) (-1); mkvec (-1) 1; mkvec 2 0] = vzero).
  { unfold vmean, vzero, vdiv, vadd. simpl. f_equal; field. }
  rewrite Hm. cbn [fst]. unfold stable_sort.
  cbn [fold_left insert_sorted].
  rewrite (line_angle_south_west vzero (mkvec (-1) (-1))) by (simpl; lra).
  rewrite (line_angle_north_west vzero (mkvec (-1) 1)) by (simpl; lra).
  eval_compare. cbn [insert_sorted].
  rewrite (line_angle_east vzero (mkvec 2 0)) by (simpl; lra).
  rewrite (line_angle_south_west vzero (mkvec (-1) (-1))) by (simpl; lra).
  rewrite (line_angle_north_west vzero (mkvec (-1) 1)) by (simpl; lra).
  eval_compare. reflexivity.
Qed.

Lemma clockwise_triangle_recursive :
  calc_hull_recursive clockwise_triangle hull_eps
  = Some [mkvec (-1) (-1); mkvec 2 0; mkvec (-1) 1].
Proof.
  destruct (hull_of_three clockwise_triangle hull_eps)
    as (_ & Hr & _);
    [simpl; lia | exact clockwise_triangle_separated |].
  rewrite Hr, clockwise_triangle_sorted_by_x. f_equal.
  exact triangle_sorted_by_angle.
Qed.

Lemma anticlockwise_triangle_separated :
  separated hull_eps anticlockwise_triangle.
Proof.
  apply (separated_perm hull_eps clockwise_triangle).
  - apply (Permutation_rev clockwise_triangle).
  - exact clockwise_triangle_separated.
Qed.

Lemma anticlockwise_triangle_sorted_by_x :
  _sort_vertices anticlockwise_triangle hull_eps
  = [mkvec (-1) (-1); mkvec (-1) 1; mkvec 2 0].
Proof.
  unfold _sort_vertices.
  assert (Hsort :
    stable_sort (fun v1 v2 =>
                   if equals (vx v1) (vx v2) hull_eps
                   then Rltb (vy v1) (vy v2) else Rltb (vx v1) (vx v2))
                anticlockwise_triangle
    = [mkvec (-1) (-1); mkvec (-1) 1; mkvec 2 0]).
  { unfold stable_sort, anticlockwise_triangle, hull_eps.
    cbn [fold_left insert_sorted vx vy].
    eval_compare. cbn [insert_sorted vx vy]. eval_compare.
    reflexivity. }
  rewrite Hsort.
  apply remove_duplicates_separated.
  apply (separated_perm hull_eps anticlockwise_triangle).
  - rewrite <- Hsort. apply Permutation_sym, stable_sort_perm.
  - exact anticlockwise_triangle_separated.
Qed.

Lemma anticlockwise_triangle_recursive :
  calc_hull_recursive anticlockwise_triangle hull_eps
  = Some [mkvec (-1) (-1); mkvec 2 0; mkvec (-1) 1].
Proof.
  destruct (hull_of_three anticlockwise_triangle hull_eps)
    as (_ & Hr & _);
    [simpl; lia | exact anticlockwise_triangle_separated |].
  rewrite Hr, anticlockwise_triangle_sorted_by_x. f_equal.
  exact triangle_sorted_by_angle.
Qed.

(** Lists of points that are pairwise more than eps apart, built point
    by point. *)
Lemma separated_nil : forall eps, separated eps [].
Proof.
  intros eps. split; [constructor |]. intros a b [].
Qed.

Lemma separated_cons :
  forall eps v l,
    0 <= eps ->
    separated eps l ->
    (forall w, In w l ->
       vequals v w eps = false /\ vequals w v eps = false) ->
    separated eps (v :: l).
Proof.
  intros eps v l He [Hnd Hs] Hv. split.
  - constructor; [| exact Hnd].
    intros Hin. destruct (Hv v Hin) as [H _].
    rewrite (vequals_refl v eps He) in H. discriminate.
  - intros a b [<- | Ha] [<- | Hb] Hab.
    + contradiction.
    + exact (proj1 (Hv b Hb)).
    + exact (proj2 (Hv a Ha)).
    + exact (Hs a b Ha Hb Hab).
Qed.

Ltac prove_vequals_false :=
  apply vequals_false; simpl;
  first [ left; lra | right; left; lra
        | right; right; left; lra | right; right; right; lra ].

Ltac prove_separated :=
  repeat (apply separated_cons;
          [ simpl; lra | |
            let w := fresh "w" in
            let Hw := fresh "Hw" in
            intros w Hw; simpl in Hw;
            repeat (destruct Hw as [<- | Hw];
                    [split; prove_vequals_false |]);
            contradiction ]);
  apply separated_nil.

Lemma clockwise_triangle_sorted_by_angle :
  sort_vertices_by_angle clockwise_triangle
  = ([mkvec (-1) (-1); mkvec 2 0; mkvec (-1) 1], vzero).
Proof.
  unfold sort_vertices_by_angle, clockwise_triangle.
  assert (Hm : vmean [mkvec 2 0; mkvec (-1) (-1); mkvec (-1) 1] = vzero).
  { unfold vmean, vzero, vdiv, vadd. simpl. f_equal; field. }
  rewrite Hm. f_equal. unfold stable_sort.
  cbn [fold_left insert_sorted].
  eval_line_angles. eval_compare. cbn [insert_sorted].
  eval_line_angles. eval_compare. reflexivity.
Qed.

(** With a fourth point, here one inside the triangle, the iterative
    hull starts from the first three points sorted by angle: the result
    is the triangle in anticlockwise order. *)
Lemma iterative_hull_with_inner_point :
  calc_hull_iterative (clockwise_triangle ++ [mkvec (1 / 2) 0]) hull_eps
  = [mkvec (-1) (-1); mkvec 2 0; mkvec (-1) 1].
Proof.
  unfold calc_hull_iterative.
  assert (Hd : _remove_duplicates (clockwise_triangle ++ [mkvec (1 / 2) 0])
                                  hull_eps
               = clockwise_triangle ++ [mkvec (1 / 2) 0]).
  { apply remove_duplicates_separated.
    unfold clockwise_triangle, hull_eps. cbn [app]. prove_separated. }
  rewrite Hd.
  change (List.length (clockwise_triangle ++ [mkvec (1 / 2) 0]) <=? 3)%nat
    with false. cbv iota.
  change (firstn 3 (clockwise_triangle ++ [mkvec (1 / 2) 0]))
    with clockwise_triangle.
  rewrite clockwise_triangle_sorted_by_angle.
  change (skipn 3 (clockwise_triangle ++ [mkvec (1 / 2) 0]))
    with [mkvec (1 / 2) 0].
  cbn [fold_left]. unfold hull_insert, is_vert_in_hull.
  cbn [is_vert_in_hull_from List.length Nat.leb nth].
  unfold side_of_line, vzero. cbn [vx vy].
  eval_compare. cbn [andb]. reflexivity.
Qed.

Lemma hull_of_three_points_witness :
  (List.length clockwise_triangle <= 3)%nat
  /\ separated hull_eps clockwise_triangle
  /\ calc_hull_iterative clockwise_triangle hull_eps = clockwise_triangle.
Proof.
  split; [simpl; lia |].
  split; [exact clockwise_triangle_separated |].
  apply (hull_of_three_points clockwise_triangle hull_eps).
  - simpl. lia.
  - exact clockwise_triangle_separated.
Defined.

(** C1, the code at a failing input.  On three points given in clockwise
    order the iterative hull keeps the order of the input, the recursive
    hull sorts by angle, and the two sequences are not rotations of each
    other.  The recursive hull is the same for the three points given in
    anticlockwise order, where the iterative hull again keeps the order
    of the input: whichever way the sort by angle runs, the two functions
    differ on one of the two inputs.  With one more point, inside the
    triangle, the iterative hull is the sorted triangle that the
    recursive hull returns: only the early return for at most three
    points leaves the order of the input. *)
Lemma hulls_differ_on_clockwise_triangle :
  calc_hull_iterative clockwise_triangle hull_eps = clockwise_triangle
  /\ calc_hull_recursive clockwise_triangle hull_eps
     = Some [mkvec (-1) (-1); mkvec 2 0; mkvec (-1) 1]
  /\ ~ is_rotation clockwise_triangle
         [mkvec (-1) (-1); mkvec 2 0; mkvec (-1) 1]
  /\ calc_hull_iterative anticlockwise_triangle hull_eps
     = anticlockwise_triangle
  /\ calc_hull_recursive anticlockwise_triangle hull_eps
     = calc_hull_recursive clockwise_triangle hull_eps
  /\ ~ is_rotation clockwise_triangle anticlockwise_triangle
  /\ calc_hull_iterative (clockwise_triangle ++ [mkvec (1 / 2) 0]) hull_eps
     = [mkvec (-1) (-1); mkvec 2 0; mkvec (-1) 1].
Proof.
  split.
  { destruct (hull_of_three clockwise_triangle hull_eps) as (Hi & _);
      [simpl; lia | exact clockwise_triangle_separated | exact Hi]. }
  split; [exact clockwise_triangle_recursive |].
  split.
  { intros (k & Hk & H). unfold clockwise_triangle in *.
    destruct k as [| [| [| [| k]]]]; simpl in Hk, H; try lia;
      inversion H; lra. }
  split.
  { destruct (hull_of_three anticlockwise_triangle hull_eps) as (Hi & _);
      [simpl; lia | exact anticlockwise_triangle_separated | exact Hi]. }
  split.
  { rewrite anticlockwise_triangle_recursive, clockwise_triangle_recursive.
    reflexivity. }
  split; [| exact iterative_hull_with_inner_point].
  intros (k & Hk & H). unfold clockwise_triangle, anticlockwise_triangle in *.
  destruct k as [| [| [| [| k]]]]; simpl in Hk, H; try lia;
    inversion H; lra.
Qed.

(* ------------------------------------------------------------------ *)
(** ** Voronoi diagram: removing the vertices without connection *)
(* ------------------------------------------------------------------ *)

(** *** Erasing positions in descending order *)

Lemma erase_at_length :
  forall (A : Type) (l : list A) k,
    (k < List.length l)%nat ->
    List.length (erase_at k l) = (List.length l - 1)%nat.
Proof.
  intros A l. induction l as [| x r IH]; intros k Hk; simpl in *.
  - lia.
  - destruct k as [| k]; simpl; [lia |].
    rewrite IH by lia. lia.
Qed.

Lemma erase_at_app :
  forall (A : Type) (l r : list A) k,
    (k < List.length l)%nat -> erase_at k (l ++ r) = erase_at k l ++ r.
Proof.
  intros A l. induction l as [| x t IH]; intros r k Hk; simpl in *.
  - lia.
  - destruct k as [| k]; [reflexivity |].
    simpl. rewrite IH by lia. reflexivity.
Qed.

Lemma erase_at_last :
  forall (A : Type) (l : list A) x, erase_at (List.length l) (l ++ [x]) = l.
Proof.
  intros A l x. induction l as [| y t IH]; simpl.
  - reflexivity.
  - rewrite IH. reflexivity.
Qed.

Lemma erase_at_nth :
  forall (A : Type) (l : list A) k a d,
    nth a (erase_at k l) d = nth (skip_idx k a) l d.
Proof.
  intros A l. induction l as [| x t IH]; intros k a d.
  - assert (Hnil : forall i, nth i (@nil A) d = d) by (intros [| i]; reflexivity).
    cbn [erase_at]. rewrite !Hnil. reflexivity.
  - destruct k as [| k].
    + reflexivity.
    + destruct a as [| a]; [reflexivity |].
      simpl. rewrite IH. unfold skip_idx.
      change (S a <? S k)%nat with (a <? k)%nat.
      destruct (a <? k)%nat; reflexivity.
Qed.

Lemma erase_at_map :
  forall (A B : Type) (f : A -> B) l k,
    erase_at k (map f l) = map f (erase_at k l).
Proof.
  intros A B f l. induction l as [| x t IH]; intros k; simpl.
  - reflexivity.
  - destruct k; simpl; [reflexivity | rewrite IH; reflexivity].
Qed.

Lemma desc_below_weaken :
  forall b b' D, (b <= b')%nat -> desc_below b D -> desc_below b' D.
Proof.
  intros b b' D Hb H. destruct H as [| b d D Hd HD].
  - constructor.
  - constructor; [lia | exact HD].
Qed.

Lemma desc_below_rev_filter :
  forall (P : nat -> bool) n, desc_below n (rev (filter P (seq 0 n))).
Proof.
  intros P n. induction n as [| n IH].
  - constructor.
  - rewrite seq_S, filter_app, rev_app_distr. simpl.
    destruct (P n); simpl.
    + constructor; [lia | exact IH].
    + apply (desc_below_weaken n); [lia | exact IH].
Qed.

Lemma erase_all_app :
  forall (A : Type) D (l r : list A),
    desc_below (List.length l) D ->
    @erase_all A D (l ++ r) = @erase_all A D l ++ r.
Proof.
  intros A D. induction D as [| d D IH]; intros l r H.
  - reflexivity.
  - inversion H as [| b d' D' Hd HD]; subst.
    unfold erase_all in *. simpl.
    rewrite erase_at_app by exact Hd.
    apply IH. apply (desc_below_weaken d); [| exact HD].
    rewrite erase_at_length by exact Hd. lia.
Qed.

Lemma erase_all_length :
  forall (A : Type) D (l : list A),
    desc_below (List.length l) D ->
    List.length (erase_all D l) = (List.length l - List.length D)%nat.
Proof.
  intros A D. induction D as [| d D IH]; intros l H.
  - simpl. lia.
  - inversion H as [| b d' D' Hd HD]; subst.
    unfold erase_all in *. simpl.
    rewrite IH.
    + rewrite erase_at_length by exact Hd. lia.
    + apply (desc_below_weaken d); [| exact HD].
      rewrite erase_at_length by exact Hd. lia.
Qed.

Lemma combine_app_same :
  forall (A B : Type) (l1 l2 : list A) (r1 r2 : list B),
    List.length l1 = List.length r1 ->
    combine (l1 ++ l2) (r1 ++ r2) = combine l1 r1 ++ combine l2 r2.
Proof.
  intros A B l1. induction l1 as [| x t IH]; intros l2 r1 r2 H;
    destruct r1 as [| y u]; simpl in *; try discriminate.
  - reflexivity.
  - rewrite IH by lia. reflexivity.
Qed.

(** Erasing the positions that satisfy [P], the largest first, leaves
    the elements at the other positions. *)
Lemma erase_all_filter :
  forall (A : Type) (P : nat -> bool) (l : list A),
    @erase_all A (rev (filter P (seq 0 (List.length l)))) l
    = map snd (filter (fun p => negb (P (fst p)))
                      (combine (seq 0 (List.length l)) l)).
Proof.
  intros A P l. induction l as [| x l IH] using rev_ind.
  - reflexivity.
  - rewrite length_app. simpl List.length.
    replace (List.length l + 1)%nat with (S (List.length l)) by lia.
    rewrite seq_S, filter_app, rev_app_distr. simpl.
    rewrite combine_app_same by (rewrite length_seq; reflexivity).
    rewrite filter_app, map_app. simpl.
    destruct (P (List.length l)); simpl.
    + unfold erase_all in *. simpl. rewrite erase_at_last, IH, app_nil_r.
      reflexivity.
    + rewrite erase_all_app by apply desc_below_rev_filter.
      rewrite IH. reflexivity.
Qed.

Lemma combine_seq_filter :
  forall (A : Type) (Q : nat -> bool) (d : A) (l : list A) s,
    map snd (filter (fun p => Q (fst p)) (combine (seq s (List.length l)) l))
    = map (fun k => nth (k - s) l d) (filter Q (seq s (List.length l))).
Proof.
  intros A Q d l. induction l as [| x r IH]; intros s.
  - reflexivity.
  - cbn [List.length seq combine filter fst].
    assert (Hext :
      map (fun k => nth (k - S s) r d) (filter Q (seq (S s) (List.length r)))
      = map (fun k => nth (k - s) (x :: r) d)
            (filter Q (seq (S s) (List.length r)))).
    { apply map_ext_in. intros k Hk. apply filter_In in Hk.
      destruct Hk as [Hk _]. apply in_seq in Hk.
      replace (k - s)%nat with (S (k - S s)) by lia. reflexivity. }
    destruct (Q s); cbn [map snd]; rewrite (IH (S s)).
    + rewrite Nat.sub_diag. cbn [nth]. f_equal. exact Hext.
    + exact Hext.
Qed.

(** *** The bisectors keep valid indices *)

Lemma shift_index_bound :
  forall idx i n, (idx < n)%nat -> (i < n)%nat -> i <> idx ->
    (shift_index idx i < n - 1)%nat.
Proof.
  intros idx i n Hidx Hi Hne. unfold shift_index.
  destruct (idx <=? i)%nat eqn:H;
    [apply Nat.leb_le in H | apply Nat.leb_gt in H]; lia.
Qed.

Lemma compact_linear_valid :
  forall idx n lin,
    (idx < n)%nat -> linear_valid n lin ->
    linear_valid (n - 1) (compact_linear idx lin).
Proof.
  intros idx n lin Hidx. induction lin as [| [[line a] b] r IH]; intros Hv.
  - intros l x y [].
  - assert (Hr : linear_valid n r).
    { intros l x y Hin. apply (Hv l x y). right. exact Hin. }
    destruct (Hv line a b (or_introl eq_refl)) as [Ha Hb].
    cbn [compact_linear].
    destruct (opt_is idx a || opt_is idx b) eqn:Hhit; [apply IH, Hr |].
    apply orb_false_iff in Hhit. destruct Hhit as [Hxa Hxb].
    intros l x y [Heq | Hin]; [| apply (IH Hr l x y Hin)].
    inversion Heq; subst. split; intros i Hi.
    + destruct a as [ia |]; [| discriminate]. simpl in Hi, Hxa.
      inversion Hi; subst. apply Nat.eqb_neq in Hxa.
      apply shift_index_bound; [exact Hidx | apply Ha; reflexivity | exact Hxa].
    + destruct b as [ib |]; [| discriminate]. simpl in Hi, Hxb.
      inversion Hi; subst. apply Nat.eqb_neq in Hxb.
      apply shift_index_bound; [exact Hidx | apply Hb; reflexivity | exact Hxb].
Qed.

Lemma compact_parabolic_valid :
  forall idx n par,
    (idx < n)%nat -> parabolic_valid n par ->
    parabolic_valid (n - 1) (compact_parabolic idx par).
Proof.
  intros idx n par Hidx. induction par as [| [[pts a] b] r IH]; intros Hv.
  - intros l x y [].
  - assert (Hr : parabolic_valid n r).
    { intros l x y Hin. apply (Hv l x y). right. exact Hin. }
    destruct (Hv pts a b (or_introl eq_refl)) as [Ha Hb].
    cbn [compact_parabolic].
    destruct ((a =? idx)%nat || (b =? idx)%nat) eqn:Hhit; [apply IH, Hr |].
    apply orb_false_iff in Hhit. destruct Hhit as [Hxa Hxb].
    apply Nat.eqb_neq in Hxa. apply Nat.eqb_neq in Hxb.
    intros l x y [Heq | Hin]; [| apply (IH Hr l x y Hin)].
    inversion Heq; subst.
    split; apply shift_index_bound; assumption.
Qed.

(** The loop over the removed indices never throws, and what it returns
    is the vector with the positions erased and bisectors with valid
    indices. *)
Lemma remove_vertex_coords_spec :
  forall D vertices lin par,
    desc_below (List.length vertices) D ->
    linear_valid (List.length vertices) lin ->
    parabolic_valid (List.length vertices) par ->
    exists lin' par',
      remove_vertex_coords D vertices lin par
        = Some (@erase_all vec D vertices, lin', par')
      /\ linear_valid (List.length (@erase_all vec D vertices)) lin'
      /\ parabolic_valid (List.length (@erase_all vec D vertices)) par'.
Proof.
  induction D as [| d D IH]; intros vertices lin par HD Hl Hp.
  - exists lin, par. split; [reflexivity | split; assumption].
  - inversion HD as [| b d' D' Hd HD']; subst.
    cbn [remove_vertex_coords].
    apply Nat.ltb_lt in Hd. rewrite Hd. apply Nat.ltb_lt in Hd.
    assert (Hlen : List.length (erase_at d vertices)
                   = (List.length vertices - 1)%nat)
      by (apply erase_at_length; exact Hd).
    destruct (IH (erase_at d vertices) (compact_linear d lin)
                 (compact_parabolic d par)) as (lin' & par' & Hrun & Hl' & Hp').
    + apply (desc_below_weaken d); [lia | exact HD'].
    + rewrite Hlen. apply compact_linear_valid; assumption.
    + rewrite Hlen. apply compact_parabolic_valid; assumption.
    + exists lin', par'. split; [exact Hrun | split; assumption].
Qed.

(** *** What the loop over the edges leaves behind *)

Lemma find_vertex_ptr_bound :
  forall p m s k i,
    find_vertex_ptr p (seq s m) k = Some i -> (k <= i < k + m)%nat.
Proof.
  intros p m. induction m as [| m IH]; intros s k i H; simpl in H.
  - discriminate.
  - destruct (s =? p)%nat.
    + inversion H; subst. lia.
    + apply IH in H. lia.
Qed.

Lemma get_vertex_idx_bound :
  forall vd v i,
    get_vertex_idx (vorovertices vd) v = Some i ->
    (i < List.length (vd_vertices vd))%nat.
Proof.
  intros vd [p |] i H; simpl in H; [| discriminate].
  apply find_vertex_ptr_bound in H. lia.
Qed.

Lemma linear_valid_snoc :
  forall n lin line a b,
    linear_valid n lin ->
    (forall i, a = Some i -> (i < n)%nat) ->
    (forall i, b = Some i -> (i < n)%nat) ->
    linear_valid n (lin ++ [(line, a, b)]).
Proof.
  intros n lin line a b Hv Ha Hb l x y Hin.
  apply in_app_or in Hin. destruct Hin as [Hin | [Heq | []]].
  - apply (Hv l x y Hin).
  - inversion Heq; subst. split; assumption.
Qed.

Lemma parabolic_valid_snoc :
  forall n par pts a b,
    parabolic_valid n par -> (a < n)%nat -> (b < n)%nat ->
    parabolic_valid n (par ++ [(pts, a, b)]).
Proof.
  intros n par pts a b Hv Ha Hb l x y Hin.
  apply in_app_or in Hin. destruct Hin as [Hin | [Heq | []]].
  - apply (Hv l x y Hin).
  - inversion Heq; subst. split; assumption.
Qed.

Lemma am_add_edge_idents :
  forall (g : AdjacencyMatrix R) i j w,
    am_idents (am_add_edge g i j w) = am_idents g.
Proof.
  intros g i j w. unfold am_add_edge.
  destruct ((i <? am_num g)%nat && (j <? am_num g)%nat); reflexivity.
Qed.

Lemma am_add_edge_pair_symmetric :
  forall (g : AdjacencyMatrix R) i j w,
    am_symmetric g ->
    am_symmetric (am_add_edge (am_add_edge g i j w) j i w).
Proof.
  intros g i j w Hs. unfold am_add_edge, am_num.
  destruct ((i <? List.length (am_idents g))%nat
            && (j <? List.length (am_idents g))%nat) eqn:HG;
    cbn [am_idents]; rewrite (andb_comm (j <? _)%nat), HG; [| exact Hs].
  intros a b. cbn [am_weight].
  destruct (a =? i)%nat eqn:Eai; destruct (a =? j)%nat eqn:Eaj;
    destruct (b =? i)%nat eqn:Ebi; destruct (b =? j)%nat eqn:Ebj;
    cbn [andb is_some]; try reflexivity; apply Hs.
Qed.

Section EdgeLoopInvariant.
Variable discretize : vec -> t_line -> R -> list vec -> list vec.
Variable pt_inside_poly : list t_line -> vec -> nat -> nat -> R -> bool.
Variable lines : list t_line.
Variable line_groups : list (nat * nat).
Variable remove_in_regions : bool.
Variable edge_eps : R.
Variable vd : voronoi_diagram.

Let n := List.length (vd_vertices vd).
Let step :=
  @voro_edge_step (AdjacencyMatrix R) _ discretize pt_inside_poly lines
                  line_groups remove_in_regions edge_eps vd.

Lemma emit_bisector_invariant :
  forall e v0 v1 st,
    (forall i, v0 = Some i -> (i < n)%nat) ->
    (forall i, v1 = Some i -> (i < n)%nat) ->
    edge_loop_invariant n st ->
    edge_loop_invariant n
      (emit_bisector discretize lines edge_eps vd e v0 v1 st).
Proof.
  intros e v0 v1 st H0 H1 (Hid & Hsym & Hlin & Hpar).
  unfold emit_bisector.
  repeat match goal with
  | |- edge_loop_invariant n (if ?c then _ else _) => destruct c
  | |- edge_loop_invariant n (match ?x with _ => _ end) => destruct x eqn:?
  end;
  try (split; [exact Hid | split; [exact Hsym | split; assumption]]);
  (split; [exact Hid | split; [exact Hsym | split]]); cbn [vs_linear vs_parabolic];
  try assumption;
  try (apply linear_valid_snoc; assumption).
  all: apply parabolic_valid_snoc; try assumption;
    first [apply H0; reflexivity | apply H1; reflexivity].
Qed.

Lemma voro_edge_step_invariant :
  forall st e, edge_loop_invariant n st -> edge_loop_invariant n (step st e).
Proof.
  intros st e Hinv. unfold step, voro_edge_step.
  destruct (is_secondary e); [exact Hinv |].
  destruct (skipped_by_groups _ _ _ _ _ _ _ _ _); [exact Hinv |].
  set (v0 := get_vertex_idx (vorovertices vd) (vertex0 e)).
  set (v1 := get_vertex_idx (vorovertices vd) (vertex1 e)).
  assert (H0 : forall i, v0 = Some i -> (i < n)%nat)
    by (intros i Hi; apply (get_vertex_idx_bound vd (vertex0 e) i Hi)).
  assert (H1 : forall i, v1 = Some i -> (i < n)%nat)
    by (intros i Hi; apply (get_vertex_idx_bound vd (vertex1 e) i Hi)).
  assert (Hst1 : edge_loop_invariant n
            match v0, v1 with
            | Some i0, Some i1 =>
                mkvstate
                  (AddEdgeIdx
                     (AddEdgeIdx (vs_graph st) i0 i1
                        (norm (vsub (nth i1 (voro_vertices edge_eps vd) vzero)
                                    (nth i0 (voro_vertices edge_eps vd) vzero))))
                     i1 i0
                     (norm (vsub (nth i1 (voro_vertices edge_eps vd) vzero)
                                 (nth i0 (voro_vertices edge_eps vd) vzero))))
                  (vs_linear st) (vs_parabolic st)
            | _, _ => st
            end).
  { destruct Hinv as (Hid & Hsym & Hlin & Hpar).
    destruct v0 as [i0 |]; [| split; [| split; [| split]]; assumption].
    destruct v1 as [i1 |]; [| split; [| split; [| split]]; assumption].
    cbn [AddEdgeIdx AdjacencyMatrix_graph vs_graph vs_linear vs_parabolic].
    split; [| split; [| split]]; cbn [vs_graph vs_linear vs_parabolic];
      try assumption.
    - rewrite !am_add_edge_idents. exact Hid.
    - apply am_add_edge_pair_symmetric. exact Hsym. }
  destruct (is_finite e && negb (is_some v0 && is_some v1)); [exact Hst1 |].
  apply emit_bisector_invariant; assumption.
Qed.

Lemma add_vertices_graph :
  forall l (g : AdjacencyMatrix R),
    fold_left (fun g k => AddVertex g (to_string (S k))) l g
    = mkAdjMat (am_idents g ++ map vertex_ident l) (am_weight g).
Proof.
  induction l as [| k r IH]; intros g; simpl.
  - rewrite app_nil_r. destruct g; reflexivity.
  - rewrite IH. unfold am_add_vertex. simpl.
    rewrite <- app_assoc. reflexivity.
Qed.

Lemma voro_edges_done_invariant :
  edge_loop_invariant n
    (@voro_edges_done (AdjacencyMatrix R) _ discretize pt_inside_poly lines
       line_groups remove_in_regions edge_eps vd).
Proof.
  unfold voro_edges_done. fold step.
  assert (Hinit : edge_loop_invariant n
            (mkvstate (@voro_initial_graph (AdjacencyMatrix R) _ vd) [] [])).
  { unfold voro_initial_graph, vorovertices. rewrite add_vertices_graph.
    split; [reflexivity |]. split; [intros i j; reflexivity |].
    split; intros l a b []. }
  revert Hinit.
  generalize (mkvstate (@voro_initial_graph (AdjacencyMatrix R) _ vd) [] []).
  induction (vd_edges vd) as [| e r IH]; intros st Hst; simpl.
  - exact Hst.
  - apply IH. apply voro_edge_step_invariant. exact Hst.
Qed.
End EdgeLoopInvariant.

(** *** The loop that removes the vertices without connection *)

Lemma vertex_ident_inj :
  forall a b, vertex_ident a = vertex_ident b -> a = b.
Proof.
  unfold vertex_ident, to_string. intros a b H.
  assert (Hs : Some (Nat.to_uint (S a)) = Some (Nat.to_uint (S b))).
  { rewrite <- !NilEmpty.usu. rewrite H. reflexivity. }
  inversion Hs as [Hu]. apply Unsigned.to_uint_inj in Hu. lia.
Qed.

Lemma find_ident_position :
  forall K1 k K2,
    ~ In k K1 ->
    find_ident (vertex_ident k) (map vertex_ident (K1 ++ k :: K2))
    = Some (List.length K1).
Proof.
  induction K1 as [| h t IH]; intros k K2 Hnot; simpl.
  - rewrite String.eqb_refl. reflexivity.
  - assert (Hne : String.eqb (vertex_ident h) (vertex_ident k) = false).
    { apply String.eqb_neq. intros Heq. apply vertex_ident_inj in Heq.
      apply Hnot. left. exact Heq. }
    rewrite Hne, IH; [reflexivity |].
    intros Hin. apply Hnot. right. exact Hin.
Qed.

Lemma filter_nil_iff :
  forall (A : Type) (f : A -> bool) l,
    filter f l = [] <-> forall x, In x l -> f x = false.
Proof.
  intros A f l. induction l as [| x r IH]; simpl.
  - split; [intros _ y [] | reflexivity].
  - destruct (f x) eqn:Hx.
    + split; [discriminate |].
      intros H. rewrite (H x (or_introl eq_refl)) in Hx. discriminate.
    + rewrite IH. split.
      * intros H y [<- | Hy]; [exact Hx | apply H, Hy].
      * intros H y Hy. apply H. right. exact Hy.
Qed.

Lemma erase_at_middle :
  forall (A : Type) (l1 : list A) x l2,
    erase_at (List.length l1) (l1 ++ x :: l2) = l1 ++ l2.
Proof.
  intros A l1 x l2. induction l1 as [| y t IH]; simpl.
  - reflexivity.
  - rewrite IH. reflexivity.
Qed.

Lemma map_nth_seq :
  forall (A : Type) (l : list A) d,
    map (fun i => nth i l d) (seq 0 (List.length l)) = l.
Proof.
  intros A l d. apply (nth_ext _ _ d d).
  - rewrite length_map, length_seq. reflexivity.
  - intros i Hi. rewrite length_map, length_seq in Hi.
    rewrite (nth_indep _ d (nth 0 l d))
      by (rewrite length_map, length_seq; exact Hi).
    rewrite (map_nth (fun i => nth i l d)), seq_nth by exact Hi.
    reflexivity.
Qed.

Section GraphRemoval.
Variable g0 : AdjacencyMatrix R.
Let n := am_num g0.
Hypothesis idents0 : am_idents g0 = map vertex_ident (seq 0 n).
Hypothesis symmetric0 : am_symmetric g0.

Let iso := am_isolated g0.
Let kept (v : nat) := filter (fun k => negb (iso k)) (seq 0 v).

Lemma iso_true :
  forall k, iso k = true <->
            forall u, (u < n)%nat -> am_weight g0 k u = None.
Proof.
  intros k. unfold iso, am_isolated. fold n. rewrite forallb_forall. split.
  - intros H u Hu. specialize (H u). rewrite in_seq in H.
    specialize (H ltac:(lia)).
    destruct (am_weight g0 k u); [discriminate | reflexivity].
  - intros H u Hu. apply in_seq in Hu. rewrite H by lia. reflexivity.
Qed.

Lemma kept_bound : forall v k, In k (kept v) -> (k < v)%nat /\ iso k = false.
Proof.
  intros v k H. unfold kept in H. apply filter_In in H.
  destruct H as [H1 H2]. apply in_seq in H1.
  split; [lia | destruct (iso k); [discriminate | reflexivity]].
Qed.

Lemma restricted_num :
  forall g K, am_restricts g0 g K -> am_num g = List.length K.
Proof.
  intros g K [Hid _]. unfold am_num. rewrite Hid, length_map. reflexivity.
Qed.

Lemma restricted_neighbours :
  forall g K pos,
    am_restricts g0 g K -> (pos < List.length K)%nat ->
    (GetNeighboursIdx g pos = []
     <-> forall u, In u K -> am_weight g0 (nth pos K 0%nat) u = None).
Proof.
  intros g K pos Hr Hpos. unfold GetNeighboursIdx.
  cbn [GetWeight GetNumVertices AdjacencyMatrix_graph].
  pose proof (restricted_num g K Hr) as Hnum.
  rewrite Hnum, filter_nil_iff.
  destruct Hr as [_ Hw].
  assert (Hgw : forall j, (j < List.length K)%nat ->
            am_get_weight g pos j
            = am_weight g0 (nth pos K 0%nat) (nth j K 0%nat)).
  { intros j Hj. unfold am_get_weight. rewrite Hnum.
    pose proof Hpos as Hp'. pose proof Hj as Hj'.
    apply Nat.ltb_lt in Hp', Hj'. rewrite Hp', Hj'. simpl.
    apply Hw; assumption. }
  split.
  - intros H u Hu. apply (In_nth _ _ 0%nat) in Hu.
    destruct Hu as (j & Hj & <-).
    specialize (H j). rewrite in_seq in H. specialize (H ltac:(lia)).
    rewrite Hgw in H by exact Hj.
    destruct (am_weight g0 _ _); [discriminate | reflexivity].
  - intros H j Hj. apply in_seq in Hj. rewrite Hgw by lia.
    rewrite H; [reflexivity | apply nth_In; lia].
Qed.

Lemma restricted_remove :
  forall g K1 k K2,
    am_restricts g0 g (K1 ++ k :: K2) ->
    am_restricts g0 (am_remove_vertex g (List.length K1)) (K1 ++ K2).
Proof.
  intros g K1 k K2 Hr.
  pose proof (restricted_num g _ Hr) as Hnum.
  destruct Hr as [Hid Hw].
  unfold am_remove_vertex. rewrite Hnum, length_app. simpl List.length.
  assert (Hlt : (List.length K1 <? List.length K1 + S (List.length K2))%nat
                = true) by (apply Nat.ltb_lt; lia).
  rewrite Hlt. split; cbn [am_idents am_weight].
  - rewrite Hid, erase_at_map, erase_at_middle. reflexivity.
  - intros a b Ha Hb. rewrite length_app in Ha, Hb.
    rewrite <- (erase_at_middle _ K1 k K2), !erase_at_nth.
    apply Hw; rewrite length_app; simpl; unfold skip_idx;
      match goal with |- context [(?x <? ?y)%nat] => destruct (x <? y)%nat end;
      lia.
Qed.

(** Whether the loop finds the vertex at position [vertidx] without
    neighbours is decided by the graph the loop started from. *)
Lemma restricted_isolated :
  forall g vertidx m,
    (vertidx + S m = n)%nat ->
    am_restricts g0 g (kept vertidx ++ vertidx :: seq (S vertidx) m) ->
    (GetNeighbours g (vertex_ident vertidx) = [] <-> iso vertidx = true).
Proof.
  intros g vertidx m Hn Hr.
  set (K1 := kept vertidx) in *.
  set (K := K1 ++ vertidx :: seq (S vertidx) m) in *.
  assert (Hnot : ~ In vertidx K1).
  { intros Hin. apply kept_bound in Hin. lia. }
  assert (Hpos : (List.length K1 < List.length K)%nat).
  { unfold K. rewrite length_app. simpl. lia. }
  assert (Hnth : nth (List.length K1) K 0%nat = vertidx).
  { unfold K. rewrite app_nth2 by lia. rewrite Nat.sub_diag. reflexivity. }
  unfold GetNeighbours.
  cbn [GetVertexIndex AdjacencyMatrix_graph].
  destruct Hr as [Hid Hw]. rewrite Hid. unfold K.
  rewrite (find_ident_position K1 vertidx _ Hnot). fold K.
  assert (Hr : am_restricts g0 g K) by (split; assumption).
  split.
  - intros Hmap. apply map_eq_nil in Hmap.
    pose proof (proj1 (restricted_neighbours g K _ Hr Hpos) Hmap) as Hnone.
    clear Hmap. rename Hnone into Hmap.
    rewrite Hnth in Hmap. apply iso_true. intros u Hu.
    destruct (Nat.lt_ge_cases u vertidx) as [Hlt | Hge].
    + destruct (iso u) eqn:Hiso.
      * (* removed before: no edge leaves it, hence none reaches it *)
        pose proof (proj1 (iso_true u) Hiso vertidx ltac:(lia)) as Huv.
        pose proof (symmetric0 vertidx u) as Hs. rewrite Huv in Hs.
        destruct (am_weight g0 vertidx u); [discriminate | reflexivity].
      * apply Hmap. unfold K. apply in_or_app. left.
        unfold K1, kept. apply filter_In. split; [apply in_seq; lia |].
        rewrite Hiso. reflexivity.
    + apply Hmap. unfold K. apply in_or_app. right.
      destruct (Nat.eq_dec u vertidx) as [-> | Hne]; [left; reflexivity |].
      right. apply in_seq. lia.
  - intros Hiso.
    assert (Hnil : GetNeighboursIdx g (List.length K1) = []).
    { apply (restricted_neighbours g K _ Hr Hpos). rewrite Hnth.
      intros u Hu. apply (proj1 (iso_true vertidx) Hiso).
      unfold K in Hu. apply in_app_or in Hu. destruct Hu as [Hu | [<- | Hu]].
      - apply kept_bound in Hu. lia.
      - lia.
      - apply in_seq in Hu. lia. }
    rewrite Hnil. reflexivity.
Qed.

Lemma kept_succ :
  forall v, kept (S v) = kept v ++ (if iso v then [] else [v]).
Proof.
  intros v. unfold kept. rewrite seq_S, filter_app. simpl.
  destruct (iso v); reflexivity.
Qed.

Lemma remove_isolated_spec :
  forall m vertidx g removed,
    (vertidx + m = n)%nat ->
    am_restricts g0 g (kept vertidx ++ seq vertidx m) ->
    am_restricts g0
      (fst (remove_isolated (map vertex_ident (seq vertidx m)) vertidx g
                            removed))
      (kept n)
    /\ snd (remove_isolated (map vertex_ident (seq vertidx m)) vertidx g
                            removed)
       = removed ++ filter iso (seq vertidx m).
Proof.
  induction m as [| m IH]; intros vertidx g removed Hn Hr.
  - simpl. rewrite !app_nil_r in *.
    replace n with vertidx by lia. split; [exact Hr | reflexivity].
  - cbn [seq map remove_isolated filter]. cbn [seq] in Hr.
    pose proof (restricted_isolated g vertidx m Hn Hr) as Hdec.
    destruct (GetNeighbours g (vertex_ident vertidx)) as [| nb nbs] eqn:Hnb.
    + assert (Hiso : iso vertidx = true) by (apply Hdec; reflexivity).
      rewrite Hiso.
      assert (Hrm : RemoveVertex g (vertex_ident vertidx)
                    = am_remove_vertex g (List.length (kept vertidx))).
      { unfold RemoveVertex. cbn [GetVertexIndex RemoveVertexIdx
                                  AdjacencyMatrix_graph].
        destruct Hr as [Hid _]. rewrite Hid.
        rewrite find_ident_position; [reflexivity |].
        intros Hin. apply kept_bound in Hin. lia. }
      rewrite Hrm.
      destruct (IH (S vertidx) (am_remove_vertex g (List.length (kept vertidx)))
                   (removed ++ [vertidx])) as [H1 H2].
      * lia.
      * rewrite kept_succ, Hiso, app_nil_r.
        apply (restricted_remove g _ vertidx _ Hr).
      * split; [exact H1 |]. rewrite H2, <- app_assoc. reflexivity.
    + assert (Hiso : iso vertidx = false).
      { destruct (iso vertidx) eqn:E; [| reflexivity].
        pose proof (proj2 Hdec eq_refl) as Hc. discriminate. }
      rewrite Hiso.
      apply IH; [lia |].
      rewrite kept_succ, Hiso, <- app_assoc. exact Hr.
Qed.

(** In the graph that is left, an edge leaves every vertex. *)
Lemma kept_not_isolated :
  forall g pos,
    am_restricts g0 g (kept n) -> (pos < List.length (kept n))%nat ->
    GetNeighboursIdx g pos <> [].
Proof.
  intros g pos Hr Hpos Hnil.
  pose proof (proj1 (restricted_neighbours g _ _ Hr Hpos) Hnil) as Hnone.
  clear Hnil. rename Hnone into Hnil.
  pose proof (nth_In (kept n) 0%nat Hpos) as Hin.
  apply kept_bound in Hin. destruct Hin as [Hk Hiso].
  assert (Hall : iso (nth pos (kept n) 0%nat) = true).
  { apply iso_true. intros u Hu.
    destruct (iso u) eqn:Hu_iso.
    - pose proof (proj1 (iso_true u) Hu_iso _ Hk) as Huv.
      pose proof (symmetric0 (nth pos (kept n) 0%nat) u) as Hs.
      rewrite Huv in Hs.
      destruct (am_weight g0 _ u); [discriminate | reflexivity].
    - apply Hnil. unfold kept. apply filter_In.
      split; [apply in_seq; lia | rewrite Hu_iso; reflexivity]. }
  rewrite Hall in Hiso. discriminate.
Qed.
End GraphRemoval.

Lemma am_restricts_self :
  forall (g0 : AdjacencyMatrix R),
    am_idents g0 = map vertex_ident (seq 0 (am_num g0)) ->
    am_restricts g0 g0 (seq 0 (am_num g0)).
Proof.
  intros g0 Hid. split; [exact Hid |].
  intros a b Ha Hb. rewrite length_seq in Ha, Hb.
  rewrite !seq_nth by assumption. reflexivity.
Qed.

(** *** The result of [calc_voro] *)

Section CalcVoroResult.
Variable construct : list (Z * Z * Z * Z) -> voronoi_diagram.
Variable discretize : vec -> t_line -> R -> list vec -> list vec.
Variable pt_inside_poly : list t_line -> vec -> nat -> nat -> R -> bool.
Variable lines : list t_line.
Variable line_groups : list (nat * nat).
Variable remove_in_regions : bool.
Variable edge_eps : R.

Let vd := construct (voro_input lines edge_eps).
Let n := List.length (vd_vertices vd).
Let st :=
  @voro_edges_done (AdjacencyMatrix R) _ discretize pt_inside_poly lines
    line_groups remove_in_regions edge_eps vd.
Let vertices0 := voro_vertices edge_eps vd.

Lemma calc_voro_grouped :
  line_groups <> [] ->
  exists vertices lin par (graph : AdjacencyMatrix R),
    calc_voro construct discretize pt_inside_poly lines line_groups
              remove_in_regions edge_eps
      = Some (vertices, lin, par, graph)
    /\ linear_valid (List.length vertices) lin
    /\ parabolic_valid (List.length vertices) par
    /\ GetNumVertices graph = List.length vertices
    /\ (forall i, (i < List.length vertices)%nat ->
                  GetNeighboursIdx graph i <> [])
    /\ (forall i, (i < List.length vertices)%nat ->
          exists k,
            GetVertexIdent graph i = vertex_ident k
            /\ nth i vertices vzero = nth k vertices0 vzero).
Proof.
  intros Hgroups.
  pose proof (voro_edges_done_invariant discretize pt_inside_poly lines
                line_groups remove_in_regions edge_eps vd)
    as (Hid & Hsym & Hlin & Hpar).
  fold st n in Hid, Hsym, Hlin, Hpar.
  set (g0 := vs_graph st) in *.
  assert (Hnum : am_num g0 = n).
  { unfold am_num. rewrite Hid, length_map, length_seq. reflexivity. }
  assert (Hid0 : am_idents g0 = map vertex_ident (seq 0 (am_num g0)))
    by (rewrite Hnum; exact Hid).
  assert (Hlen0 : List.length vertices0 = n).
  { unfold vertices0, voro_vertices. rewrite length_map. reflexivity. }
  set (iso := am_isolated g0).
  set (K := filter (fun k => negb (iso k)) (seq 0 n)).
  (* the graph *)
  assert (Hverts :
    map (GetVertexIdent g0) (seq 0 (GetNumVertices g0))
    = map vertex_ident (seq 0 n)).
  { cbn [GetVertexIdent GetNumVertices AdjacencyMatrix_graph].
    unfold am_num. rewrite map_nth_seq. exact Hid. }
  destruct (remove_isolated_spec g0 Hsym (am_num g0) 0 g0 [])
    as [Hgraph Hremoved].
  { lia. }
  { cbn [seq filter app]. apply am_restricts_self. exact Hid0. }
  cbv beta in Hgraph. rewrite Hnum in Hgraph, Hremoved. fold iso in Hgraph, Hremoved.
  fold K in Hgraph. cbn [app] in Hremoved.
  set (run := remove_isolated (map vertex_ident (seq 0 n)) 0 g0 []) in *.
  (* the coordinates and the bisectors *)
  destruct (remove_vertex_coords_spec (rev (snd run)) vertices0
              (vs_linear st) (vs_parabolic st))
    as (lin' & par' & Hrun & Hlin' & Hpar').
  { rewrite Hremoved, Hlen0. apply desc_below_rev_filter. }
  { rewrite Hlen0. exact Hlin. }
  { rewrite Hlen0. exact Hpar. }
  assert (Hvertices :
    @erase_all vec (rev (snd run)) vertices0
    = map (fun k => nth k vertices0 vzero) K).
  { rewrite Hremoved. rewrite <- Hlen0 at 1. rewrite erase_all_filter.
    rewrite (combine_seq_filter vec (fun k => negb (iso k)) vzero vertices0 0).
    rewrite Hlen0. fold K. apply map_ext. intros k.
    rewrite Nat.sub_0_r. reflexivity. }
  rewrite Hvertices in Hrun, Hlin', Hpar'.
  exists (map (fun k => nth k vertices0 vzero) K), lin', par', (fst run).
  rewrite length_map.
  split; [| split; [| split; [| split; [| split]]]].
  - unfold calc_voro. fold vd. fold st. fold vertices0. fold g0.
    destruct line_groups as [| grp rest]; [contradiction |].
    rewrite Hverts. fold run.
    destruct run as [graph' removed']. cbn [fst snd] in *.
    rewrite Hrun. reflexivity.
  - rewrite length_map in Hlin'. exact Hlin'.
  - rewrite length_map in Hpar'. exact Hpar'.
  - cbn [GetNumVertices AdjacencyMatrix_graph].
    unfold am_num. destruct Hgraph as [Hid' _].
    rewrite Hid', length_map. reflexivity.
  - intros i Hi.
    apply (kept_not_isolated g0 Hsym (fst run) i).
    + cbv beta. rewrite Hnum. fold iso. fold K. exact Hgraph.
    + cbv beta. rewrite Hnum. fold iso. fold K. exact Hi.
  - intros i Hi. exists (nth i K 0%nat). split.
    + cbn [GetVertexIdent AdjacencyMatrix_graph].
      destruct Hgraph as [Hid' _]. rewrite Hid'.
      rewrite (nth_indep _ EmptyString (vertex_ident 0))
        by (rewrite length_map; exact Hi).
      apply map_nth.
    + rewrite (nth_indep _ vzero (nth 0 vertices0 vzero))
        by (rewrite length_map; exact Hi).
      apply (map_nth (fun k => nth k vertices0 vzero)).
Qed.
End CalcVoroResult.

(** C8, as amended.  When [calc_voro] is called with a non-empty segment
    grouping it returns a result (it does not throw), every vertex index
    stored in a returned linear or parabolic bisector is a valid index
    into the returned vertex array, the roadmap graph has exactly one
    vertex per position of that array, named after the Voronoi vertex
    whose coordinates stand there, and no vertex of the returned graph is
    without a neighbour. *)
Theorem calc_voro_compacts_indices :
  forall (construct : list (Z * Z * Z * Z) -> voronoi_diagram)
         (discretize : vec -> t_line -> R -> list vec -> list vec)
         (pt_inside_poly : list t_line -> vec -> nat -> nat -> R -> bool)
         (lines : list t_line) (line_groups : list (nat * nat))
         (remove_in_regions : bool) (edge_eps : R),
    line_groups <> [] ->
    exists result,
      calc_voro construct discretize pt_inside_poly lines line_groups
                remove_in_regions edge_eps = Some result
      /\ compacted
           (voro_vertices edge_eps (construct (voro_input lines edge_eps)))
           result.
Proof.
  intros construct discretize pt_inside_poly lines line_groups
         remove_in_regions edge_eps Hgroups.
  destruct (calc_voro_grouped construct discretize pt_inside_poly lines
              line_groups remove_in_regions edge_eps Hgroups)
    as (vertices & lin & par & graph & Hres & Hrest).
  exists (vertices, lin, par, graph). split; [exact Hres |].
  exact Hrest.
Qed.

Lemma calc_voro_compacts_indices_witness :
  tiny_groups <> []
  /\ exists result,
       calc_voro (builder_on tiny_input three_points_diagram)
                 (fun _ _ _ l => l) (fun _ _ _ _ _ => false)
                 tiny_lines tiny_groups false (1 / 100) = Some result
       /\ compacted
            (voro_vertices (1 / 100)
               (builder_on tiny_input three_points_diagram
                  (voro_input tiny_lines (1 / 100))))
            result.
Proof.
  split; [discriminate |].
  apply (calc_voro_compacts_indices
           (builder_on tiny_input three_points_diagram)
           (fun _ _ _ l => l) (fun _ _ _ _ _ => false)
           tiny_lines tiny_groups false (1 / 100)).
  discriminate.
Defined.

Lemma Rtrunc_floor :
  forall x z, 0 <= x -> IZR z <= x < IZR z + 1 -> Rtrunc x = z.
Proof.
  intros x z Hx Hz. unfold Rtrunc.
  destruct (Rle_dec 0 x) as [_ | Hn]; [| contradiction].
  symmetry. apply Int_part_spec. lra.
Qed.

Lemma tiny_lines_input : voro_input tiny_lines (1 / 100) = tiny_input.
Proof.
  unfold voro_input.
  change (Rceil (1 / (1 / 100 * (1 / 100)))) with (voro_scale (1 / 100)).
  rewrite voro_scale_default.
  unfold tiny_lines, tiny_input. cbn [map fst snd vx vy].
  repeat f_equal; apply Rtrunc_floor; simpl; lra.
Qed.

Lemma infinite_edges_graph :
  forall discretize pt_inside_poly lines line_groups remove_in_regions
         edge_eps vd edges (st : voro_state (AdjacencyMatrix R)),
    forallb (fun e => negb (is_finite e)) edges = true ->
    vs_graph
      (fold_left (voro_edge_step discretize pt_inside_poly lines line_groups
                                 remove_in_regions edge_eps vd) edges st)
    = vs_graph st.
Proof.
  intros discretize pt_inside_poly lines line_groups remove_in_regions
         edge_eps vd edges.
  induction edges as [| e edges IH]; intros st Hall; [reflexivity |].
  cbn [forallb] in Hall. apply andb_true_iff in Hall as [He Hall].
  cbn [fold_left]. rewrite (IH _ Hall).
  apply (infinite_edge_graph (AdjacencyMatrix R) discretize pt_inside_poly
           lines line_groups remove_in_regions edge_eps vd st e).
  destruct (is_finite e); [discriminate | reflexivity].
Qed.

(** C8 as stated fails without a grouping: the three short segments are
    three points for the builder, the centre (2, 2) of the circle through
    them is a Voronoi vertex from which only rays leave, and it is
    returned although no roadmap edge touches it. *)
Lemma isolated_vertex_without_groups :
  match @calc_voro (AdjacencyMatrix R) _
          (builder_on tiny_input three_points_diagram)
          (fun _ _ _ l => l) (fun _ _ _ _ _ => false)
          tiny_lines [] false (1 / 100) with
  | Some (vertices, _, _, graph) =>
      vertices = [mkvec 2 2]
      /\ GetNumVertices graph = 1%nat
      /\ GetNeighboursIdx graph 0 = []
  | None => False
  end.
Proof.
  unfold calc_voro. rewrite tiny_lines_input.
  unfold builder_on.
  replace (quads_eqb tiny_input tiny_input) with true by reflexivity.
  cbv beta iota zeta.
  unfold voro_edges_done.
  rewrite infinite_edges_graph by reflexivity.
  cbn [vs_graph].
  split; [| split].
  - unfold voro_vertices. rewrite voro_scale_default.
    cbn [map vd_vertices three_points_diagram vx vy].
    repeat f_equal; lra.
  - reflexivity.
  - reflexivity.
Qed.

(* ------------------------------------------------------------------ *)
(** ** Delaunay triangulation: the search for the neighbouring triangle *)
(* ------------------------------------------------------------------ *)

Lemma shares_edge_some :
  forall triag vert1 vert2 eps a b c,
    shares_edge triag vert1 vert2 eps = Some (a, b, c) ->
    Permutation [a; b; c] [0; 1; 2]%nat
    /\ vequals (tri_get triag a) vert1 eps = true
    /\ vequals (tri_get triag b) vert2 eps = true.
Proof.
  intros triag vert1 vert2 eps a b c. unfold shares_edge. cbv beta zeta.
  destruct (vequals (tri_get triag 0) vert1 eps) eqn:H01;
    destruct (vequals (tri_get triag 1) vert1 eps) eqn:H11;
    destruct (vequals (tri_get triag 2) vert1 eps) eqn:H21;
    destruct (vequals (tri_get triag 0) vert2 eps) eqn:H02;
    destruct (vequals (tri_get triag 1) vert2 eps) eqn:H12;
    destruct (vequals (tri_get triag 2) vert2 eps) eqn:H22;
    cbn [andb]; intros H; try discriminate H;
    inversion H; subst a b c;
    (split; [| split; assumption]);
    first [ apply Permutation_refl
          | apply perm_swap
          | apply perm_skip; apply perm_swap
          | apply (Permutation_rev [2; 1; 0]%nat)
          | apply (perm_trans (l' := [1; 0; 2]%nat));
            [apply perm_skip; apply perm_swap | apply perm_swap]
          | apply (perm_trans (l' := [0; 2; 1]%nat));
            [apply perm_swap | apply perm_skip; apply perm_swap] ].
Qed.

Lemma shares_edge_none :
  forall triag vert1 vert2 eps,
    shares_edge triag vert1 vert2 eps = None ->
    forall a b, (a < 3)%nat -> (b < 3)%nat -> a <> b ->
      vequals (tri_get triag a) vert1 eps
      && vequals (tri_get triag b) vert2 eps = false.
Proof.
  intros triag vert1 vert2 eps. unfold shares_edge. cbv beta zeta.
  destruct (vequals (tri_get triag 0) vert1 eps) eqn:H01;
    destruct (vequals (tri_get triag 1) vert1 eps) eqn:H11;
    destruct (vequals (tri_get triag 2) vert1 eps) eqn:H21;
    destruct (vequals (tri_get triag 0) vert2 eps) eqn:H02;
    destruct (vequals (tri_get triag 1) vert2 eps) eqn:H12;
    destruct (vequals (tri_get triag 2) vert2 eps) eqn:H22;
    cbn [andb]; intros H; try discriminate H;
    intros a b Ha Hb Hab;
    destruct a as [| [| [| a]]]; try lia;
    destruct b as [| [| [| b]]]; try lia; try contradiction;
    rewrite ?H01, ?H11, ?H21, ?H02, ?H12, ?H22; reflexivity.
Qed.

Lemma get_triag_sharing_edge_from_some :
  forall rest triags i0 vert1 vert2 cur eps i s1 s2 ns,
    (forall k, nth k rest [] = nth (i0 + k) triags []) ->
    (i0 + List.length rest = List.length triags)%nat ->
    get_triag_sharing_edge_from rest i0 vert1 vert2 cur eps
      = Some (i, s1, s2, ns) ->
    (i0 <= i < List.length triags)%nat /\ i <> cur
    /\ shares_edge (nth i triags []) vert1 vert2 eps = Some (s1, s2, ns)
    /\ forall j, (i0 <= j < i)%nat -> j <> cur ->
         shares_edge (nth j triags []) vert1 vert2 eps = None.
Proof.
  induction rest as [| triag rest IH];
    intros triags i0 vert1 vert2 cur eps i s1 s2 ns Hnth Hlen H;
    cbn [get_triag_sharing_edge_from] in H; [discriminate |].
  cbn [List.length] in Hlen.
  assert (Hrest : forall k, nth k rest [] = nth (S i0 + k) triags []).
  { intros k. replace (S i0 + k)%nat with (i0 + S k)%nat by lia.
    rewrite <- (Hnth (S k)). reflexivity. }
  assert (Hhead : triag = nth i0 triags []).
  { rewrite <- (Nat.add_0_r i0). exact (Hnth 0%nat). }
  destruct (i0 =? cur)%nat eqn:Hcur.
  - apply Nat.eqb_eq in Hcur.
    destruct (IH triags (S i0) vert1 vert2 cur eps i s1 s2 ns Hrest
                 ltac:(lia) H) as (Hi & Hne & Hs & Hmin).
    split; [lia |]. split; [exact Hne |]. split; [exact Hs |].
    intros j Hj Hjc. apply Hmin; [| exact Hjc].
    destruct (Nat.eq_dec j i0); [congruence | lia].
  - apply Nat.eqb_neq in Hcur.
    destruct (shares_edge triag vert1 vert2 eps) as [[[a b] c] |] eqn:Hs.
    + inversion H; subst i s1 s2 ns.
      split; [lia |]. split; [exact Hcur |].
      split; [rewrite <- Hhead; exact Hs |].
      intros j Hj. lia.
    + destruct (IH triags (S i0) vert1 vert2 cur eps i s1 s2 ns Hrest
                   ltac:(lia) H) as (Hi & Hne & Hs' & Hmin).
      split; [lia |]. split; [exact Hne |]. split; [exact Hs' |].
      intros j Hj Hjc.
      destruct (Nat.eq_dec j i0) as [-> | Hn];
        [rewrite <- Hhead; exact Hs | apply Hmin; [lia | exact Hjc]].
Qed.

Lemma get_triag_sharing_edge_from_none :
  forall rest triags i0 vert1 vert2 cur eps,
    (forall k, nth k rest [] = nth (i0 + k) triags []) ->
    (i0 + List.length rest = List.length triags)%nat ->
    (get_triag_sharing_edge_from rest i0 vert1 vert2 cur eps = None
     <-> forall j, (i0 <= j < List.length triags)%nat -> j <> cur ->
           shares_edge (nth j triags []) vert1 vert2 eps = None).
Proof.
  induction rest as [| triag rest IH];
    intros triags i0 vert1 vert2 cur eps Hnth Hlen;
    cbn [get_triag_sharing_edge_from List.length] in *.
  - split; [| reflexivity]. intros _ j Hj. lia.
  - assert (Hrest : forall k, nth k rest [] = nth (S i0 + k) triags []).
    { intros k. replace (S i0 + k)%nat with (i0 + S k)%nat by lia.
    rewrite <- (Hnth (S k)). reflexivity. }
    assert (Hhead : triag = nth i0 triags []).
    { rewrite <- (Nat.add_0_r i0). exact (Hnth 0%nat). }
    specialize (IH triags (S i0) vert1 vert2 cur eps Hrest ltac:(lia)).
    destruct (i0 =? cur)%nat eqn:Hcur.
    + apply Nat.eqb_eq in Hcur. rewrite IH. split.
      * intros H j Hj Hjc. apply H; [| exact Hjc].
        destruct (Nat.eq_dec j i0); [congruence | lia].
      * intros H j Hj Hjc. apply H; [lia | exact Hjc].
    + apply Nat.eqb_neq in Hcur.
      destruct (shares_edge triag vert1 vert2 eps) as [[[a b] c] |] eqn:Hs.
      * split; [discriminate |]. intros H.
        specialize (H i0 ltac:(lia) Hcur).
        rewrite <- Hhead, Hs in H. discriminate.
      * rewrite IH. split.
        -- intros H j Hj Hjc.
           destruct (Nat.eq_dec j i0) as [-> | Hn];
             [rewrite <- Hhead; exact Hs | apply H; [lia | exact Hjc]].
        -- intros H j Hj Hjc. apply H; [lia | exact Hjc].
Qed.

Lemma shares_edge_some_idx :
  forall triag vert1 vert2 eps a b c,
    shares_edge triag vert1 vert2 eps = Some (a, b, c) ->
    (a < 3)%nat /\ (b < 3)%nat /\ a <> b.
Proof.
  intros triag vert1 vert2 eps a b c. unfold shares_edge. cbv beta zeta.
  repeat match goal with
  | |- context [vequals ?t ?v ?e] => destruct (vequals t v e)
  end; cbn [andb]; intros H; try discriminate H;
    inversion H; subst a b c; lia.
Qed.

(** What [get_triag_sharing_edge] finds is a triangle other than the
    current one that has the two vertices (within eps) at two of its
    corners; the three positions returned are the three corners, the
    shared ones first; and it is the first such triangle of the vector. *)
Theorem get_triag_sharing_edge_sound :
  forall triags vert1 vert2 curtriagidx eps i s1 s2 ns,
    get_triag_sharing_edge triags vert1 vert2 curtriagidx eps
      = Some (i, s1, s2, ns) ->
    (i < List.length triags)%nat
    /\ i <> curtriagidx
    /\ Permutation [s1; s2; ns] [0; 1; 2]%nat
    /\ vequals (tri_get (nth i triags []) s1) vert1 eps = true
    /\ vequals (tri_get (nth i triags []) s2) vert2 eps = true
    /\ forall j a b,
         (j < i)%nat -> j <> curtriagidx ->
         (a < 3)%nat -> (b < 3)%nat -> a <> b ->
         vequals (tri_get (nth j triags []) a) vert1 eps
         && vequals (tri_get (nth j triags []) b) vert2 eps = false.
Proof.
  intros triags vert1 vert2 cur eps i s1 s2 ns H.
  unfold get_triag_sharing_edge in H.
  destruct (get_triag_sharing_edge_from_some triags triags 0 vert1 vert2
              cur eps i s1 s2 ns (fun k => eq_refl) eq_refl H)
    as (Hi & Hne & Hs & Hmin).
  destruct (shares_edge_some _ _ _ _ _ _ _ Hs) as (Hp & H1 & H2).
  split; [exact (proj2 Hi) |]. split; [exact Hne |]. split; [exact Hp |].
  split; [exact H1 |]. split; [exact H2 |].
  intros j a b Hj Hjc Ha Hb Hab.
  apply (shares_edge_none _ _ _ _ (Hmin j (conj (Nat.le_0_l j) Hj) Hjc));
    assumption.
Qed.

Lemma two_triangles_shared_edge :
  get_triag_sharing_edge two_triangles (mkvec 1 0) (mkvec 0 1) 0 (1 / 100000)
  = Some (1, 0, 2, 1)%nat.
Proof.
  unfold get_triag_sharing_edge, two_triangles.
  cbn [get_triag_sharing_edge_from Nat.eqb].
  unfold shares_edge, vequals, tri_get. cbn [nth vx vy].
  eval_compare. reflexivity.
Qed.

Lemma get_triag_sharing_edge_sound_witness :
  get_triag_sharing_edge two_triangles (mkvec 1 0) (mkvec 0 1) 0 (1 / 100000)
    = Some (1, 0, 2, 1)%nat
  /\ (1 < List.length two_triangles)%nat.
Proof.
  split; [exact two_triangles_shared_edge |].
  apply (get_triag_sharing_edge_sound two_triangles (mkvec 1 0) (mkvec 0 1)
           0%nat (1 / 100000) 1%nat 0%nat 2%nat 1%nat).
  exact two_triangles_shared_edge.
Defined.

(** [get_triag_sharing_edge] finds nothing exactly when no triangle other
    than the current one has the two vertices (within eps) at two
    different corners. *)
Theorem get_triag_sharing_edge_none :
  forall triags vert1 vert2 curtriagidx eps,
    get_triag_sharing_edge triags vert1 vert2 curtriagidx eps = None
    <-> (forall j a b,
           (j < List.length triags)%nat -> j <> curtriagidx ->
           (a < 3)%nat -> (b < 3)%nat -> a <> b ->
           vequals (tri_get (nth j triags []) a) vert1 eps
           && vequals (tri_get (nth j triags []) b) vert2 eps = false).
Proof.
  intros triags vert1 vert2 cur eps. unfold get_triag_sharing_edge.
  rewrite (get_triag_sharing_edge_from_none triags triags 0 vert1 vert2
             cur eps (fun k => eq_refl) eq_refl).
  split.
  - intros H j a b Hj Hjc Ha Hb Hab.
    apply (shares_edge_none _ _ _ _ (H j (conj (Nat.le_0_l j) Hj) Hjc));
      assumption.
  - intros H j Hj Hjc.
    destruct (shares_edge (nth j triags []) vert1 vert2 eps)
      as [[[a b] c] |] eqn:Hs; [exfalso | exact Hs].
    destruct (shares_edge_some _ _ _ _ _ _ _ Hs) as (_ & H1 & H2).
    destruct (shares_edge_some_idx _ _ _ _ _ _ _ Hs) as (Ha & Hb & Hab).
    specialize (H j a b (proj2 Hj) Hjc Ha Hb Hab).
    rewrite H1, H2 in H. discriminate.
Qed.

(* ------------------------------------------------------------------ *)
(** ** Delaunay triangulation: flipping edges *)
(* ------------------------------------------------------------------ *)

Lemma set_at_length :
  forall (A : Type) (l : list A) k x,
    List.length (set_at k x l) = List.length l.
Proof.
  intros A l. induction l as [| h t IH]; intros k x; [reflexivity |].
  destruct k; cbn [set_at List.length]; [reflexivity |].
  rewrite IH. reflexivity.
Qed.

Lemma set_at_In :
  forall (A : Type) (l : list A) k x y,
    In y (set_at k x l) -> y = x \/ In y l.
Proof.
  intros A l. induction l as [| h t IH]; intros k x y H; [contradiction |].
  destruct k; cbn [set_at] in H; destruct H as [H | H].
  - left. symmetry. exact H.
  - right. right. exact H.
  - right. left. exact H.
  - destruct (IH _ _ _ H) as [H' | H']; [left | right; right]; exact H'.
Qed.

Lemma set_at_nth_same :
  forall (A : Type) (l : list A) k x d,
    (k < List.length l)%nat -> nth k (set_at k x l) d = x.
Proof.
  intros A l. induction l as [| h t IH]; intros k x d Hk;
    [cbn in Hk; lia |].
  destruct k; cbn [set_at nth]; [reflexivity |].
  apply IH. cbn in Hk. lia.
Qed.

Lemma set_at_nth_other :
  forall (A : Type) (l : list A) k j x d,
    j <> k -> nth j (set_at k x l) d = nth j l d.
Proof.
  intros A l. induction l as [| h t IH]; intros k j x d Hjk;
    [reflexivity |].
  destruct k, j; cbn [set_at nth]; try reflexivity; try contradiction.
  apply IH. congruence.
Qed.

Lemma corner_tri_get :
  forall (triags : list triangle) i j,
    proper_triangles triags ->
    (i < List.length triags)%nat -> (j < 3)%nat ->
    corner triags (tri_get (nth i triags []) j).
Proof.
  intros triags i j Hp Hi Hj.
  exists (nth i triags []). split; [apply nth_In; exact Hi |].
  unfold tri_get. apply nth_In.
  rewrite (Hp (nth i triags []) (nth_In _ _ Hi)). exact Hj.
Qed.

Lemma set_at_triangle :
  forall (triags : list triangle) k a b c,
    proper_triangles triags ->
    corner triags a -> corner triags b -> corner triags c ->
    proper_triangles (set_at k [a; b; c] triags)
    /\ forall v, corner (set_at k [a; b; c] triags) v -> corner triags v.
Proof.
  intros triags k a b c Hp Ha Hb Hc. split.
  - intros t Ht. destruct (set_at_In _ _ _ _ _ Ht) as [-> | Hin];
      [reflexivity | exact (Hp t Hin)].
  - intros v (t & Ht & Hv).
    destruct (set_at_In _ _ _ _ _ Ht) as [-> | Hin].
    + destruct Hv as [<- | [<- | [<- | []]]]; assumption.
    + exists t. split; assumption.
Qed.

Section FlipEdge.
Variable calc_circumcentre : triangle -> vec.

Lemma flip_edge_invariant :
  forall fuel triags triagidx nonsharedidx eps triags',
    proper_triangles triags ->
    (triagidx < List.length triags)%nat -> (nonsharedidx < 3)%nat ->
    flip_edge calc_circumcentre fuel triags triagidx nonsharedidx eps
      = Some triags' ->
    List.length triags' = List.length triags
    /\ proper_triangles triags'
    /\ forall v, corner triags' v -> corner triags v.
Proof.
  induction fuel as [| f IH];
    intros triags triagidx nonsharedidx eps triags' Hp Hidx Hns H;
    [discriminate |].
  cbn [flip_edge] in H.
  assert (Hlen3 : List.length (nth triagidx triags []) = 3%nat)
    by (apply Hp, nth_In; exact Hidx).
  rewrite Hlen3 in H.
  destruct (get_triag_sharing_edge triags
              (tri_get (nth triagidx triags [])
                       ((nonsharedidx + 1) mod 3)%nat)
              (tri_get (nth triagidx triags [])
                       ((nonsharedidx + 2) mod 3)%nat)
              triagidx eps)
    as [[[[o os1] os2] ons] |] eqn:Hshare;
    [| inversion H; subst; repeat split; auto].
  destruct (is_conflicting_triag _ _ _);
    [| inversion H; subst; repeat split; auto].
  unfold get_triag_sharing_edge in Hshare.
  destruct (get_triag_sharing_edge_from_some triags triags 0 _ _ _ _ _ _ _ _
              (fun k => eq_refl) eq_refl Hshare)
    as (Ho & Hne & Hs & _).
  destruct (shares_edge_some _ _ _ _ _ _ _ Hs) as (Hperm & _ & _).
  assert (Hos : (os1 < 3 /\ os2 < 3 /\ ons < 3)%nat).
  { assert (Hall : forall x, In x [os1; os2; ons] -> (x < 3)%nat).
    { intros x Hx. apply (Permutation_in _ Hperm) in Hx.
      cbn in Hx. intuition lia. }
    repeat split; apply Hall; cbn; auto. }
  destruct Hos as (Hos1 & Hos2 & Hons).
  assert (Hs1 : ((nonsharedidx + 1) mod 3 < 3)%nat)
    by (apply Nat.mod_upper_bound; lia).
  assert (Hs2 : ((nonsharedidx + 2) mod 3 < 3)%nat)
    by (apply Nat.mod_upper_bound; lia).
  set (triags1 :=
         set_at triagidx
           [tri_get (nth triagidx triags []) nonsharedidx;
            tri_get (nth o triags []) ons;
            tri_get (nth o triags []) os1] triags) in H.
  set (triags2 :=
         set_at o
           [tri_get (nth triagidx triags1 []) nonsharedidx;
            tri_get (nth o triags1 []) ons;
            tri_get (nth o triags1 []) os2] triags1) in H.
  assert (Hl1 : List.length triags1 = List.length triags)
    by apply set_at_length.
  destruct (set_at_triangle triags triagidx
              (tri_get (nth triagidx triags []) nonsharedidx)
              (tri_get (nth o triags []) ons)
              (tri_get (nth o triags []) os1) Hp
              (corner_tri_get triags triagidx nonsharedidx Hp Hidx Hns)
              (corner_tri_get triags o ons Hp (proj2 Ho) Hons)
              (corner_tri_get triags o os1 Hp (proj2 Ho) Hos1))
    as [Hp1 Hc1].
  fold triags1 in Hp1, Hc1.
  assert (Hidx1 : (triagidx < List.length triags1)%nat)
    by (rewrite Hl1; exact Hidx).
  assert (Ho1 : (o < List.length triags1)%nat)
    by (rewrite Hl1; exact (proj2 Ho)).
  destruct (set_at_triangle triags1 o
              (tri_get (nth triagidx triags1 []) nonsharedidx)
              (tri_get (nth o triags1 []) ons)
              (tri_get (nth o triags1 []) os2) Hp1
              (corner_tri_get triags1 triagidx nonsharedidx Hp1 Hidx1 Hns)
              (corner_tri_get triags1 o ons Hp1 Ho1 Hons)
              (corner_tri_get triags1 o os2 Hp1 Ho1 Hos2))
    as [Hp2 Hc2].
  fold triags2 in Hp2, Hc2.
  assert (Hl2 : List.length triags2 = List.length triags)
    by (unfold triags2; rewrite set_at_length; exact Hl1).
  assert (Hstart :
    List.length triags2 = List.length triags
    /\ proper_triangles triags2
    /\ forall v, corner triags2 v -> corner triags v)
    by (split; [exact Hl2 | split; [exact Hp2 | intros v Hv; auto]]).
  clearbody triags2. clear Hshare Hs Hp1 Hc1 Hl1 Hp2 Hc2 Hl2.
  assert (Hstep :
    forall (o' : option (list triangle)) t i,
      (t < List.length triags)%nat -> (i < 3)%nat ->
      (forall ts, o' = Some ts ->
         List.length ts = List.length triags
         /\ proper_triangles ts
         /\ forall v, corner ts v -> corner triags v) ->
      forall ts,
        match o' with
        | Some ts0 => flip_edge calc_circumcentre f ts0 t i eps
        | None => None
        end = Some ts ->
        List.length ts = List.length triags
        /\ proper_triangles ts
        /\ forall v, corner ts v -> corner triags v).
  { intros o' t i Ht Hi Hinv ts Hrun.
    destruct o' as [ts0 |]; [| discriminate].
    destruct (Hinv ts0 eq_refl) as (Hl0 & Hp0 & Hc0).
    destruct (IH ts0 t i eps ts Hp0 ltac:(rewrite Hl0; exact Ht) Hi Hrun)
      as (Hl & Hp' & Hc').
    split; [congruence |]. split; [exact Hp' |].
    intros v Hv. auto. }
  revert H.
  apply Hstep; [exact Hidx | exact Hs2 |].
  apply Hstep; [exact Hidx | exact Hs1 |].
  apply Hstep; [exact Hidx | exact Hns |].
  apply Hstep; [exact (proj2 Ho) | exact Hos2 |].
  apply Hstep; [exact (proj2 Ho) | exact Hos1 |].
  apply (Hstep (Some triags2)); [exact (proj2 Ho) | exact Hons |].
  intros ts Hts. inversion Hts; subst ts. exact Hstart.
Qed.
End FlipEdge.

(* ------------------------------------------------------------------ *)
(** ** Delaunay triangulation: what a flip does *)
(* ------------------------------------------------------------------ *)

Lemma Rltb_norm :
  forall a b,
    Rltb (norm a) (norm b)
    = Rltb (vx a * vx a + vy a * vy a) (vx b * vx b + vy b * vy b).
Proof.
  intros a b. unfold norm.
  assert (Ha : 0 <= vx a * vx a + vy a * vy a) by nra.
  assert (Hb : 0 <= vx b * vx b + vy b * vy b) by nra.
  destruct (Rlt_dec (vx a * vx a + vy a * vy a)
                    (vx b * vx b + vy b * vy b)) as [Hlt | Hge].
  - rewrite !Rltb_true; [reflexivity | exact Hlt |].
    apply sqrt_lt_1; assumption.
  - rewrite !Rltb_false; [reflexivity | lra |].
    apply sqrt_le_1; [exact Hb | exact Ha | lra].
Qed.

(** [flip_edge] when nothing is flipped: no other triangle has the edge,
    or the corner opposite the edge lies outside its circle. *)
Lemma flip_edge_unchanged :
  forall calc_circumcentre fuel triags triagidx nonsharedidx eps,
    let triag := nth triagidx triags [] in
    match get_triag_sharing_edge triags
            (tri_get triag ((nonsharedidx + 1) mod List.length triag)%nat)
            (tri_get triag ((nonsharedidx + 2) mod List.length triag)%nat)
            triagidx eps with
    | None => True
    | Some (othertriagidx, _, _, _) =>
        is_conflicting_triag calc_circumcentre (nth othertriagidx triags [])
                             (tri_get triag nonsharedidx) = false
    end ->
    flip_edge calc_circumcentre (S fuel) triags triagidx nonsharedidx eps
    = Some triags.
Proof.
  intros cc fuel triags triagidx nonsharedidx eps triag H.
  subst triag. cbn [flip_edge]. unfold triangle in *.
  destruct (get_triag_sharing_edge triags _ _ triagidx eps)
    as [[[[o os1] os2] ons] |]; [| reflexivity].
  rewrite H. reflexivity.
Qed.

(** [flip_edge] when the edge is flipped and the six calls that follow
    leave the triangles as they are. *)
Lemma flip_edge_once :
  forall calc_circumcentre fuel triags triagidx nonsharedidx eps
         o os1 os2 ons,
    let triag := nth triagidx triags [] in
    let sharedidx1 := ((nonsharedidx + 1) mod List.length triag)%nat in
    let sharedidx2 := ((nonsharedidx + 2) mod List.length triag)%nat in
    get_triag_sharing_edge triags (tri_get triag sharedidx1)
                           (tri_get triag sharedidx2) triagidx eps
      = Some (o, os1, os2, ons) ->
    is_conflicting_triag calc_circumcentre (nth o triags [])
                         (tri_get triag nonsharedidx) = true ->
    let triags1 :=
      set_at triagidx
        [tri_get (nth triagidx triags []) nonsharedidx;
         tri_get (nth o triags []) ons;
         tri_get (nth o triags []) os1] triags in
    let triags2 :=
      set_at o
        [tri_get (nth triagidx triags1 []) nonsharedidx;
         tri_get (nth o triags1 []) ons;
         tri_get (nth o triags1 []) os2] triags1 in
    (forall t i,
       In (t, i) [(o, ons); (o, os1); (o, os2); (triagidx, nonsharedidx);
                  (triagidx, sharedidx1); (triagidx, sharedidx2)] ->
       flip_edge calc_circumcentre fuel triags2 t i eps = Some triags2) ->
    flip_edge calc_circumcentre (S fuel) triags triagidx nonsharedidx eps
    = Some triags2.
Proof.
  intros cc fuel triags triagidx nonsharedidx eps o os1 os2 ons
         triag sharedidx1 sharedidx2 Hshare Hconf triags1 triags2 Hrest.
  subst triag sharedidx1 sharedidx2. cbn [flip_edge].
  unfold triangle in *.
  rewrite Hshare, Hconf. fold triags1. fold triags2.
  do 6 (rewrite Hrest by (cbn; auto 10); cbv beta iota).
  reflexivity.
Qed.

Lemma tri_get_index :
  forall (t : triangle) v,
    List.length t = 3%nat -> In v t ->
    exists k, (k < 3)%nat /\ v = tri_get t k.
Proof.
  intros t v Hl Hv.
  destruct t as [| a [| b [| c [| d r]]]]; try discriminate Hl.
  destruct Hv as [<- | [<- | [<- | []]]];
    [exists 0%nat | exists 1%nat | exists 2%nat]; split; try lia; reflexivity.
Qed.

Lemma perm_three_cases :
  forall a b c k,
    Permutation [a; b; c] [0; 1; 2]%nat -> (k < 3)%nat ->
    k = a \/ k = b \/ k = c.
Proof.
  intros a b c k Hp Hk.
  assert (Hin : In k [a; b; c]).
  { apply (Permutation_in k (Permutation_sym Hp)). cbn. lia. }
  cbn in Hin. intuition.
Qed.

Lemma mod3_perm :
  forall n, (n < 3)%nat ->
    Permutation [n; (n + 1) mod 3; (n + 2) mod 3]%nat [0; 1; 2]%nat.
Proof.
  intros [| [| [| n]]] Hn; try lia; cbn.
  - apply Permutation_refl.
  - apply (perm_trans (l' := [1; 0; 2]%nat));
      [apply perm_skip; apply perm_swap | apply perm_swap].
  - apply (perm_trans (l' := [0; 2; 1]%nat));
      [apply perm_swap | apply perm_skip; apply perm_swap].
Qed.

Section FlipEdgeKeeps.
Variable calc_circumcentre : triangle -> vec.
Variable verts : list vec.
Variable eps : R.
Hypothesis verts_separated : separated eps verts.

(** On points that are pairwise more than eps apart, the corners of the
    two triangles at a flipped edge are the corners of the two triangles
    that replace them, and the later flips keep them too. *)
Lemma flip_edge_keeps_all :
  forall fuel triags triagidx nonsharedidx triags',
    proper_triangles triags ->
    (forall v, corner triags v -> In v verts) ->
    (triagidx < List.length triags)%nat -> (nonsharedidx < 3)%nat ->
    flip_edge calc_circumcentre fuel triags triagidx nonsharedidx eps
      = Some triags' ->
    forall v, corner triags v -> corner triags' v.
Proof.
  induction fuel as [| f IH];
    intros triags triagidx nonsharedidx triags' Hp Hin Hidx Hns H;
    [discriminate |].
  cbn [flip_edge] in H.
  assert (Hlen3 : List.length (nth triagidx triags []) = 3%nat)
    by (apply Hp, nth_In; exact Hidx).
  rewrite Hlen3 in H.
  destruct (get_triag_sharing_edge triags
              (tri_get (nth triagidx triags [])
                       ((nonsharedidx + 1) mod 3)%nat)
              (tri_get (nth triagidx triags [])
                       ((nonsharedidx + 2) mod 3)%nat)
              triagidx eps)
    as [[[[o os1] os2] ons] |] eqn:Hshare;
    [| inversion H; subst; auto].
  destruct (is_conflicting_triag _ _ _);
    [| inversion H; subst; auto].
  unfold get_triag_sharing_edge in Hshare.
  destruct (get_triag_sharing_edge_from_some triags triags 0 _ _ _ _ _ _ _ _
              (fun k => eq_refl) eq_refl Hshare)
    as (Ho & Hne & Hs & _).
  destruct (shares_edge_some _ _ _ _ _ _ _ Hs) as (Hperm & He1 & He2).
  assert (Hos : (os1 < 3 /\ os2 < 3 /\ ons < 3)%nat).
  { assert (Hall : forall x, In x [os1; os2; ons] -> (x < 3)%nat).
    { intros x Hx. apply (Permutation_in _ Hperm) in Hx.
      cbn in Hx. intuition lia. }
    repeat split; apply Hall; cbn; auto. }
  destruct Hos as (Hos1 & Hos2 & Hons).
  assert (Hs1 : ((nonsharedidx + 1) mod 3 < 3)%nat)
    by (apply Nat.mod_upper_bound; lia).
  assert (Hs2 : ((nonsharedidx + 2) mod 3 < 3)%nat)
    by (apply Nat.mod_upper_bound; lia).
  (* the shared corners are the same points in both triangles *)
  assert (Hc1 : tri_get (nth o triags []) os1
                = tri_get (nth triagidx triags [])
                          ((nonsharedidx + 1) mod 3)%nat).
  { apply (separated_vequals eps verts); [exact verts_separated | | | exact He1];
      apply Hin, corner_tri_get; try assumption; exact (proj2 Ho). }
  assert (Hc2 : tri_get (nth o triags []) os2
                = tri_get (nth triagidx triags [])
                          ((nonsharedidx + 2) mod 3)%nat).
  { apply (separated_vequals eps verts); [exact verts_separated | | | exact He2];
      apply Hin, corner_tri_get; try assumption; exact (proj2 Ho). }
  set (P := tri_get (nth triagidx triags []) nonsharedidx) in *.
  set (Q := tri_get (nth o triags []) ons) in *.
  set (S1 := tri_get (nth o triags []) os1) in *.
  set (S2 := tri_get (nth o triags []) os2) in *.
  set (triags1 := set_at triagidx [P; Q; S1] triags) in H.
  assert (Hl1 : List.length triags1 = List.length triags)
    by apply set_at_length.
  assert (Hn1 : nth triagidx triags1 [] = [P; Q; S1])
    by (apply set_at_nth_same; exact Hidx).
  assert (Hn1o : nth o triags1 [] = nth o triags [])
    by (apply set_at_nth_other; exact Hne).
  rewrite Hn1, Hn1o in H. fold Q in H. fold S2 in H.
  set (X := tri_get [P; Q; S1] nonsharedidx) in H.
  set (triags2 := set_at o [X; Q; S2] triags1) in H.
  assert (Hl2 : List.length triags2 = List.length triags)
    by (unfold triags2; rewrite set_at_length; exact Hl1).
  assert (Hn2o : nth o triags2 [] = [X; Q; S2])
    by (apply set_at_nth_same; rewrite Hl1; exact (proj2 Ho)).
  assert (Hn2t : nth triagidx triags2 [] = [P; Q; S1]).
  { unfold triags2. rewrite set_at_nth_other by (intros E; apply Hne; auto).
    exact Hn1. }
  assert (Hn2j : forall j, j <> triagidx -> j <> o ->
                           nth j triags2 [] = nth j triags []).
  { intros j Hjt Hjo. unfold triags2, triags1.
    rewrite !set_at_nth_other by assumption. reflexivity. }
  assert (HcP : corner triags P)
    by (apply corner_tri_get; assumption).
  assert (HcQ : corner triags Q)
    by (apply corner_tri_get; [assumption | exact (proj2 Ho) | assumption]).
  assert (HcS1 : corner triags S1)
    by (apply corner_tri_get; [assumption | exact (proj2 Ho) | assumption]).
  assert (HcS2 : corner triags S2)
    by (apply corner_tri_get; [assumption | exact (proj2 Ho) | assumption]).
  assert (HcX : corner triags X).
  { unfold X. destruct nonsharedidx as [| [| [| n]]]; [| | | lia];
      cbn; assumption. }
  (* what the two assignments leave *)
  assert (Hp2 : proper_triangles triags2).
  { intros t Ht. unfold triags2 in Ht.
    destruct (set_at_In _ _ _ _ _ Ht) as [-> | Ht1]; [reflexivity |].
    unfold triags1 in Ht1.
    destruct (set_at_In _ _ _ _ _ Ht1) as [-> | Ht0];
      [reflexivity | exact (Hp t Ht0)]. }
  assert (Hback2 : forall v, corner triags2 v -> corner triags v).
  { intros v (t & Ht & Hv). unfold triags2 in Ht.
    destruct (set_at_In _ _ _ _ _ Ht) as [-> | Ht1].
    { destruct Hv as [<- | [<- | [<- | []]]]; assumption. }
    unfold triags1 in Ht1.
    destruct (set_at_In _ _ _ _ _ Ht1) as [-> | Ht0].
    { destruct Hv as [<- | [<- | [<- | []]]]; assumption. }
    exists t. split; assumption. }
  assert (Hkeep2 : forall v, corner triags v -> corner triags2 v).
  { intros v (t & Ht & Hv).
    destruct (In_nth _ _ [] Ht) as (j & Hj & Hjt). subst t.
    assert (HinT : forall w, In w [P; Q; S1] -> corner triags2 w).
    { intros w Hw. exists (nth triagidx triags2 []). split.
      - apply nth_In. rewrite Hl2. exact Hidx.
      - rewrite Hn2t. exact Hw. }
    assert (HinO : forall w, In w [X; Q; S2] -> corner triags2 w).
    { intros w Hw. exists (nth o triags2 []). split.
      - apply nth_In. rewrite Hl2. exact (proj2 Ho).
      - rewrite Hn2o. exact Hw. }
    destruct (Nat.eq_dec j triagidx) as [-> | Hjt].
    - destruct (tri_get_index _ v Hlen3 Hv) as (k & Hk & ->).
      destruct (perm_three_cases _ _ _ k (mod3_perm _ Hns) Hk)
        as [-> | [-> | ->]].
      + apply HinT. left. reflexivity.
      + rewrite <- Hc1. apply HinT. right. right. left. reflexivity.
      + rewrite <- Hc2. apply HinO. right. right. left. reflexivity.
    - destruct (Nat.eq_dec j o) as [-> | Hjo].
      + assert (Hlo : List.length (nth o triags []) = 3%nat)
          by (apply Hp, nth_In; exact (proj2 Ho)).
        destruct (tri_get_index _ v Hlo Hv) as (k & Hk & ->).
        destruct (perm_three_cases _ _ _ k Hperm Hk) as [-> | [-> | ->]].
        * apply HinT. right. right. left. reflexivity.
        * apply HinO. right. right. left. reflexivity.
        * apply HinT. right. left. reflexivity.
      + exists (nth j triags2 []). split.
        * apply nth_In. rewrite Hl2. exact Hj.
        * rewrite Hn2j by assumption. exact Hv. }
  clearbody triags2. clear Hn2o Hn2t Hn2j.
  (* the six calls that follow *)
  assert (Hstep :
    forall (o' : option (list triangle)) t i,
      (t < List.length triags)%nat -> (i < 3)%nat ->
      (forall ts, o' = Some ts ->
         List.length ts = List.length triags
         /\ proper_triangles ts
         /\ (forall v, corner ts v -> corner triags v)
         /\ (forall v, corner triags v -> corner ts v)) ->
      forall ts,
        match o' with
        | Some ts0 => flip_edge calc_circumcentre f ts0 t i eps
        | None => None
        end = Some ts ->
        List.length ts = List.length triags
        /\ proper_triangles ts
        /\ (forall v, corner ts v -> corner triags v)
        /\ (forall v, corner triags v -> corner ts v)).
  { intros o' t i Ht Hi Hinv ts Hrun.
    destruct o' as [ts0 |]; [| discriminate].
    destruct (Hinv ts0 eq_refl) as (Hl0 & Hp0 & Hb0 & Hk0).
    destruct (flip_edge_invariant calc_circumcentre f ts0 t i eps ts Hp0
                ltac:(rewrite Hl0; exact Ht) Hi Hrun) as (Hl & Hp' & Hb').
    split; [congruence |]. split; [exact Hp' |].
    split; [intros v Hv; auto |].
    intros v Hv.
    apply (IH ts0 t i ts Hp0 (fun w Hw => Hin w (Hb0 w Hw))
              ltac:(rewrite Hl0; exact Ht) Hi Hrun).
    apply Hk0. exact Hv. }
  assert (Hfinal :
    List.length triags' = List.length triags
    /\ proper_triangles triags'
    /\ (forall v, corner triags' v -> corner triags v)
    /\ (forall v, corner triags v -> corner triags' v)).
  { revert H.
    apply Hstep; [exact Hidx | exact Hs2 |].
    apply Hstep; [exact Hidx | exact Hs1 |].
    apply Hstep; [exact Hidx | exact Hns |].
    apply Hstep; [exact (proj2 Ho) | exact Hos2 |].
    apply Hstep; [exact (proj2 Ho) | exact Hos1 |].
    apply (Hstep (Some triags2)); [exact (proj2 Ho) | exact Hons |].
    intros ts Hts. inversion Hts; subst ts.
    split; [exact Hl2 |]. split; [exact Hp2 |].
    split; [exact Hback2 | exact Hkeep2]. }
  exact (proj2 (proj2 (proj2 Hfinal))).
Qed.
End FlipEdgeKeeps.

(* ------------------------------------------------------------------ *)
(** ** Delaunay triangulation: Voronoi vertices and neighbours *)
(* ------------------------------------------------------------------ *)

Lemma set_insert_In :
  forall x l i, In i (set_insert x l) -> i = x \/ In i l.
Proof.
  intros x l. induction l as [| y r IH]; intros i H; cbn [set_insert] in H.
  - destruct H as [<- | []]. left. reflexivity.
  - destruct (x <? y)%nat.
    + destruct H as [<- | H]; [left; reflexivity | right; exact H].
    + destruct (x =? y)%nat; [right; exact H |].
      destruct H as [<- | H]; [right; left; reflexivity |].
      destruct (IH i H) as [-> | H']; [left; reflexivity | right; right; exact H'].
Qed.

Lemma set_insert_length :
  forall x l, (List.length (set_insert x l) <= S (List.length l))%nat.
Proof.
  intros x l. induction l as [| y r IH]; cbn [set_insert List.length]; [lia |].
  destruct (x <? y)%nat; [cbn [List.length]; lia |].
  destruct (x =? y)%nat; cbn [List.length]; lia.
Qed.

Lemma tri_perm_positions :
  forall (t : triangle) s1 s2 ns,
    List.length t = 3%nat ->
    Permutation [s1; s2; ns] [0; 1; 2]%nat ->
    Permutation t [tri_get t s1; tri_get t s2; tri_get t ns].
Proof.
  intros t s1 s2 ns Hlen Hperm.
  destruct t as [| a [| b [| c [| d r]]]]; try discriminate Hlen.
  assert (Hnd : NoDup [s1; s2; ns]).
  { apply (Permutation_NoDup (Permutation_sym Hperm)).
    repeat constructor; cbn; intuition lia. }
  assert (Hin : forall x, In x [s1; s2; ns] -> (x < 3)%nat).
  { intros x Hx. apply (Permutation_in _ Hperm) in Hx.
    cbn in Hx. intuition lia. }
  assert (H1 : (s1 < 3)%nat) by (apply Hin; cbn; auto).
  assert (H2 : (s2 < 3)%nat) by (apply Hin; cbn; auto).
  assert (H3 : (ns < 3)%nat) by (apply Hin; cbn; auto).
  assert (H12 : s1 <> s2).
  { inversion Hnd as [| x l Hx _]; subst. cbn in Hx. intuition. }
  assert (H13 : s1 <> ns).
  { inversion Hnd as [| x l Hx _]; subst. cbn in Hx. intuition. }
  assert (H23 : s2 <> ns).
  { inversion Hnd as [| x l _ Hnd']; subst.
    inversion Hnd' as [| x' l' Hx _]; subst. cbn in Hx. intuition. }
  clear Hnd Hin Hperm Hlen.
  destruct s1 as [| [| [| s1]]]; try lia;
    destruct s2 as [| [| [| s2]]]; try lia; try contradiction;
    destruct ns as [| [| [| ns]]]; try lia; try contradiction;
    unfold tri_get; cbn [nth];
    first [ apply Permutation_refl
          | apply perm_swap
          | apply perm_skip; apply perm_swap
          | apply (Permutation_rev [a; b; c])
          | apply (perm_trans (l' := [b; a; c]));
            [apply perm_swap | apply perm_skip; apply perm_swap]
          | apply (perm_trans (l' := [a; c; b]));
            [apply perm_skip; apply perm_swap | apply perm_swap] ].
Qed.

Lemma shares_two_corners_found :
  forall (triags : list triangle) vert1 vert2 cur eps i s1 s2 ns,
    proper_triangles triags ->
    get_triag_sharing_edge triags vert1 vert2 cur eps
      = Some (i, s1, s2, ns) ->
    (i < List.length triags)%nat /\ i <> cur
    /\ exists u w rest,
         Permutation (nth i triags []) (u :: w :: rest)
         /\ vequals u vert1 eps = true /\ vequals w vert2 eps = true.
Proof.
  intros triags vert1 vert2 cur eps i s1 s2 ns Hp H.
  unfold get_triag_sharing_edge in H.
  destruct (get_triag_sharing_edge_from_some triags triags 0 _ _ _ _ _ _ _ _
              (fun k => eq_refl) eq_refl H)
    as (Hi & Hne & Hs & _).
  destruct (shares_edge_some _ _ _ _ _ _ _ Hs) as (Hperm & H1 & H2).
  split; [exact (proj2 Hi) |]. split; [exact Hne |].
  exists (tri_get (nth i triags []) s1), (tri_get (nth i triags []) s2),
         [tri_get (nth i triags []) ns].
  split; [| split; assumption].
  apply tri_perm_positions; [| exact Hperm].
  apply Hp, nth_In. exact (proj2 Hi).
Qed.

Lemma sorted_triangle_perm :
  forall t, Permutation (sorted_triangle t) t.
Proof. intros t. apply sort_vertices_by_angle_perm. Qed.

Lemma sorted_triangle_nil : sorted_triangle [] = [].
Proof. reflexivity. Qed.

Lemma shares_two_corners_perm :
  forall eps t1 t1' t2,
    Permutation t1 t1' ->
    shares_two_corners eps t1 t2 -> shares_two_corners eps t1' t2.
Proof.
  intros eps t1 t1' t2 Hp (u & w & rest & x & y & Hperm & H).
  exists u, w, rest, x, y. split; [| exact H].
  apply (perm_trans (Permutation_sym Hp) Hperm).
Qed.

Lemma neighbour_insert_length :
  forall (o : option (nat * nat * nat * nat)) (s : list nat),
    (List.length (match o with
                  | Some (i, _, _, _) => set_insert i s
                  | None => s
                  end) <= S (List.length s))%nat.
Proof.
  intros [[[[i ?] ?] ?] |] s; [apply set_insert_length | lia].
Qed.

Lemma neighbour_insert_In :
  forall (o : option (nat * nat * nat * nat)) (s : list nat) i,
    In i (match o with
          | Some (i0, _, _, _) => set_insert i0 s
          | None => s
          end) ->
    (exists s1 s2 ns, o = Some (i, s1, s2, ns)) \/ In i s.
Proof.
  intros [[[[i0 s1] s2] ns] |] s i H; [| right; exact H].
  destruct (set_insert_In _ _ _ H) as [-> | H'];
    [left; exists s1, s2, ns; reflexivity | right; exact H'].
Qed.

Section DelaunayFinish.
Variable calc_circumcentre : triangle -> vec.
Variable eps : R.

Lemma delaunay_finish_spec :
  forall n (triags : list triangle) idx voronoi neighbours,
    proper_triangles triags ->
    (idx + n = List.length triags)%nat ->
    exists vornew final nbnew,
      delaunay_finish calc_circumcentre eps triags idx n voronoi neighbours
        = (voronoi ++ vornew, final, neighbours ++ nbnew)
      /\ List.length vornew = n
      /\ List.length nbnew = n
      /\ List.length final = List.length triags
      /\ (forall j, nth j final []
                    = if (j <? idx)%nat then nth j triags []
                      else sorted_triangle (nth j triags []))
      /\ (forall j, (j < n)%nat ->
            nth j vornew vzero
            = calc_circumcentre (nth (idx + j) final []))
      /\ (forall j, (j < n)%nat ->
            (List.length (nth j nbnew []) <= 3)%nat
            /\ forall i, In i (nth j nbnew []) ->
                 (i < List.length triags)%nat /\ i <> (idx + j)%nat
                 /\ shares_two_corners eps (nth i final [])
                                       (nth (idx + j) final [])).
Proof.
  induction n as [| n IH]; intros triags idx voronoi neighbours Hp Hlen;
    unfold triangle in *.
  - exists [], triags, []. cbn [delaunay_finish].
    rewrite !app_nil_r.
    split; [reflexivity |]. split; [reflexivity |]. split; [reflexivity |].
    split; [reflexivity |]. split.
    + intros j. destruct (j <? idx)%nat eqn:Hj; [reflexivity |].
      apply Nat.ltb_ge in Hj. rewrite (nth_overflow triags) by lia.
      reflexivity.
    + split; intros j Hj; lia.
  - cbn [delaunay_finish].
    set (triag := fst (sort_vertices_by_angle (nth idx triags []))).
    set (triags1 := set_at idx triag triags).
    assert (Hidx : (idx < List.length triags)%nat) by lia.
    assert (Htriag : triag = sorted_triangle (nth idx triags []))
      by reflexivity.
    assert (Hl1 : List.length triags1 = List.length triags)
      by apply set_at_length.
    assert (Hp1 : proper_triangles triags1).
    { intros t Ht. destruct (set_at_In _ _ _ _ _ Ht) as [-> | Hin].
      - rewrite Htriag.
        rewrite (Permutation_length (sorted_triangle_perm _)).
        apply Hp, nth_In. exact Hidx.
      - apply Hp. exact Hin. }
    match goal with
    | |- context [delaunay_finish _ _ _ _ _ _ (neighbours ++ [?s])] =>
        set (s0 := s)
    end.
    destruct (IH triags1 (S idx) (voronoi ++ [calc_circumcentre triag])
                 (neighbours ++ [s0]) Hp1 ltac:(lia))
      as (vornew & final & nbnew & Hrun & Hlv & Hln & Hlf & Hfinal
          & Hvor & Hnb).
    exists (calc_circumcentre triag :: vornew), final, (s0 :: nbnew).
    assert (Hfinal' :
      forall j, nth j final []
                = if (j <? idx)%nat then nth j triags []
                  else sorted_triangle (nth j triags [])).
    { intros j. rewrite Hfinal.
      destruct (Nat.lt_trichotomy j idx) as [Hlt | [-> | Hgt]].
      - rewrite (proj2 (Nat.ltb_lt j (S idx))) by lia.
        rewrite (proj2 (Nat.ltb_lt j idx)) by lia.
        apply set_at_nth_other. lia.
      - rewrite (proj2 (Nat.ltb_lt idx (S idx))) by lia.
        rewrite Nat.ltb_irrefl.
        unfold triags1. rewrite set_at_nth_same by exact Hidx.
        exact Htriag.
      - rewrite (proj2 (Nat.ltb_ge j (S idx))) by lia.
        rewrite (proj2 (Nat.ltb_ge j idx)) by lia.
        unfold triags1. rewrite set_at_nth_other by lia. reflexivity. }
    assert (Hcur : nth idx final [] = triag).
    { rewrite Hfinal'. rewrite Nat.ltb_irrefl. symmetry. exact Htriag. }
    split.
    { replace (voronoi ++ calc_circumcentre triag :: vornew)
        with ((voronoi ++ [calc_circumcentre triag]) ++ vornew)
        by (rewrite <- app_assoc; reflexivity).
      replace (neighbours ++ s0 :: nbnew)
        with ((neighbours ++ [s0]) ++ nbnew)
        by (rewrite <- app_assoc; reflexivity).
      exact Hrun. }
    split; [cbn [List.length]; congruence |].
    split; [cbn [List.length]; congruence |].
    split; [congruence |].
    split; [exact Hfinal' |].
    split.
    { intros [| j] Hj; cbn [nth].
      - rewrite Nat.add_0_r, Hcur. reflexivity.
      - rewrite (Hvor j ltac:(lia)). f_equal. f_equal. lia. }
    intros [| j] Hj; cbn [nth].
    + rewrite Nat.add_0_r.
      assert (Hlook :
        forall a b i s1 s2 ns,
          (a < 3)%nat -> (b < 3)%nat -> a <> b ->
          get_triag_sharing_edge triags1 (tri_get triag a) (tri_get triag b)
                                 idx eps = Some (i, s1, s2, ns) ->
          (i < List.length triags)%nat /\ i <> idx
          /\ shares_two_corners eps (nth i final []) (nth idx final [])).
      { intros a b i s1 s2 ns Ha Hb Hab Hs.
        destruct (shares_two_corners_found triags1 _ _ _ _ _ _ _ _ Hp1 Hs)
          as (Hi & Hne & u & w & rest & Hperm & Hu & Hw).
        split; [rewrite <- Hl1; exact Hi |]. split; [exact Hne |].
        rewrite Hcur.
        apply (shares_two_corners_perm eps (nth i triags1 [])).
        - rewrite Hfinal.
          destruct (i <? S idx)%nat;
            [apply Permutation_refl
            | apply Permutation_sym, sorted_triangle_perm].
        - exists u, w, rest, a, b. repeat split; assumption. }
      unfold s0.
      split.
      * eapply Nat.le_trans; [apply neighbour_insert_length |].
        apply le_n_S.
        eapply Nat.le_trans; [apply neighbour_insert_length |].
        apply le_n_S.
        eapply Nat.le_trans; [apply neighbour_insert_length |].
        apply Nat.le_refl.
      * intros i Hi.
        apply neighbour_insert_In in Hi.
        destruct Hi as [(s1 & s2 & ns & H3) | Hi];
          [exact (Hlook 1 2 i s1 s2 ns ltac:(lia) ltac:(lia) ltac:(lia) H3)%nat
          |].
        apply neighbour_insert_In in Hi.
        destruct Hi as [(s1 & s2 & ns & H2) | Hi];
          [exact (Hlook 0 2 i s1 s2 ns ltac:(lia) ltac:(lia) ltac:(lia) H2)%nat
          |].
        apply neighbour_insert_In in Hi.
        destruct Hi as [(s1 & s2 & ns & H1) | []].
        exact (Hlook 0 1 i s1 s2 ns ltac:(lia) ltac:(lia) ltac:(lia) H1)%nat.
    + destruct (Hnb j ltac:(lia)) as [Hl Hin].
      split; [exact Hl |].
      intros i Hi. destruct (Hin i Hi) as (H1 & H2 & H3).
      replace (idx + S j)%nat with (S idx + j)%nat by lia.
      split; [rewrite <- Hl1; exact H1 |]. split; [exact H2 | exact H3].
Qed.
End DelaunayFinish.

(* ------------------------------------------------------------------ *)
(** ** Convex hulls: the hull is made of input points *)
(* ------------------------------------------------------------------ *)

Lemma erase_at_In :
  forall (A : Type) (l : list A) k x, In x (erase_at k l) -> In x l.
Proof.
  intros A l. induction l as [| h t IH]; intros k x H; [contradiction |].
  destruct k; cbn [erase_at] in H.
  - right. exact H.
  - destruct H as [H | H]; [left; exact H | right; exact (IH _ _ H)].
Qed.

Lemma insert_at_In :
  forall (A : Type) (l : list A) k x y,
    In y (insert_at k x l) -> y = x \/ In y l.
Proof.
  intros A l. induction l as [| h t IH]; intros k x y H.
  - destruct k; cbn [insert_at] in H; destruct H as [H | []];
      left; symmetry; exact H.
  - destruct k; cbn [insert_at] in H.
    + destruct H as [H | H]; [left; symmetry; exact H | right; exact H].
    + destruct H as [H | H]; [right; left; exact H |].
      destruct (IH _ _ _ H) as [H' | H']; [left | right; right]; exact H'.
Qed.

Lemma insert_at_nonempty :
  forall (A : Type) (l : list A) k x, insert_at k x l <> [].
Proof. intros A [| h t] [| k] x; discriminate. Qed.

Lemma erase_positions_In :
  forall (A : Type) ps (l : list A) pos x,
    In x (erase_positions ps pos l) -> In x l.
Proof.
  intros A ps l. induction l as [| h t IH]; intros pos x H;
    [contradiction |].
  cbn [erase_positions] in H.
  destruct (existsb (Nat.eqb pos) ps).
  - right. exact (IH _ _ H).
  - destruct H as [H | H]; [left; exact H | right; exact (IH _ _ H)].
Qed.

Lemma circ_erase_In :
  forall (A : Type) (l : list A) a b x,
    In x (fst (circ_erase l a b)) -> In x l.
Proof.
  intros A l a b x H. unfold circ_erase in H. cbn [fst] in H.
  exact (erase_positions_In _ _ _ _ _ H).
Qed.

Lemma circ_get_In :
  forall (A : Type) (d : A) (l : list A) it,
    l <> [] -> In (circ_get d l it) l.
Proof.
  intros A d l it Hl. unfold circ_get. apply nth_In.
  unfold circ_pos.
  assert (Hn : (0 < Z.of_nat (List.length l))%Z)
    by (destruct l; [contradiction | cbn [List.length]; lia]).
  pose proof (Z.mod_pos_bound it _ Hn). lia.
Qed.

Lemma insert_sorted_In :
  forall (A : Type) (lt : A -> A -> bool) x l y,
    In y (insert_sorted lt x l) -> y = x \/ In y l.
Proof.
  intros A lt x l y H.
  apply (Permutation_in _ (insert_sorted_perm A lt x l)) in H.
  destruct H as [H | H]; [left; symmetry; exact H | right; exact H].
Qed.

Lemma insert_sorted_nonempty :
  forall (A : Type) (lt : A -> A -> bool) x l, insert_sorted lt x l <> [].
Proof.
  intros A lt x [| y r]; cbn [insert_sorted]; [discriminate |].
  destruct (lt x y); discriminate.
Qed.

Lemma remove_duplicates_fold_incl :
  forall eps l kept x,
    In x (fold_left (fun kept v =>
                       if existsb (fun w => vequals w v eps) kept then kept
                       else kept ++ [v]) l kept) ->
    In x kept \/ In x l.
Proof.
  intros eps l. induction l as [| v r IH]; intros kept x H;
    cbn [fold_left] in H; [left; exact H |].
  destruct (IH _ _ H) as [Hk | Hr]; [| right; right; exact Hr].
  destruct (existsb _ kept); [left; exact Hk |].
  apply in_app_or in Hk. destruct Hk as [Hk | [<- | []]];
    [left; exact Hk | right; left; reflexivity].
Qed.

Lemma remove_duplicates_incl :
  forall eps l x, In x (_remove_duplicates l eps) -> In x l.
Proof.
  intros eps l x H. unfold _remove_duplicates in H.
  destruct (remove_duplicates_fold_incl eps l [] x H) as [[] | H'].
  exact H'.
Qed.

Lemma remove_duplicates_fold_nonempty :
  forall eps l kept,
    kept <> [] ->
    fold_left (fun kept v =>
                 if existsb (fun w => vequals w v eps) kept then kept
                 else kept ++ [v]) l kept <> [].
Proof.
  intros eps l. induction l as [| v r IH]; intros kept Hk;
    cbn [fold_left]; [exact Hk |].
  apply IH. destruct (existsb _ kept); [exact Hk |].
  destruct kept; discriminate.
Qed.

Lemma remove_duplicates_nonempty :
  forall eps l, l <> [] -> _remove_duplicates l eps <> [].
Proof.
  intros eps [| v r] Hl; [contradiction |].
  unfold _remove_duplicates. cbn [fold_left existsb app].
  apply remove_duplicates_fold_nonempty. discriminate.
Qed.

Lemma hull_insert_In :
  forall vert_in_hull hull newvert x,
    In x (hull_insert vert_in_hull hull newvert) ->
    x = newvert \/ In x hull.
Proof.
  intros vert_in_hull hull newvert x H. unfold hull_insert in H.
  destruct (is_vert_in_hull hull newvert (Some vert_in_hull))
    as [[already i1] i2].
  destruct already; [right; exact H |].
  destruct (visible_chain hull newvert i1 i2) as [lo up].
  destruct (lo + 1 <? up)%Z.
  - destruct (circ_erase hull (lo + 1) up) as [hull' pos] eqn:He.
    destruct (insert_at_In _ _ _ _ _ H) as [H' | H']; [left; exact H' |].
    right. apply (circ_erase_In _ hull (lo + 1)%Z up). rewrite He. exact H'.
  - destruct (insert_at_In _ _ _ _ _ H) as [H' | H'];
      [left; exact H' | right; exact H'].
Qed.

Lemma hull_insert_nonempty :
  forall vert_in_hull hull newvert,
    hull <> [] -> hull_insert vert_in_hull hull newvert <> [].
Proof.
  intros vert_in_hull hull newvert Hh. unfold hull_insert.
  destruct (is_vert_in_hull hull newvert (Some vert_in_hull))
    as [[already i1] i2].
  destruct already; [exact Hh |].
  destruct (visible_chain hull newvert i1 i2) as [lo up].
  destruct (lo + 1 <? up)%Z.
  - destruct (circ_erase hull (lo + 1) up) as [hull' pos].
    apply insert_at_nonempty.
  - apply insert_at_nonempty.
Qed.

Lemma hull_insert_fold :
  forall vert_in_hull vs hull,
    (forall x, In x (fold_left (hull_insert vert_in_hull) vs hull) ->
               In x hull \/ In x vs)
    /\ (hull <> [] -> fold_left (hull_insert vert_in_hull) vs hull <> []).
Proof.
  intros vert_in_hull vs. induction vs as [| v r IH]; intros hull;
    cbn [fold_left].
  - split; [intros x H; left; exact H | intros H; exact H].
  - destruct (IH (hull_insert vert_in_hull hull v)) as [Hin Hne]. split.
    + intros x H. destruct (Hin x H) as [H' | H']; [| right; right; exact H'].
      destruct (hull_insert_In _ _ _ _ H') as [-> | H''];
        [right; left; reflexivity | left; exact H''].
    + intros Hh. apply Hne. apply hull_insert_nonempty. exact Hh.
Qed.

(** The hull returned by [calc_hull_iterative] consists of input points
    only, and it is not empty unless the input is. *)
Theorem calc_hull_iterative_of_input :
  forall verts eps,
    (forall v, In v (calc_hull_iterative verts eps) -> In v verts)
    /\ (verts <> [] -> calc_hull_iterative verts eps <> []).
Proof.
  intros verts eps. unfold calc_hull_iterative.
  set (dedup := _remove_duplicates verts eps).
  assert (Hd : forall v, In v dedup -> In v verts)
    by (intros v; apply remove_duplicates_incl).
  assert (Hn : verts <> [] -> dedup <> [])
    by (apply remove_duplicates_nonempty).
  destruct (List.length dedup <=? 3)%nat eqn:Hlen; [split; assumption |].
  apply Nat.leb_gt in Hlen.
  destruct (sort_vertices_by_angle (firstn 3 dedup)) as [hull m] eqn:Hs.
  assert (Hp : Permutation hull (firstn 3 dedup)).
  { replace hull with (fst (sort_vertices_by_angle (firstn 3 dedup)))
      by (rewrite Hs; reflexivity).
    apply sort_vertices_by_angle_perm. }
  destruct (hull_insert_fold m (skipn 3 dedup) hull) as [Hin Hne]. split.
  - intros v Hv. apply Hd.
    rewrite <- (firstn_skipn 3 dedup). apply in_or_app.
    destruct (Hin v Hv) as [H | H]; [left | right; exact H].
    exact (Permutation_in _ Hp H).
  - intros _. apply Hne. intros ->.
    apply Permutation_length in Hp. rewrite length_firstn in Hp.
    cbn [List.length] in Hp. lia.
Qed.

Lemma bintree_insert_In :
  forall vert_in_hull hull newvert x,
    In x (map fst (bintree_insert vert_in_hull hull newvert)) ->
    x = newvert \/ In x (map fst hull).
Proof.
  intros vert_in_hull hull newvert x H. unfold bintree_insert in H.
  destruct (bintree_is_in_hull vert_in_hull hull newvert)
    as [[already i1] i2].
  destruct already; [right; exact H |].
  destruct (visible_chain (map fst hull) newvert i1 i2) as [lo up].
  apply in_map_iff in H. destruct H as (p & <- & Hp).
  destruct (insert_sorted_In _ _ _ _ _ Hp) as [-> | Hp'];
    [left; reflexivity | right].
  apply in_map.
  destruct (0 <? up - (lo + 1))%Z; [| exact Hp'].
  exact (circ_erase_In _ _ _ _ _ Hp').
Qed.

Lemma bintree_insert_nonempty :
  forall vert_in_hull hull newvert,
    hull <> [] -> bintree_insert vert_in_hull hull newvert <> [].
Proof.
  intros vert_in_hull hull newvert Hh. unfold bintree_insert.
  destruct (bintree_is_in_hull vert_in_hull hull newvert)
    as [[already i1] i2].
  destruct already; [exact Hh |].
  destruct (visible_chain (map fst hull) newvert i1 i2) as [lo up].
  apply insert_sorted_nonempty.
Qed.

Lemma bintree_insert_fold :
  forall vert_in_hull vs hull,
    (forall x, In x (map fst (fold_left (bintree_insert vert_in_hull)
                                        vs hull)) ->
               In x (map fst hull) \/ In x vs)
    /\ (hull <> [] -> fold_left (bintree_insert vert_in_hull) vs hull <> []).
Proof.
  intros vert_in_hull vs. induction vs as [| v r IH]; intros hull;
    cbn [fold_left].
  - split; [intros x H; left; exact H | intros H; exact H].
  - destruct (IH (bintree_insert vert_in_hull hull v)) as [Hin Hne]. split.
    + intros x H. destruct (Hin x H) as [H' | H']; [| right; right; exact H'].
      destruct (bintree_insert_In _ _ _ _ H') as [-> | H''];
        [right; left; reflexivity | left; exact H''].
    + intros Hh. apply Hne. apply bintree_insert_nonempty. exact Hh.
Qed.

Lemma bintree_hull_of_input :
  forall verts eps,
    (forall v, In v (calc_hull_iterative_bintree verts eps) -> In v verts)
    /\ (verts <> [] -> calc_hull_iterative_bintree verts eps <> []).
Proof.
  intros verts eps. unfold calc_hull_iterative_bintree.
  set (dedup := _remove_duplicates verts eps).
  assert (Hd : forall v, In v dedup -> In v verts)
    by (intros v; apply remove_duplicates_incl).
  assert (Hn : verts <> [] -> dedup <> [])
    by (apply remove_duplicates_nonempty).
  destruct (List.length dedup <=? 3)%nat eqn:Hlen; [split; assumption |].
  apply Nat.leb_gt in Hlen.
  set (m := vmean (firstn 3 dedup)).
  set (start := fold_left _ (firstn 3 dedup) []).
  assert (Hp : Permutation start
                 (map (fun v => (v, line_angle m v)) (firstn 3 dedup))).
  { unfold start.
    assert (Hgen : forall l acc,
      Permutation
        (fold_left (fun h v => insert_sorted node_lt (v, line_angle m v) h)
                   l acc)
        (acc ++ map (fun v => (v, line_angle m v)) l)).
    { induction l as [| v r IH]; intros acc; cbn [fold_left map].
      - rewrite app_nil_r. apply Permutation_refl.
      - eapply Permutation_trans; [apply IH |].
        eapply Permutation_trans;
          [apply Permutation_app_tail, insert_sorted_perm |].
        cbn [app]. apply Permutation_middle. }
    apply (Hgen (firstn 3 dedup) []). }
  destruct (bintree_insert_fold m (skipn 3 dedup) start) as [Hin Hne]. split.
  - intros v Hv. apply Hd.
    rewrite <- (firstn_skipn 3 dedup). apply in_or_app.
    destruct (Hin v Hv) as [H | H]; [left | right; exact H].
    apply (Permutation_in _ (Permutation_map fst Hp)) in H.
    rewrite map_map in H. cbn [fst] in H. rewrite map_id in H. exact H.
  - intros _. intros Hmap. apply map_eq_nil in Hmap. revert Hmap.
    apply Hne. intros Hs. rewrite Hs in Hp.
    apply Permutation_length in Hp.
    rewrite length_map, length_firstn in Hp. cbn [List.length] in Hp. lia.
Qed.

(** The hull returned by [calc_hull_iterative_bintree] consists of input
    points only, and it is not empty unless the input is. *)
Theorem calc_hull_iterative_bintree_of_input :
  forall verts eps,
    (forall v, In v (calc_hull_iterative_bintree verts eps) -> In v verts)
    /\ (verts <> [] -> calc_hull_iterative_bintree verts eps <> []).
Proof. exact bintree_hull_of_input. Qed.

(* ------------------------------------------------------------------ *)
(** ** Convex hulls: the test for a vertex inside the hull *)
(* ------------------------------------------------------------------ *)

Lemma Rltb_spec : forall x y, Rltb x y = true <-> x < y.
Proof.
  intros x y. unfold Rltb. destruct (Rlt_dec x y); split; intros H;
    solve [assumption | reflexivity | discriminate | contradiction].
Qed.

Lemma Rleb_spec : forall x y, Rleb x y = true <-> x <= y.
Proof.
  intros x y. unfold Rleb. destruct (Rle_dec x y); split; intros H;
    solve [assumption | reflexivity | discriminate | contradiction].
Qed.

Lemma is_vert_in_hull_from_spec :
  forall rest hull idx newvert centre,
    rest = skipn idx hull ->
    (idx <= List.length hull)%nat ->
    (is_vert_in_hull_from hull rest idx newvert centre = (true, 0, 0)%nat
     /\ forall i, (idx <= i < List.length hull)%nat ->
                  ~ beyond_hull_edge centre hull newvert i)
    \/ exists i,
         is_vert_in_hull_from hull rest idx newvert centre
           = (false, i, S i mod List.length hull)%nat
         /\ (idx <= i < List.length hull)%nat
         /\ beyond_hull_edge centre hull newvert i
         /\ forall j, (idx <= j < i)%nat ->
                      ~ beyond_hull_edge centre hull newvert j.
Proof.
  induction rest as [| hullvert1 rest IH];
    intros hull idx newvert centre Hrest Hidx.
  - left. split; [reflexivity |].
    intros i Hi. exfalso.
    assert (Hl : List.length (skipn idx hull) = 0%nat)
      by (rewrite <- Hrest; reflexivity).
    rewrite length_skipn in Hl. lia.
  - assert (Hlt : (idx < List.length hull)%nat).
    { assert (Hl : List.length (skipn idx hull) = S (List.length rest))
        by (rewrite <- Hrest; reflexivity).
      rewrite length_skipn in Hl. lia. }
    assert (Hv1 : hullvert1 = nth idx hull vzero).
    { rewrite <- (firstn_skipn idx hull) at 1.
      rewrite app_nth2 by (rewrite length_firstn; lia).
      rewrite length_firstn, Nat.min_l by lia.
      rewrite Nat.sub_diag, <- Hrest. reflexivity. }
    assert (Hrest' : rest = skipn (S idx) hull).
    { replace (S idx) with (1 + idx)%nat by lia.
      rewrite <- skipn_skipn, <- Hrest. reflexivity. }
    assert (Hnext :
      (if (List.length hull <=? S idx)%nat then 0%nat else S idx)
      = (S idx mod List.length hull)%nat).
    { destruct (List.length hull <=? S idx)%nat eqn:Hc.
      - apply Nat.leb_le in Hc.
        replace (S idx) with (List.length hull) by lia.
        symmetry. apply Nat.Div0.mod_same.
      - apply Nat.leb_gt in Hc. symmetry. apply Nat.mod_small. exact Hc. }
    cbn [is_vert_in_hull_from]. rewrite Hnext, Hv1.
    destruct (Rltb 0 (side_of_line centre (nth idx hull vzero) newvert)
              && Rleb (side_of_line centre
                         (nth (S idx mod List.length hull) hull vzero)
                         newvert) 0
              && Rltb (side_of_line (nth idx hull vzero)
                         (nth (S idx mod List.length hull) hull vzero)
                         newvert) 0) eqn:Htest.
    + right. exists idx.
      split; [reflexivity |]. split; [lia |]. split; [| intros j Hj; lia].
      apply andb_true_iff in Htest. destruct Htest as [Htest H3].
      apply andb_true_iff in Htest. destruct Htest as [H1 H2].
      unfold beyond_hull_edge. cbv zeta.
      split; [apply Rltb_spec; exact H1 |].
      split; [apply Rleb_spec; exact H2 | apply Rltb_spec; exact H3].
    + assert (Hnot : ~ beyond_hull_edge centre hull newvert idx).
      { intros (H1 & H2 & H3).
        apply Rltb_spec in H1. apply Rleb_spec in H2. apply Rltb_spec in H3.
        rewrite H1, H2, H3 in Htest. discriminate. }
      destruct (IH hull (S idx) newvert centre Hrest' ltac:(lia))
        as [[Hr Hall] | (i & Hr & Hi & Hb & Hmin)].
      * left. split; [exact Hr |].
        intros i Hi. destruct (Nat.eq_dec i idx) as [-> | Hne];
          [exact Hnot | apply Hall; lia].
      * right. exists i. split; [exact Hr |]. split; [lia |].
        split; [exact Hb |].
        intros j Hj. destruct (Nat.eq_dec j idx) as [-> | Hne];
          [exact Hnot | apply Hmin; lia].
Qed.

(** [is_vert_in_hull] goes through the hull edges in order and stops at
    the first one beyond which the new vertex lies: it then reports
    "outside" with the positions of the two ends of that edge, which are
    neighbours on the closed hull.  When there is no such edge (also for
    an empty hull) it reports "inside" with both positions 0. *)
Theorem is_vert_in_hull_first_edge :
  forall hull newvert vert_in_hull,
    let centre :=
      match vert_in_hull with Some m => m | None => vmean hull end in
    (is_vert_in_hull hull newvert vert_in_hull = (true, 0, 0)%nat
     /\ forall i, (i < List.length hull)%nat ->
                  ~ beyond_hull_edge centre hull newvert i)
    \/ exists i,
         is_vert_in_hull hull newvert vert_in_hull
           = (false, i, S i mod List.length hull)%nat
         /\ (i < List.length hull)%nat
         /\ beyond_hull_edge centre hull newvert i
         /\ forall j, (j < i)%nat ->
                      ~ beyond_hull_edge centre hull newvert j.
Proof.
  intros hull newvert vert_in_hull centre. unfold is_vert_in_hull.
  fold centre.
  destruct (is_vert_in_hull_from_spec hull hull 0 newvert centre
              eq_refl (Nat.le_0_l _))
    as [[Hr Hall] | (i & Hr & Hi & Hb & Hmin)].
  - left. split; [exact Hr |]. intros i Hi. apply Hall. lia.
  - right. exists i. split; [exact Hr |]. split; [lia |].
    split; [exact Hb |]. intros j Hj. apply Hmin. lia.
Qed.

(* ------------------------------------------------------------------ *)
(** ** Delaunay triangulation: the insertion loop *)
(* ------------------------------------------------------------------ *)

Section DelaunayInsert.
Variable calc_circumcentre : triangle -> vec.
Variable get_containing_triag : list triangle -> vec -> option nat.
Variable U : vec -> Prop.
Variable fuel : nat.
Variable eps : R.

(** The triangles are proper and, when [get_containing_triag] behaves,
    their corners are points of [U]. *)
Let good (triags : list triangle) : Prop :=
  proper_triangles triags
  /\ (valid_containing get_containing_triag ->
      forall v, corner triags v -> U v).

Lemma good_flip_edge :
  forall triags triagidx triags',
    good triags ->
    (triagidx < List.length triags)%nat ->
    flip_edge calc_circumcentre fuel triags triagidx 0 eps = Some triags' ->
    good triags' /\ List.length triags' = List.length triags.
Proof.
  intros triags triagidx triags' [Hp Hc] Hidx H.
  destruct (flip_edge_invariant calc_circumcentre fuel triags triagidx 0 eps
              triags' Hp Hidx ltac:(lia) H) as (Hl & Hp' & Hc').
  split; [| exact Hl]. split; [exact Hp' |].
  intros Hv v Hcv. apply (Hc Hv). apply Hc'. exact Hcv.
Qed.

Lemma good_snoc :
  forall triags a b c,
    good triags -> U a -> U b -> U c -> good (triags ++ [[a; b; c]]).
Proof.
  intros triags a b c [Hp Hc] Ha Hb Hc'. split.
  - intros t Ht. apply in_app_or in Ht.
    destruct Ht as [Ht | [<- | []]]; [exact (Hp t Ht) | reflexivity].
  - intros Hv v (t & Ht & Hin). apply in_app_or in Ht.
    destruct Ht as [Ht | [<- | []]].
    + apply (Hc Hv). exists t. split; assumption.
    + destruct Hin as [<- | [<- | [<- | []]]]; assumption.
Qed.

Lemma good_visible_fold :
  forall newvert (visible : list vec) l o res,
    U newvert ->
    (forall v, In v visible -> U v) ->
    (forall visidx, In visidx l -> (S visidx < List.length visible)%nat) ->
    (forall t, o = Some t -> good t) ->
    fold_left
      (fun (o : option (list triangle)) (visidx : nat) =>
         match o with
         | None => None
         | Some triags =>
             flip_edge calc_circumcentre fuel
               (triags ++ [[newvert; nth visidx visible vzero;
                            nth (S visidx) visible vzero]])
               (List.length
                  (triags ++ [[newvert; nth visidx visible vzero;
                               nth (S visidx) visible vzero]]) - 1) 0 eps
         end) l o = Some res ->
    good res.
Proof.
  intros newvert visible l. induction l as [| visidx r IH];
    intros o res Hn Hvis Hl Ho H; cbn [fold_left] in H.
  - apply Ho. exact H.
  - apply (IH _ res Hn Hvis (fun k Hk => Hl k (or_intror Hk))) in H;
      [exact H |].
    intros t Ht. destruct o as [triags |]; [| discriminate].
    assert (Hg : good (triags ++ [[newvert; nth visidx visible vzero;
                                   nth (S visidx) visible vzero]])).
    { apply good_snoc; [apply Ho; reflexivity | exact Hn | |];
        apply Hvis, nth_In; specialize (Hl visidx (or_introl eq_refl)); lia. }
    apply (good_flip_edge _ _ _ Hg) in Ht; [exact (proj1 Ht) |].
    rewrite length_app. cbn [List.length]. lia.
Qed.

Lemma delaunay_insert_good :
  forall triags curverts newvert triags' curverts',
    good triags ->
    (forall v, In v curverts -> U v) ->
    U newvert ->
    delaunay_insert calc_circumcentre get_containing_triag fuel eps
                    (triags, curverts) newvert
      = Some (triags', curverts') ->
    good triags' /\ (forall v, In v curverts' -> U v).
Proof.
  intros triags curverts newvert triags' curverts' Hg Hcur Hn H.
  assert (Hcur' : forall v, In v (curverts ++ [newvert]) -> U v).
  { intros v Hv. apply in_app_or in Hv.
    destruct Hv as [Hv | [<- | []]]; [exact (Hcur v Hv) | exact Hn]. }
  unfold delaunay_insert in H.
  destruct (get_containing_triag triags newvert) as [idx |] eqn:Hcont.
  - set (conttriag := nth idx triags []) in H.
    set (triags0 := erase_at idx triags ++ _) in H.
    assert (Hg0 : good triags0).
    { destruct Hg as [Hp Hc]. split.
      - intros t Ht. unfold triags0 in Ht. apply in_app_or in Ht.
        destruct Ht as [Ht | Ht].
        + apply Hp. exact (erase_at_In _ _ _ _ Ht).
        + destruct Ht as [<- | [<- | [<- | []]]]; reflexivity.
      - intros Hv v (t & Ht & Hin).
        assert (Hidx : (idx < List.length triags)%nat)
          by exact (Hv _ _ _ Hcont).
        assert (Hcorner : forall k, (k < 3)%nat -> U (tri_get conttriag k)).
        { intros k Hk. apply (Hc Hv).
          apply corner_tri_get; assumption. }
        unfold triags0 in Ht. apply in_app_or in Ht.
        destruct Ht as [Ht | Ht].
        + apply (Hc Hv). exists t.
          split; [exact (erase_at_In _ _ _ _ Ht) | exact Hin].
        + destruct Ht as [<- | [<- | [<- | []]]];
            destruct Hin as [<- | [<- | [<- | []]]];
            first [exact Hn | apply Hcorner; lia]. }
    assert (Hl0 : (3 <= List.length triags0)%nat).
    { unfold triags0. rewrite length_app. cbn [List.length]. lia. }
    clearbody triags0.
    match type of H with
    | context [flip_edge ?c ?f ?t ?i ?z ?e] =>
        destruct (flip_edge c f t i z e) as [triags1 |] eqn:H1;
          [| discriminate]
    end.
    destruct (good_flip_edge triags0 (List.length triags0 - 3) triags1 Hg0
                ltac:(unfold triangle in *; lia) H1) as [Hg1 Hl1].
    match type of H with
    | context [flip_edge ?c ?f ?t ?i ?z ?e] =>
        destruct (flip_edge c f t i z e) as [triags2 |] eqn:H2;
          [| discriminate]
    end.
    destruct (good_flip_edge triags1 (List.length triags1 - 2) triags2 Hg1
                ltac:(unfold triangle in *; lia) H2) as [Hg2 Hl2].
    match type of H with
    | context [flip_edge ?c ?f ?t ?i ?z ?e] =>
        destruct (flip_edge c f t i z e) as [triags3 |] eqn:H3;
          [| discriminate]
    end.
    destruct (good_flip_edge triags2 (List.length triags2 - 1) triags3 Hg2
                ltac:(unfold triangle in *; lia) H3) as [Hg3 Hl3].
    inversion H; subst triags' curverts'. split; assumption.
  - set (hull := fst (sort_vertices_by_angle
                        (calc_hull_iterative_bintree curverts eps))) in H.
    assert (Hhull : forall v, In v hull -> U v).
    { intros v Hv. apply Hcur.
      apply (proj1 (bintree_hull_of_input curverts eps)).
      exact (Permutation_in _ (sort_vertices_by_angle_perm _) Hv). }
    destruct (is_vert_in_hull hull newvert None) as [[already i1] i2] eqn:Hin.
    destruct already.
    { inversion H; subst triags' curverts'. split; [exact Hg | exact Hcur]. }
    assert (Hne : hull <> []).
    { intros Hnil. rewrite Hnil in Hin. discriminate Hin. }
    destruct (visible_chain hull newvert i1 i2) as [lo up].
    set (visible := map _ _) in H.
    assert (Hvis : forall v, In v visible -> U v).
    { intros v Hv. unfold visible in Hv. apply in_map_iff in Hv.
      destruct Hv as (k & <- & _). apply Hhull.
      apply circ_get_In. exact Hne. }
    clearbody visible.
    destruct visible as [| v0 visible]; [discriminate |].
    destruct (fold_left _ _ (Some triags)) as [triags1 |] eqn:Hfold;
      [| discriminate].
    inversion H; subst triags' curverts'. split; [| exact Hcur'].
    refine (good_visible_fold newvert (v0 :: visible) _ (Some triags) triags1
              Hn Hvis _ _ Hfold).
    + intros visidx Hk. apply in_seq in Hk.
      cbn [List.length] in *. lia.
    + intros t Ht. inversion Ht; subst t. exact Hg.
Qed.

Lemma delaunay_fold_good :
  forall vs triags curverts triags' curverts',
    good triags ->
    (forall v, In v curverts -> U v) ->
    (forall v, In v vs -> U v) ->
    fold_left
      (fun (o : option (list triangle * list vec)) newvert =>
         match o with
         | Some st =>
             delaunay_insert calc_circumcentre get_containing_triag
                             fuel eps st newvert
         | None => None
         end) vs (Some (triags, curverts))
      = Some (triags', curverts') ->
    good triags'.
Proof.
  induction vs as [| v r IH];
    intros triags curverts triags' curverts' Hg Hcur Hvs H;
    cbn [fold_left] in H.
  - inversion H; subst. exact Hg.
  - destruct (delaunay_insert calc_circumcentre get_containing_triag fuel eps
                (triags, curverts) v) as [[triags1 curverts1] |] eqn:Hins.
    + destruct (delaunay_insert_good _ _ _ _ _ Hg Hcur
                  (Hvs v (or_introl eq_refl)) Hins) as [Hg1 Hcur1].
      exact (IH _ _ _ _ Hg1 Hcur1 (fun x Hx => Hvs x (or_intror Hx)) H).
    + exfalso. clear -H. induction r as [| x r IHr]; cbn [fold_left] in H;
        [discriminate | exact (IHr H)].
Qed.
End DelaunayInsert.

Lemma delaunay_three_points :
  forall calc_circumcentre get_containing_triag fuel verts eps,
    List.length verts = 3%nat ->
    calc_delaunay_iterative calc_circumcentre get_containing_triag
                            fuel verts eps
    = Some ([calc_circumcentre (sorted_triangle verts)],
            [sorted_triangle verts], [[]]).
Proof.
  intros cc gct fuel verts eps Hlen.
  destruct verts as [| a [| b [| c [| d r]]]]; try discriminate Hlen.
  unfold calc_delaunay_iterative.
  cbn [List.length Nat.ltb Nat.leb firstn skipn fold_left].
  cbn [delaunay_finish nth set_at app].
  unfold get_triag_sharing_edge.
  cbn [get_triag_sharing_edge_from Nat.eqb].
  reflexivity.
Qed.

Lemma delaunay_result :
  forall calc_circumcentre get_containing_triag fuel verts eps
         voronoi triags neighbours,
    calc_delaunay_iterative calc_circumcentre get_containing_triag
                            fuel verts eps
      = Some (voronoi, triags, neighbours) ->
    List.length voronoi = List.length triags
    /\ List.length neighbours = List.length triags
    /\ proper_triangles triags
    /\ (forall k, (k < List.length triags)%nat ->
          nth k voronoi vzero = calc_circumcentre (nth k triags []))
    /\ (forall k, (k < List.length triags)%nat ->
          (List.length (nth k neighbours []) <= 3)%nat
          /\ forall i, In i (nth k neighbours []) ->
               (i < List.length triags)%nat /\ i <> k
               /\ shares_two_corners eps (nth i triags []) (nth k triags []))
    /\ (valid_containing get_containing_triag ->
        forall t v, In t triags -> In v t -> In v verts).
Proof.
  intros cc gct fuel verts eps voronoi triags neighbours H.
  unfold calc_delaunay_iterative in H.
  destruct (List.length verts <? 3)%nat eqn:Hlen.
  { inversion H; subst. cbn [List.length].
    split; [reflexivity |]. split; [reflexivity |].
    split; [intros t [] |].
    split; [intros k Hk; lia |]. split; [intros k Hk; lia |].
    intros _ t v []. }
  apply Nat.ltb_ge in Hlen.
  destruct (fold_left _ (skipn 3 verts) _) as [[triags0 curverts] |] eqn:Hfold;
    [| discriminate].
  assert (Hgood :
    proper_triangles triags0
    /\ (valid_containing gct ->
        forall v, corner triags0 v -> In v verts)).
  { apply (delaunay_fold_good cc gct (fun v => In v verts) fuel eps
             (skipn 3 verts) [firstn 3 verts] (firstn 3 verts)
             triags0 curverts); [| | | exact Hfold].
    - split.
      + intros t [<- | []]. rewrite length_firstn. lia.
      + intros _ v (t & [<- | []] & Hv).
        rewrite <- (firstn_skipn 3 verts). apply in_or_app. left. exact Hv.
    - intros v Hv.
      rewrite <- (firstn_skipn 3 verts). apply in_or_app. left. exact Hv.
    - intros v Hv.
      rewrite <- (firstn_skipn 3 verts). apply in_or_app. right. exact Hv. }
  destruct Hgood as [Hp Hc].
  destruct (delaunay_finish_spec cc eps (List.length triags0) triags0 0 [] []
              Hp eq_refl)
    as (vornew & final & nbnew & Hrun & Hlv & Hln & Hlf & Hfinal
        & Hvor & Hnb).
  rewrite Hrun in H. cbn [app] in H.
  inversion H; subst voronoi triags neighbours. clear H.
  assert (Hsorted : forall j, nth j final []
                              = sorted_triangle (nth j triags0 [])).
  { intros j. rewrite Hfinal. reflexivity. }
  split; [congruence |]. split; [congruence |].
  split.
  { intros t Ht. destruct (In_nth _ _ [] Ht) as (j & Hj & <-).
    rewrite Hsorted.
    rewrite (Permutation_length (sorted_triangle_perm _)).
    apply Hp, nth_In. rewrite <- Hlf. exact Hj. }
  split.
  { intros k Hk. rewrite Hlf in Hk. exact (Hvor k Hk). }
  split.
  { intros k Hk. rewrite Hlf in Hk.
    destruct (Hnb k Hk) as [Hl Hin]. split; [exact Hl |].
    intros i Hi. destruct (Hin i Hi) as (H1 & H2 & H3).
    split; [rewrite Hlf; exact H1 |]. split; [exact H2 | exact H3]. }
  intros Hv t v Ht Hin.
  destruct (In_nth _ _ [] Ht) as (j & Hj & <-).
  rewrite Hsorted in Hin.
  apply (Hc Hv). exists (nth j triags0 []).
  split; [apply nth_In; rewrite <- Hlf; exact Hj |].
  exact (Permutation_in _ (sorted_triangle_perm _) Hin).
Qed.

Lemma clockwise_triangle_delaunay :
  calc_delaunay_iterative (fun _ => vzero) (fun _ _ => None)
                          0 clockwise_triangle hull_eps
  = Some ([vzero], [sorted_triangle clockwise_triangle], [[]]).
Proof.
  exact (delaunay_three_points (fun _ => vzero) (fun _ _ => None) 0%nat
           clockwise_triangle hull_eps eq_refl).
Qed.

(* ------------------------------------------------------------------ *)
(** ** Delaunay triangulation: five points *)
(* ------------------------------------------------------------------ *)

(** The run of [calc_delaunay_iterative] on the corners of a triangle and
    two points inside it, with the circumcentre and the search for the
    containing triangle modelled above. *)
Ltac unfold_five := unfold five_a, five_b, five_c, five_e, five_f.

Ltac eval_sharing :=
  unfold get_triag_sharing_edge;
  cbn [get_triag_sharing_edge_from Nat.eqb];
  unfold shares_edge, tri_get; cbn [nth];
  unfold_five; unfold delaunay_eps; eval_vequals; cbn [andb].

Ltac eval_conflict :=
  unfold is_conflicting_triag; rewrite Rltb_norm;
  unfold circumcentre, tri_get, vsub; cbn [nth vx vy];
  unfold_five; cbn [vx vy];
  first [ rewrite Rltb_true by lra | rewrite Rltb_false by lra ].

Ltac eval_corner_idx :=
  cbn [nth List.length Nat.add Nat.modulo Nat.divmod fst snd Nat.sub].

Ltac flip_unchanged T :=
  apply flip_edge_unchanged; cbv zeta; unfold T;
  eval_corner_idx; eval_sharing;
  first [ exact I | eval_corner_idx; eval_conflict; reflexivity ].

Lemma four_points_flips :
  forall fuel k, (k < 3)%nat ->
    flip_edge circumcentre (S fuel) four_points_triangles k 0 delaunay_eps
    = Some four_points_triangles.
Proof.
  intros fuel k Hk.
  destruct k as [| [| [| k]]]; [| | | lia];
    flip_unchanged four_points_triangles.
Qed.

Lemma five_points_first_flip :
  forall fuel,
    flip_edge circumcentre (S fuel) five_points_split 2 0 delaunay_eps
    = Some five_points_split.
Proof. intros fuel. flip_unchanged five_points_split. Qed.

Lemma five_points_flipped_stable :
  forall fuel t i,
    In (t, i) [(1, 1); (1, 0); (1, 2); (3, 0); (3, 1); (3, 2); (4, 0)]%nat ->
    flip_edge circumcentre (S fuel) five_points_flipped t i delaunay_eps
    = Some five_points_flipped.
Proof.
  intros fuel t i Hin. cbn [In] in Hin.
  repeat (destruct Hin as [Hin | Hin];
          [inversion Hin; subst t i; flip_unchanged five_points_flipped |]);
  contradiction.
Qed.

Lemma five_points_second_flip :
  forall fuel,
    flip_edge circumcentre (S (S fuel)) five_points_split 3 0 delaunay_eps
    = Some five_points_flipped.
Proof.
  intros fuel.
  apply (flip_edge_once circumcentre (S fuel) five_points_split 3 0
           delaunay_eps 1 0 2 1).
  - cbv zeta. unfold five_points_split. eval_corner_idx. eval_sharing.
    reflexivity.
  - cbv zeta. unfold five_points_split. eval_corner_idx. eval_conflict.
    reflexivity.
  - intros t i Hin. apply five_points_flipped_stable.
    cbn [In] in *. unfold five_points_split in Hin.
    cbn [nth List.length Nat.add Nat.modulo Nat.divmod fst snd Nat.sub] in Hin.
    intuition.
Qed.

Ltac eval_sorted_triangle mx my :=
  unfold sorted_triangle, sort_vertices_by_angle;
  unfold_five;
  match goal with
  | |- context [vmean ?l] =>
      replace (vmean l) with (mkvec mx my)
        by (unfold vmean, vdiv, vadd, vzero; simpl; f_equal; field)
  end;
  cbn [fst]; unfold stable_sort;
  cbn [fold_left insert_sorted];
  angle_normal_forms; eval_angle_compare; cbn [insert_sorted];
  angle_normal_forms; eval_angle_compare; cbn [insert_sorted];
  reflexivity.

Lemma five_points_sorted_0 :
  sorted_triangle [five_e; five_a; five_b] = [five_a; five_b; five_e].
Proof. eval_sorted_triangle (- (1 / 3)) (1 / 3). Qed.

Lemma five_points_sorted_1 :
  sorted_triangle [five_f; five_a; five_c] = [five_a; five_f; five_c].
Proof. eval_sorted_triangle (- (4 / 3)) 4. Qed.

Lemma five_points_sorted_2 :
  sorted_triangle [five_f; five_e; five_b] = [five_e; five_b; five_f].
Proof. eval_sorted_triangle 1 (5 / 3). Qed.

Lemma five_points_sorted_3 :
  sorted_triangle [five_f; five_a; five_e] = [five_a; five_e; five_f].
Proof. eval_sorted_triangle (- (5 / 3)) (5 / 3). Qed.

Lemma five_points_sorted_4 :
  sorted_triangle [five_f; five_b; five_c] = [five_b; five_c; five_f].
Proof. eval_sorted_triangle (4 / 3) 4. Qed.

Lemma delaunay_finish_step :
  forall calc_circumcentre eps triags triagidx n voronoi neighbours,
    delaunay_finish calc_circumcentre eps triags triagidx (S n)
                    voronoi neighbours
    = let triag := sorted_triangle (nth triagidx triags []) in
      let triags' := set_at triagidx triag triags in
      let look i j :=
        get_triag_sharing_edge triags' (tri_get triag i) (tri_get triag j)
                               triagidx eps in
      let ins (o : option (nat * nat * nat * nat)) (s : list nat) :=
        match o with
        | Some (i, _, _, _) => set_insert i s
        | None => s
        end in
      delaunay_finish calc_circumcentre eps triags' (S triagidx) n
        (voronoi ++ [calc_circumcentre triag])
        (neighbours
           ++ [ins (look 1 2) (ins (look 0 2) (ins (look 0 1) []))])%nat.
Proof. reflexivity. Qed.

Ltac finish_step Hsorted :=
  rewrite delaunay_finish_step; cbv zeta;
  cbn [nth]; rewrite Hsorted; cbn [set_at tri_get nth];
  eval_sharing;
  cbn [set_insert Nat.ltb Nat.leb Nat.eqb app];
  fold five_a five_b five_c five_e five_f.

Lemma five_points_circumcentres :
  circumcentre [five_a; five_b; five_e] = mkvec 0 (-7)
  /\ circumcentre [five_a; five_f; five_c] = mkvec (-6) 6
  /\ circumcentre [five_e; five_b; five_f] = mkvec (7 / 4) (7 / 4)
  /\ circumcentre [five_a; five_e; five_f] = mkvec (- (7 / 2)) (7 / 2)
  /\ circumcentre [five_b; five_c; five_f] = mkvec 6 6.
Proof.
  unfold circumcentre, tri_get. cbn [nth]. unfold_five. cbn [vx vy].
  repeat split; f_equal; field.
Qed.

Lemma five_points_finish :
  delaunay_finish circumcentre delaunay_eps five_points_flipped 0 5 [] []
  = (five_points_voronoi, five_points_triangles, five_points_neighbours).
Proof.
  destruct five_points_circumcentres as (C0 & C1 & C2 & C3 & C4).
  unfold five_points_flipped.
  finish_step five_points_sorted_0. rewrite C0.
  finish_step five_points_sorted_1. rewrite C1.
  finish_step five_points_sorted_2. rewrite C2.
  finish_step five_points_sorted_3. rewrite C3.
  finish_step five_points_sorted_4. rewrite C4.
  reflexivity.
Qed.

Lemma containing_triag_from_bound :
  forall triags pt idx r,
    containing_triag_from triags pt idx = Some r ->
    (idx <= r < idx + List.length triags)%nat.
Proof.
  induction triags as [| t rest IH]; intros pt idx r H;
    cbn [containing_triag_from] in H; [discriminate |].
  destruct (inside_triangle t pt).
  - inversion H; subst r. cbn [List.length]. lia.
  - apply IH in H. cbn [List.length]. lia.
Qed.

Lemma containing_triag_valid : valid_containing containing_triag.
Proof.
  intros triags v idx H. unfold containing_triag in H.
  apply containing_triag_from_bound in H. lia.
Qed.

Ltac eval_containing :=
  unfold containing_triag;
  cbn [containing_triag_from];
  unfold inside_triangle, side_of_line, tri_get; cbn [nth];
  unfold_five; cbn [vx vy];
  eval_compare; cbn [andb orb].

Lemma four_points_containing :
  containing_triag [[five_a; five_b; five_c]] five_e = Some 0%nat.
Proof. eval_containing. reflexivity. Qed.

Lemma five_points_containing :
  containing_triag four_points_triangles five_f = Some 2%nat.
Proof. unfold four_points_triangles. eval_containing. reflexivity. Qed.

Lemma four_points_insert :
  forall fuel,
    delaunay_insert circumcentre containing_triag (S fuel) delaunay_eps
      ([[five_a; five_b; five_c]], [five_a; five_b; five_c]) five_e
    = Some (four_points_triangles, [five_a; five_b; five_c; five_e]).
Proof.
  intros fuel. unfold delaunay_insert.
  rewrite four_points_containing.
  cbn [nth erase_at app tri_get List.length Nat.sub].
  change [[five_e; five_a; five_b]; [five_e; five_a; five_c];
          [five_e; five_b; five_c]] with four_points_triangles.
  change (List.length four_points_triangles) with 3%nat.
  cbn [Nat.sub].
  rewrite (four_points_flips fuel 0) by lia.
  change (List.length four_points_triangles) with 3%nat.
  cbn [Nat.sub].
  rewrite (four_points_flips fuel 1) by lia.
  change (List.length four_points_triangles) with 3%nat.
  cbn [Nat.sub].
  rewrite (four_points_flips fuel 2) by lia.
  reflexivity.
Qed.

Lemma five_points_insert :
  forall fuel,
    delaunay_insert circumcentre containing_triag (S (S fuel)) delaunay_eps
      (four_points_triangles, [five_a; five_b; five_c; five_e]) five_f
    = Some (five_points_flipped, five_points).
Proof.
  intros fuel. unfold delaunay_insert.
  rewrite five_points_containing.
  unfold four_points_triangles at 1 2.
  cbn [nth erase_at app tri_get List.length Nat.sub].
  change [[five_e; five_a; five_b]; [five_e; five_a; five_c];
          [five_f; five_e; five_b]; [five_f; five_e; five_c];
          [five_f; five_b; five_c]] with five_points_split.
  change (List.length five_points_split) with 5%nat.
  cbn [Nat.sub].
  rewrite five_points_first_flip.
  change (List.length five_points_split) with 5%nat.
  cbn [Nat.sub].
  rewrite five_points_second_flip.
  change (List.length five_points_flipped) with 5%nat.
  cbn [Nat.sub].
  rewrite (five_points_flipped_stable (S fuel) 4 0) by (cbn; auto 10).
  reflexivity.
Qed.

(** The triangulation of the five points: the second inner point is
    found in the third triangle, that triangle is split, and the edge
    between (-1,1) and (0,8) is flipped. *)
Lemma five_points_delaunay :
  forall fuel,
    calc_delaunay_iterative circumcentre containing_triag (S (S fuel))
                            five_points delaunay_eps
    = Some (five_points_voronoi, five_points_triangles,
            five_points_neighbours).
Proof.
  intros fuel. unfold calc_delaunay_iterative, five_points.
  cbn [List.length Nat.ltb Nat.leb firstn skipn fold_left].
  rewrite four_points_insert, five_points_insert.
  change (List.length five_points_flipped) with 5%nat.
  rewrite five_points_finish. reflexivity.
Qed.

Lemma five_points_separated : separated delaunay_eps five_points.
Proof.
  unfold five_points, delaunay_eps. unfold_five. prove_separated.
Qed.

Lemma five_points_split_proper : proper_triangles five_points_split.
Proof.
  intros t Ht. unfold five_points_split in Ht. cbn [In] in Ht.
  repeat (destruct Ht as [<- | Ht]; [reflexivity |]). contradiction.
Qed.

Lemma five_points_split_corners :
  forall v, corner five_points_split v -> In v five_points.
Proof.
  intros v (t & Ht & Hv). unfold five_points_split in Ht. cbn [In] in Ht.
  unfold five_points.
  repeat (destruct Ht as [<- | Ht];
          [cbn [In] in Hv; cbn [In]; intuition |]).
  contradiction.
Qed.


(** Three points give one triangle, the three points sorted by angle,
    with its circumcentre as the only Voronoi vertex and no neighbour. *)
Theorem delaunay_of_three_points :
  forall calc_circumcentre get_containing_triag fuel verts eps,
    List.length verts = 3%nat ->
    calc_delaunay_iterative calc_circumcentre get_containing_triag
                            fuel verts eps
    = Some ([calc_circumcentre (sorted_triangle verts)],
            [sorted_triangle verts], [[]]).
Proof. exact delaunay_three_points. Qed.

Lemma delaunay_of_three_points_witness :
  List.length clockwise_triangle = 3%nat
  /\ calc_delaunay_iterative (fun _ => vzero) (fun _ _ => None)
                             0 clockwise_triangle hull_eps
     = Some ([vzero], [sorted_triangle clockwise_triangle], [[]]).
Proof.
  split; [reflexivity |].
  apply (delaunay_of_three_points (fun _ => vzero) (fun _ _ => None)
           0%nat clockwise_triangle hull_eps).
  reflexivity.
Defined.

(** Whatever [calc_delaunay_iterative] returns is consistent: there is
    one Voronoi vertex and one neighbour set per triangle, every triangle
    has three corners, the Voronoi vertex at a position is the
    circumcentre of the triangle at that position, and a neighbour set
    holds at most three positions of other triangles, each sharing two
    corners (within eps) with the triangle. *)
Theorem delaunay_result_consistent :
  forall calc_circumcentre get_containing_triag fuel verts eps
         voronoi triags neighbours,
    calc_delaunay_iterative calc_circumcentre get_containing_triag
                            fuel verts eps
      = Some (voronoi, triags, neighbours) ->
    List.length voronoi = List.length triags
    /\ List.length neighbours = List.length triags
    /\ proper_triangles triags
    /\ (forall k, (k < List.length triags)%nat ->
          nth k voronoi vzero = calc_circumcentre (nth k triags []))
    /\ (forall k, (k < List.length triags)%nat ->
          (List.length (nth k neighbours []) <= 3)%nat
          /\ forall i, In i (nth k neighbours []) ->
               (i < List.length triags)%nat /\ i <> k
               /\ shares_two_corners eps (nth i triags [])
                                     (nth k triags [])).
Proof.
  intros cc gct fuel verts eps voronoi triags neighbours H.
  destruct (delaunay_result cc gct fuel verts eps voronoi triags neighbours H)
    as (H1 & H2 & H3 & H4 & H5 & _).
  split; [exact H1 |]. split; [exact H2 |]. split; [exact H3 |].
  split; [exact H4 | exact H5].
Qed.

Lemma delaunay_result_consistent_witness :
  calc_delaunay_iterative circumcentre containing_triag 2 five_points
                          delaunay_eps
    = Some (five_points_voronoi, five_points_triangles,
            five_points_neighbours)
  /\ List.length five_points_voronoi = List.length five_points_triangles
  /\ List.length five_points_neighbours = List.length five_points_triangles
  /\ proper_triangles five_points_triangles
  /\ (forall k, (k < List.length five_points_triangles)%nat ->
        nth k five_points_voronoi vzero
        = circumcentre (nth k five_points_triangles []))
  /\ (forall k, (k < List.length five_points_triangles)%nat ->
        (List.length (nth k five_points_neighbours []) <= 3)%nat
        /\ forall i, In i (nth k five_points_neighbours []) ->
             (i < List.length five_points_triangles)%nat /\ i <> k
             /\ shares_two_corners delaunay_eps
                  (nth i five_points_triangles [])
                  (nth k five_points_triangles [])).
Proof.
  split; [exact (five_points_delaunay 0) |].
  apply (delaunay_result_consistent circumcentre containing_triag 2%nat
           five_points delaunay_eps).
  exact (five_points_delaunay 0).
Defined.

(** When [get_containing_triag] returns positions of the vector of
    triangles, every corner of every triangle that
    [calc_delaunay_iterative] returns is one of the input points. *)
Theorem delaunay_corners_of_input :
  forall calc_circumcentre get_containing_triag fuel verts eps
         voronoi triags neighbours,
    valid_containing get_containing_triag ->
    calc_delaunay_iterative calc_circumcentre get_containing_triag
                            fuel verts eps
      = Some (voronoi, triags, neighbours) ->
    forall t v, In t triags -> In v t -> In v verts.
Proof.
  intros cc gct fuel verts eps voronoi triags neighbours Hv H.
  destruct (delaunay_result cc gct fuel verts eps voronoi triags neighbours H)
    as (_ & _ & _ & _ & _ & H6).
  exact (H6 Hv).
Qed.

Lemma delaunay_corners_of_input_witness :
  valid_containing containing_triag
  /\ containing_triag four_points_triangles five_f = Some 2%nat
  /\ calc_delaunay_iterative circumcentre containing_triag 2 five_points
                             delaunay_eps
     = Some (five_points_voronoi, five_points_triangles,
             five_points_neighbours)
  /\ forall t v, In t five_points_triangles -> In v t -> In v five_points.
Proof.
  split; [exact containing_triag_valid |].
  split; [exact five_points_containing |].
  split; [exact (five_points_delaunay 0) |].
  apply (delaunay_corners_of_input circumcentre containing_triag 2%nat
           five_points delaunay_eps five_points_voronoi
           five_points_triangles five_points_neighbours).
  - exact containing_triag_valid.
  - exact (five_points_delaunay 0).
Defined.

(** [flip_edge] only re-arranges corners: whenever it returns, the vector
    has as many triangles as before, each with three corners, and every
    corner is a corner of a triangle that was there before.  When the
    corners are points that are pairwise more than eps apart, every
    corner of a triangle that was there before is still a corner of some
    triangle: no point is dropped. *)
Theorem flip_edge_keeps_corners :
  forall calc_circumcentre fuel triags triagidx nonsharedidx eps triags',
    proper_triangles triags ->
    (triagidx < List.length triags)%nat -> (nonsharedidx < 3)%nat ->
    flip_edge calc_circumcentre fuel triags triagidx nonsharedidx eps
      = Some triags' ->
    List.length triags' = List.length triags
    /\ proper_triangles triags'
    /\ (forall v, corner triags' v -> corner triags v)
    /\ (forall verts,
          separated eps verts ->
          (forall v, corner triags v -> In v verts) ->
          forall v, corner triags v -> corner triags' v).
Proof.
  intros cc fuel triags triagidx nonsharedidx eps triags' Hp Hidx Hns H.
  destruct (flip_edge_invariant cc fuel triags triagidx nonsharedidx eps
              triags' Hp Hidx Hns H) as (Hl & Hp' & Hb).
  split; [exact Hl |]. split; [exact Hp' |]. split; [exact Hb |].
  intros verts Hsep Hin.
  exact (flip_edge_keeps_all cc verts eps Hsep fuel triags triagidx
           nonsharedidx triags' Hp Hin Hidx Hns H).
Qed.

Lemma flip_edge_keeps_corners_witness :
  proper_triangles five_points_split
  /\ flip_edge circumcentre 2 five_points_split 3 0 delaunay_eps
     = Some five_points_flipped
  /\ five_points_flipped <> five_points_split
  /\ List.length five_points_flipped = List.length five_points_split
  /\ proper_triangles five_points_flipped
  /\ (forall v, corner five_points_flipped v -> corner five_points_split v)
  /\ (forall v, corner five_points_split v -> corner five_points_flipped v).
Proof.
  split; [exact five_points_split_proper |].
  split; [exact (five_points_second_flip 0) |].
  split.
  { intros E. unfold five_points_flipped, five_points_split in E.
    inversion E as [[E1 E2]]. unfold five_e, five_f in E1. lra. }
  destruct (flip_edge_keeps_corners circumcentre 2%nat five_points_split
              3%nat 0%nat delaunay_eps five_points_flipped
              five_points_split_proper ltac:(cbn; lia) ltac:(lia)
              (five_points_second_flip 0)) as (Hl & Hp & Hb & Hk).
  split; [exact Hl |]. split; [exact Hp |]. split; [exact Hb |].
  exact (Hk five_points five_points_separated five_points_split_corners).
Defined.

Lemma two_triangles_proper : proper_triangles two_triangles.
Proof. intros t [<- | [<- | []]]; reflexivity. Qed.

(* ------------------------------------------------------------------ *)
(** ** Voronoi diagram: the roadmap graph *)
(* ------------------------------------------------------------------ *)

Lemma norm_vsub_sym : forall a b, norm (vsub a b) = norm (vsub b a).
Proof.
  intros a b. unfold norm, vsub. cbn [vx vy]. f_equal. ring.
Qed.

Lemma am_add_edge_pair_distances :
  forall vertices (g : AdjacencyMatrix R) i0 i1,
    weights_are_distances vertices g ->
    weights_are_distances vertices
      (am_add_edge
         (am_add_edge g i0 i1
            (norm (vsub (nth i1 vertices vzero) (nth i0 vertices vzero))))
         i1 i0
         (norm (vsub (nth i1 vertices vzero) (nth i0 vertices vzero)))).
Proof.
  intros vertices g i0 i1 Hw. unfold am_add_edge, am_num.
  destruct ((i0 <? List.length (am_idents g))%nat
            && (i1 <? List.length (am_idents g))%nat) eqn:HG;
    cbn [am_idents]; rewrite (andb_comm (i1 <? _)%nat), HG; [| exact Hw].
  intros a b w. cbn [am_weight].
  destruct ((a =? i1)%nat && (b =? i0)%nat) eqn:E1.
  - apply andb_true_iff in E1. destruct E1 as [Ea Eb].
    apply Nat.eqb_eq in Ea. apply Nat.eqb_eq in Eb. subst a b.
    intros H. inversion H. apply norm_vsub_sym.
  - destruct ((a =? i0)%nat && (b =? i1)%nat) eqn:E2.
    + apply andb_true_iff in E2. destruct E2 as [Ea Eb].
      apply Nat.eqb_eq in Ea. apply Nat.eqb_eq in Eb. subst a b.
      intros H. inversion H. reflexivity.
    + apply Hw.
Qed.

Section RoadmapWeights.
Variable discretize : vec -> t_line -> R -> list vec -> list vec.
Variable pt_inside_poly : list t_line -> vec -> nat -> nat -> R -> bool.
Variable lines : list t_line.
Variable line_groups : list (nat * nat).
Variable remove_in_regions : bool.
Variable edge_eps : R.
Variable vd : voronoi_diagram.

Let step :=
  @voro_edge_step (AdjacencyMatrix R) _ discretize pt_inside_poly lines
                  line_groups remove_in_regions edge_eps vd.
Let vertices0 := voro_vertices edge_eps vd.

Lemma emit_bisector_graph :
  forall e v0 v1 (st : voro_state (AdjacencyMatrix R)),
    vs_graph (emit_bisector discretize lines edge_eps vd e v0 v1 st)
    = vs_graph st.
Proof.
  intros e v0 v1 st. unfold emit_bisector.
  repeat match goal with
  | |- vs_graph (if ?c then _ else _) = _ => destruct c
  | |- vs_graph (match ?x with _ => _ end) = _ => destruct x
  end; reflexivity.
Qed.

Lemma voro_edge_step_distances :
  forall st e,
    weights_are_distances vertices0 (vs_graph st) ->
    weights_are_distances vertices0 (vs_graph (step st e)).
Proof.
  intros st e Hw. unfold step, voro_edge_step.
  destruct (is_secondary e); [exact Hw |].
  destruct (skipped_by_groups _ _ _ _ _ _ _ _ _); [exact Hw |].
  set (v0 := get_vertex_idx (vorovertices vd) (vertex0 e)).
  set (v1 := get_vertex_idx (vorovertices vd) (vertex1 e)).
  assert (Hst1 : weights_are_distances vertices0
            (vs_graph
               match v0, v1 with
               | Some i0, Some i1 =>
                   mkvstate
                     (AddEdgeIdx
                        (AddEdgeIdx (vs_graph st) i0 i1
                           (norm (vsub (nth i1 (voro_vertices edge_eps vd) vzero)
                                       (nth i0 (voro_vertices edge_eps vd) vzero))))
                        i1 i0
                        (norm (vsub (nth i1 (voro_vertices edge_eps vd) vzero)
                                    (nth i0 (voro_vertices edge_eps vd) vzero))))
                     (vs_linear st) (vs_parabolic st)
               | _, _ => st
               end)).
  { destruct v0 as [i0 |]; [| exact Hw].
    destruct v1 as [i1 |]; [| exact Hw].
    cbn [AddEdgeIdx AdjacencyMatrix_graph vs_graph].
    apply (am_add_edge_pair_distances vertices0). exact Hw. }
  destruct (is_finite e && negb (is_some v0 && is_some v1)); [exact Hst1 |].
  rewrite emit_bisector_graph. exact Hst1.
Qed.

Lemma voro_edges_done_distances :
  weights_are_distances vertices0
    (vs_graph
       (@voro_edges_done (AdjacencyMatrix R) _ discretize pt_inside_poly
          lines line_groups remove_in_regions edge_eps vd)).
Proof.
  unfold voro_edges_done. fold step.
  assert (Hinit : weights_are_distances vertices0
            (vs_graph
               (mkvstate (@voro_initial_graph (AdjacencyMatrix R) _ vd)
                         [] []))).
  { unfold voro_initial_graph, vorovertices. rewrite add_vertices_graph.
    intros i j w H. discriminate H. }
  revert Hinit.
  generalize (mkvstate (@voro_initial_graph (AdjacencyMatrix R) _ vd) [] []).
  induction (vd_edges vd) as [| e r IH]; intros st Hst; cbn [fold_left].
  - exact Hst.
  - apply IH. apply voro_edge_step_distances. exact Hst.
Qed.
End RoadmapWeights.

Lemma calc_voro_without_groups :
  forall construct discretize pt_inside_poly lines line_groups
         remove_in_regions edge_eps,
    line_groups = [] ->
    @calc_voro (AdjacencyMatrix R) _ construct discretize pt_inside_poly
               lines line_groups remove_in_regions edge_eps
    = let vd := construct (voro_input lines edge_eps) in
      let st := voro_edges_done discretize pt_inside_poly lines line_groups
                  remove_in_regions edge_eps vd in
      Some (voro_vertices edge_eps vd, vs_linear st, vs_parabolic st,
            vs_graph st).
Proof. intros until 1. subst line_groups. reflexivity. Qed.

Lemma calc_voro_with_groups :
  forall construct discretize pt_inside_poly lines line_groups
         remove_in_regions edge_eps,
    line_groups <> [] ->
    @calc_voro (AdjacencyMatrix R) _ construct discretize pt_inside_poly
               lines line_groups remove_in_regions edge_eps
    = let vd := construct (voro_input lines edge_eps) in
      let st := voro_edges_done discretize pt_inside_poly lines line_groups
                  remove_in_regions edge_eps vd in
      let graph := vs_graph st in
      let verts :=
        map (GetVertexIdent graph) (seq 0 (GetNumVertices graph)) in
      let run := remove_isolated verts 0 graph [] in
      match remove_vertex_coords (rev (snd run)) (voro_vertices edge_eps vd)
                                 (vs_linear st) (vs_parabolic st) with
      | Some (vertices', lin, par) => Some (vertices', lin, par, fst run)
      | None => None
      end.
Proof.
  intros construct discretize pt_inside_poly lines line_groups
         remove_in_regions edge_eps Hne.
  destruct line_groups as [| grp rest]; [contradiction |].
  unfold calc_voro. cbv zeta.
  destruct (remove_isolated _ _ _ _) as [graph' removed]. reflexivity.
Qed.

Section CalcVoroGraph.
Variable construct : list (Z * Z * Z * Z) -> voronoi_diagram.
Variable discretize : vec -> t_line -> R -> list vec -> list vec.
Variable pt_inside_poly : list t_line -> vec -> nat -> nat -> R -> bool.
Variable lines : list t_line.
Variable line_groups : list (nat * nat).
Variable remove_in_regions : bool.
Variable edge_eps : R.

Let vd := construct (voro_input lines edge_eps).
Let n := List.length (vd_vertices vd).
Let st :=
  @voro_edges_done (AdjacencyMatrix R) _ discretize pt_inside_poly lines
    line_groups remove_in_regions edge_eps vd.
Let vertices0 := voro_vertices edge_eps vd.

(** The result of [calc_voro] in terms of the state after the loop over
    the edges: the positions [K] of the vertices that are kept. *)
Lemma calc_voro_restricts :
  exists K lin par (graph : AdjacencyMatrix R),
    calc_voro construct discretize pt_inside_poly lines line_groups
              remove_in_regions edge_eps
      = Some (map (fun k => nth k vertices0 vzero) K, lin, par, graph)
    /\ am_restricts (vs_graph st) graph K
    /\ (forall k, In k K -> (k < n)%nat)
    /\ linear_valid (List.length K) lin
    /\ parabolic_valid (List.length K) par
    /\ (line_groups = [] -> K = seq 0 n).
Proof.
  pose proof (voro_edges_done_invariant discretize pt_inside_poly lines
                line_groups remove_in_regions edge_eps vd)
    as (Hid & Hsym & Hlin & Hpar).
  fold st n in Hid, Hsym, Hlin, Hpar.
  set (g0 := vs_graph st) in *.
  assert (Hnum : am_num g0 = n).
  { unfold am_num. rewrite Hid, length_map, length_seq. reflexivity. }
  assert (Hid0 : am_idents g0 = map vertex_ident (seq 0 (am_num g0)))
    by (rewrite Hnum; exact Hid).
  assert (Hlen0 : List.length vertices0 = n).
  { unfold vertices0, voro_vertices. rewrite length_map. reflexivity. }
  assert (Hcase : line_groups = [] \/ line_groups <> [])
    by (destruct line_groups; [left; reflexivity | right; discriminate]).
  destruct Hcase as [Hgroups | Hgroups].
  - exists (seq 0 n), (vs_linear st), (vs_parabolic st), g0.
    rewrite length_seq.
    split.
    { rewrite (calc_voro_without_groups _ _ _ _ _ _ _ Hgroups). cbv zeta.
      fold vd. fold st. fold vertices0.
      rewrite <- Hlen0, map_nth_seq. reflexivity. }
    split; [rewrite <- Hnum; apply am_restricts_self; exact Hid0 |].
    split; [intros k Hk; apply in_seq in Hk; lia |].
    split; [exact Hlin |]. split; [exact Hpar | reflexivity].
  - set (iso := am_isolated g0).
    set (K := filter (fun k => negb (iso k)) (seq 0 n)).
    assert (Hverts :
      map (GetVertexIdent g0) (seq 0 (GetNumVertices g0))
      = map vertex_ident (seq 0 n)).
    { cbn [GetVertexIdent GetNumVertices AdjacencyMatrix_graph].
      unfold am_num. rewrite map_nth_seq. exact Hid. }
    destruct (remove_isolated_spec g0 Hsym (am_num g0) 0 g0 [])
      as [Hgraph Hremoved].
    { lia. }
    { cbn [seq filter app]. apply am_restricts_self. exact Hid0. }
    cbv beta in Hgraph. rewrite Hnum in Hgraph, Hremoved.
    fold iso in Hgraph, Hremoved.
    fold K in Hgraph. cbn [app] in Hremoved.
    set (run := remove_isolated (map vertex_ident (seq 0 n)) 0 g0 []) in *.
    destruct (remove_vertex_coords_spec (rev (snd run)) vertices0
                (vs_linear st) (vs_parabolic st))
      as (lin' & par' & Hrun & Hlin' & Hpar').
    { rewrite Hremoved, Hlen0. apply desc_below_rev_filter. }
    { rewrite Hlen0. exact Hlin. }
    { rewrite Hlen0. exact Hpar. }
    assert (Hvertices :
      @erase_all vec (rev (snd run)) vertices0
      = map (fun k => nth k vertices0 vzero) K).
    { rewrite Hremoved. rewrite <- Hlen0 at 1. rewrite erase_all_filter.
      rewrite (combine_seq_filter vec (fun k => negb (iso k)) vzero
                 vertices0 0).
      rewrite Hlen0. fold K. apply map_ext. intros k.
      rewrite Nat.sub_0_r. reflexivity. }
    rewrite Hvertices in Hrun, Hlin', Hpar'.
    rewrite length_map in Hlin', Hpar'.
    exists K, lin', par', (fst run).
    split.
    { rewrite (calc_voro_with_groups _ _ _ _ _ _ _ Hgroups). cbv zeta.
      fold vd. fold st. fold vertices0. fold g0. rewrite Hverts. fold run.
      rewrite Hrun. reflexivity. }
    split; [exact Hgraph |].
    split.
    { intros k Hk. unfold K in Hk. apply filter_In in Hk.
      destruct Hk as [Hk _]. apply in_seq in Hk. lia. }
    split; [exact Hlin' |]. split; [exact Hpar' |].
    intros Hnil. contradiction.
Qed.
End CalcVoroGraph.

(** [calc_voro] always returns, and the roadmap graph it returns is
    undirected and weighted with distances: an edge from [i] to [j] of
    weight [w] comes with an edge from [j] to [i] of the same weight, and
    [w] is the distance between the returned vertices [i] and [j]. *)
Theorem roadmap_graph_undirected :
  forall (construct : list (Z * Z * Z * Z) -> voronoi_diagram)
         (discretize : vec -> t_line -> R -> list vec -> list vec)
         (pt_inside_poly : list t_line -> vec -> nat -> nat -> R -> bool)
         (lines : list t_line) (line_groups : list (nat * nat))
         (remove_in_regions : bool) (edge_eps : R),
  exists vertices lin par (graph : AdjacencyMatrix R),
    calc_voro construct discretize pt_inside_poly lines line_groups
              remove_in_regions edge_eps
      = Some (vertices, lin, par, graph)
    /\ forall i j w,
         GetWeight graph i j = Some w ->
         GetWeight graph j i = Some w
         /\ w = norm (vsub (nth j vertices vzero) (nth i vertices vzero)).
Proof.
  intros construct discretize pt_inside_poly lines line_groups
         remove_in_regions edge_eps.
  destruct (calc_voro_restricts construct discretize pt_inside_poly lines
              line_groups remove_in_regions edge_eps)
    as (K & lin & par & graph & Hres & [Hid Hw] & HK & _).
  set (vd := construct (voro_input lines edge_eps)) in *.
  set (vertices0 := voro_vertices edge_eps vd) in *.
  set (g0 := vs_graph _) in *.
  pose proof (voro_edges_done_invariant discretize pt_inside_poly lines
                line_groups remove_in_regions edge_eps vd)
    as (_ & Hsym & _ & _).
  fold g0 in Hsym.
  pose proof (voro_edges_done_distances discretize pt_inside_poly lines
                line_groups remove_in_regions edge_eps vd) as Hdist.
  fold g0 vertices0 in Hdist.
  exists (map (fun k => nth k vertices0 vzero) K), lin, par, graph.
  split; [exact Hres |].
  assert (Hnum : am_num graph = List.length K)
    by (unfold am_num; rewrite Hid, length_map; reflexivity).
  assert (Hnth : forall a, (a < List.length K)%nat ->
            nth a (map (fun k => nth k vertices0 vzero) K) vzero
            = nth (nth a K 0%nat) vertices0 vzero).
  { intros a Ha.
    rewrite (nth_indep _ vzero (nth 0 vertices0 vzero))
      by (rewrite length_map; exact Ha).
    apply (map_nth (fun k => nth k vertices0 vzero)). }
  intros i j w H.
  cbn [GetWeight AdjacencyMatrix_graph] in *. unfold am_get_weight in *.
  rewrite Hnum in *.
  destruct (i <? List.length K)%nat eqn:Hi; [| discriminate H].
  destruct (j <? List.length K)%nat eqn:Hj; [| discriminate H].
  cbn [andb] in *.
  apply Nat.ltb_lt in Hi. apply Nat.ltb_lt in Hj.
  rewrite (Hw i j Hi Hj) in H. rewrite (Hw j i Hj Hi).
  rewrite (Hnth i Hi), (Hnth j Hj).
  pose proof (Hdist _ _ _ H) as Hd.
  split; [| exact Hd].
  pose proof (Hsym (nth i K 0%nat) (nth j K 0%nat)) as Hs.
  rewrite H in Hs. cbn [is_some] in Hs.
  destruct (am_weight g0 (nth j K 0%nat) (nth i K 0%nat)) as [w' |] eqn:Hw';
    [| discriminate Hs].
  f_equal. rewrite (Hdist _ _ _ Hw'), Hd. apply norm_vsub_sym.
Qed.

(** Without a grouping [calc_voro] keeps every Voronoi vertex: the vertex
    array is the array of the diagram, scaled back; the graph has one
    vertex per entry, named by its one-based position; and the indices
    stored in the bisectors are positions of the array. *)
Theorem calc_voro_keeps_vertices_without_groups :
  forall (construct : list (Z * Z * Z * Z) -> voronoi_diagram)
         (discretize : vec -> t_line -> R -> list vec -> list vec)
         (pt_inside_poly : list t_line -> vec -> nat -> nat -> R -> bool)
         (lines : list t_line) (remove_in_regions : bool) (edge_eps : R),
  exists lin par (graph : AdjacencyMatrix R),
    let vertices :=
      voro_vertices edge_eps (construct (voro_input lines edge_eps)) in
    calc_voro construct discretize pt_inside_poly lines []
              remove_in_regions edge_eps
      = Some (vertices, lin, par, graph)
    /\ List.length vertices
       = List.length (vd_vertices (construct (voro_input lines edge_eps)))
    /\ GetNumVertices graph = List.length vertices
    /\ (forall i, (i < List.length vertices)%nat ->
                  GetVertexIdent graph i = to_string (S i))
    /\ linear_valid (List.length vertices) lin
    /\ parabolic_valid (List.length vertices) par.
Proof.
  intros construct discretize pt_inside_poly lines remove_in_regions edge_eps.
  set (vd := construct (voro_input lines edge_eps)).
  pose proof (voro_edges_done_invariant discretize pt_inside_poly lines
                [] remove_in_regions edge_eps vd)
    as (Hid & _ & Hlin & Hpar).
  set (st := voro_edges_done _ _ _ _ _ _ _) in *.
  exists (vs_linear st), (vs_parabolic st), (vs_graph st). cbv zeta.
  assert (Hlen : List.length (voro_vertices edge_eps vd)
                 = List.length (vd_vertices vd))
    by (unfold voro_vertices; apply length_map).
  rewrite Hlen.
  split; [reflexivity |]. split; [reflexivity |].
  split.
  { cbn [GetNumVertices AdjacencyMatrix_graph]. unfold am_num.
    rewrite Hid, length_map, length_seq. reflexivity. }
  split.
  { intros i Hi. cbn [GetVertexIdent AdjacencyMatrix_graph]. rewrite Hid.
    rewrite (nth_indep _ EmptyString (vertex_ident 0))
      by (rewrite length_map, length_seq; exact Hi).
    rewrite (map_nth vertex_ident), seq_nth by exact Hi. reflexivity. }
  split; [exact Hlin | exact Hpar].
Qed.

(* ------------------------------------------------------------------ *)
(** ** Voronoi diagram: the group of a segment *)
(* ------------------------------------------------------------------ *)

Lemma get_group_idx_from_spec :
  forall groups k seg,
    match get_group_idx_from groups k seg with
    | Some r =>
        exists g b e,
          r = (k + g)%nat /\ nth_error groups g = Some (b, e)
          /\ (b <= seg < e)%nat
          /\ forall g' b' e',
               (g' < g)%nat -> nth_error groups g' = Some (b', e') ->
               ~ (b' <= seg < e')%nat
    | None =>
        forall g b e, nth_error groups g = Some (b, e) ->
                      ~ (b <= seg < e)%nat
    end.
Proof.
  induction groups as [| [b0 e0] rest IH]; intros k seg;
    cbn [get_group_idx_from].
  - intros [| g] b e H; discriminate H.
  - destruct ((b0 <=? seg)%nat && (seg <? e0)%nat) eqn:Hhit.
    + apply andb_true_iff in Hhit. destruct Hhit as [H1 H2].
      apply Nat.leb_le in H1. apply Nat.ltb_lt in H2.
      exists 0%nat, b0, e0. split; [lia |]. split; [reflexivity |].
      split; [lia |]. intros g' b' e' Hg'. lia.
    + assert (Hmiss : ~ (b0 <= seg < e0)%nat).
      { intros [H1 H2]. apply Nat.leb_le in H1. apply Nat.ltb_lt in H2.
        rewrite H1, H2 in Hhit. discriminate. }
      specialize (IH (S k) seg).
      destruct (get_group_idx_from rest (S k) seg) as [r |].
      * destruct IH as (g & b & e & Hr & Hn & Hin & Hmin).
        exists (S g), b, e. split; [lia |]. split; [exact Hn |].
        split; [exact Hin |].
        intros [| g'] b' e' Hg' Hn'.
        -- cbn in Hn'. inversion Hn'; subst. exact Hmiss.
        -- apply (Hmin g' b' e'); [lia | exact Hn'].
      * intros [| g] b e Hn.
        -- cbn in Hn. inversion Hn; subst. exact Hmiss.
        -- exact (IH g b e Hn).
Qed.

(** [get_group_idx] returns the position of the first group whose
    half-open range holds the segment index, and nothing exactly when no
    range holds it. *)
Theorem get_group_idx_first_range :
  forall line_groups segidx,
    match get_group_idx line_groups segidx with
    | Some grpidx =>
        exists grp_beg grp_end,
          nth_error line_groups grpidx = Some (grp_beg, grp_end)
          /\ (grp_beg <= segidx < grp_end)%nat
          /\ forall g b e,
               (g < grpidx)%nat -> nth_error line_groups g = Some (b, e) ->
               ~ (b <= segidx < e)%nat
    | None =>
        forall g b e, nth_error line_groups g = Some (b, e) ->
                      ~ (b <= segidx < e)%nat
    end.
Proof.
  intros line_groups segidx. unfold get_group_idx.
  pose proof (get_group_idx_from_spec line_groups 0 segidx) as H.
  destruct (get_group_idx_from line_groups 0 segidx) as [r |]; [| exact H].
  destruct H as (g & b & e & Hr & Hn & Hin & Hmin).
  cbn in Hr. subst r. exists b, e.
  split; [exact Hn |]. split; [exact Hin | exact Hmin].
Qed.

(* ------------------------------------------------------------------ *)
(** ** The edges of a triangulation *)
(* ------------------------------------------------------------------ *)

Lemma get_vert_idx_from_some :
  forall verts eps vert k0 r,
    get_vert_idx_from verts eps vert k0 = Some r ->
    exists k, r = (k0 + k)%nat /\ (k < List.length verts)%nat
              /\ vequals vert (nth k verts vzero) eps = true
              /\ forall j, (j < k)%nat ->
                           vequals vert (nth j verts vzero) eps = false.
Proof.
  induction verts as [| v2 rest IH]; intros eps vert k0 r H;
    cbn [get_vert_idx_from] in H; [discriminate |].
  destruct (vequals vert v2 eps) eqn:He.
  - inversion H; subst r. exists 0%nat.
    split; [lia |]. split; [cbn; lia |]. split; [exact He |].
    intros j Hj. lia.
  - destruct (IH eps vert (S k0) r H) as (k & Hr & Hk & Hv & Hmin).
    exists (S k). split; [lia |]. split; [cbn; lia |].
    split; [exact Hv |].
    intros [| j] Hj; [exact He | apply Hmin; lia].
Qed.

Lemma get_vert_idx_from_found :
  forall verts eps vert k0 k,
    (k < List.length verts)%nat ->
    vequals vert (nth k verts vzero) eps = true ->
    exists r, get_vert_idx_from verts eps vert k0 = Some r.
Proof.
  induction verts as [| v2 rest IH]; intros eps vert k0 k Hk Hv;
    [cbn in Hk; lia |].
  cbn [get_vert_idx_from].
  destruct (vequals vert v2 eps) eqn:He; [exists k0; reflexivity |].
  destruct k as [| k]; [cbn in Hv; congruence |].
  apply (IH eps vert (S k0) k); [cbn in Hk; lia | exact Hv].
Qed.

Lemma get_vert_idx_position :
  forall eps verts k,
    0 <= eps -> separated eps verts -> (k < List.length verts)%nat ->
    get_vert_idx verts eps (nth k verts vzero) = Some k.
Proof.
  intros eps verts k He Hs Hk. unfold get_vert_idx.
  destruct (get_vert_idx_from_found verts eps (nth k verts vzero) 0 k Hk
              (vequals_refl _ _ He)) as [r Hr].
  rewrite Hr. f_equal.
  destruct (get_vert_idx_from_some _ _ _ _ _ Hr) as (k' & -> & Hk' & Hv & _).
  cbn [Nat.add].
  assert (Heq : nth k verts vzero = nth k' verts vzero).
  { apply (separated_vequals eps verts); try assumption;
      apply nth_In; assumption. }
  destruct Hs as [Hnd _].
  apply (proj1 (NoDup_nth verts vzero) Hnd); [exact Hk' | exact Hk |].
  symmetry. exact Heq.
Qed.

Section GetEdges.
Variable verts : list vec.
Variable triags : list triangle.
Variable eps : R.
Hypothesis found : corners_found verts triags eps.

Let pos (v : vec) : nat :=
  match get_vert_idx verts eps v with Some k => k | None => 0%nat end.

Let corner_pairs (vertidx : nat) (triag : triangle) (i : nat)
  : list (nat * nat) :=
  if vequals (nth vertidx verts vzero) (nth i triag vzero) eps
  then [(vertidx, pos (nth ((i + 1) mod List.length triag) triag vzero));
        (vertidx, pos (nth ((i + 2) mod List.length triag) triag vzero))]
  else [].

Lemma corner_found :
  forall triag v,
    In triag triags -> In v triag ->
    get_vert_idx verts eps v = Some (pos v)
    /\ (pos v < List.length verts)%nat
    /\ vequals v (nth (pos v) verts vzero) eps = true.
Proof.
  intros triag v Ht Hv.
  destruct (found triag v Ht Hv) as (k & Hk & He).
  destruct (get_vert_idx_from_found verts eps v 0 k Hk He) as [r Hr].
  unfold pos, get_vert_idx. rewrite Hr.
  destruct (get_vert_idx_from_some _ _ _ _ _ Hr) as (k' & -> & Hk' & Hv' & _).
  cbn [Nat.add]. split; [reflexivity |]. split; assumption.
Qed.

Lemma edges_of_corners :
  forall vertidx triag l acc,
    In triag triags ->
    (forall i, In i l -> (i < List.length triag)%nat) ->
    fold_left (edges_of_corner verts eps vertidx triag) l (Some acc)
    = Some (acc ++ flat_map (corner_pairs vertidx triag) l).
Proof.
  intros vertidx triag l. induction l as [| i r IH]; intros acc Ht Hl;
    cbn [fold_left flat_map].
  - rewrite app_nil_r. reflexivity.
  - assert (Hi : (i < List.length triag)%nat)
      by (apply Hl; left; reflexivity).
    assert (Hstep :
      edges_of_corner verts eps vertidx triag (Some acc) i
      = Some (acc ++ corner_pairs vertidx triag i)).
    { unfold edges_of_corner, corner_pairs.
      destruct (vequals (nth vertidx verts vzero) (nth i triag vzero) eps);
        [| rewrite app_nil_r; reflexivity].
      cbv zeta.
      assert (H2 : In (nth ((i + 1) mod List.length triag) triag vzero) triag)
        by (apply nth_In, Nat.mod_upper_bound; lia).
      assert (H3 : In (nth ((i + 2) mod List.length triag) triag vzero) triag)
        by (apply nth_In, Nat.mod_upper_bound; lia).
      rewrite (proj1 (corner_found triag _ Ht H2)).
      rewrite (proj1 (corner_found triag _ Ht H3)). reflexivity. }
    rewrite Hstep, (IH _ Ht (fun k Hk => Hl k (or_intror Hk))).
    rewrite <- app_assoc. reflexivity.
Qed.

Lemma edges_of_triangles :
  forall vertidx ts acc,
    (forall t, In t ts -> In t triags) ->
    fold_left
      (fun acc triag =>
         fold_left (edges_of_corner verts eps vertidx triag)
                   (seq 0 (List.length triag)) acc)
      ts (Some acc)
    = Some (acc ++ flat_map
                     (fun t => flat_map (corner_pairs vertidx t)
                                        (seq 0 (List.length t))) ts).
Proof.
  intros vertidx ts. induction ts as [| t r IH]; intros acc Hts;
    cbn [fold_left flat_map].
  - rewrite app_nil_r. reflexivity.
  - rewrite edges_of_corners;
      [| apply Hts; left; reflexivity
       | intros i Hi; apply in_seq in Hi; lia].
    rewrite (IH _ (fun t' Ht' => Hts t' (or_intror Ht'))).
    rewrite <- app_assoc. reflexivity.
Qed.

Lemma get_edges_closed_form :
  get_edges verts triags eps
  = Some (flat_map
            (fun vertidx =>
               flat_map (fun t => flat_map (corner_pairs vertidx t)
                                           (seq 0 (List.length t))) triags)
            (seq 0 (List.length verts))).
Proof.
  unfold get_edges.
  assert (Hgen : forall l acc,
    fold_left
      (fun acc vertidx =>
         fold_left
           (fun acc triag =>
              fold_left (edges_of_corner verts eps vertidx triag)
                        (seq 0 (List.length triag)) acc)
           triags acc) l (Some acc)
    = Some (acc ++ flat_map
                     (fun vertidx =>
                        flat_map (fun t => flat_map (corner_pairs vertidx t)
                                             (seq 0 (List.length t))) triags)
                     l)).
  { induction l as [| vi r IH]; intros acc; cbn [fold_left flat_map].
    - rewrite app_nil_r. reflexivity.
    - rewrite edges_of_triangles by (intros t Ht; exact Ht).
      rewrite IH, <- app_assoc. reflexivity. }
  apply (Hgen _ []).
Qed.

Lemma get_edges_member :
  forall a b,
    In (a, b)
       (flat_map
          (fun vertidx =>
             flat_map (fun t => flat_map (corner_pairs vertidx t)
                                         (seq 0 (List.length t))) triags)
          (seq 0 (List.length verts)))
    <-> (a < List.length verts)%nat
        /\ exists t i,
             In t triags /\ (i < List.length t)%nat
             /\ vequals (nth a verts vzero) (nth i t vzero) eps = true
             /\ (b = pos (nth ((i + 1) mod List.length t) t vzero)
                 \/ b = pos (nth ((i + 2) mod List.length t) t vzero)).
Proof.
  intros a b. rewrite in_flat_map. split.
  - intros (vi & Hvi & H). apply in_seq in Hvi.
    apply in_flat_map in H. destruct H as (t & Ht & H).
    apply in_flat_map in H. destruct H as (i & Hi & H).
    apply in_seq in Hi. unfold corner_pairs in H.
    destruct (vequals (nth vi verts vzero) (nth i t vzero) eps) eqn:He;
      [| contradiction].
    destruct H as [H | [H | []]]; inversion H; subst a b;
      (split; [lia |]); exists t, i;
      (split; [exact Ht |]); (split; [lia |]); (split; [exact He |]);
      [left | right]; reflexivity.
  - intros (Ha & t & i & Ht & Hi & He & Hb).
    exists a. split; [apply in_seq; lia |].
    apply in_flat_map. exists t. split; [exact Ht |].
    apply in_flat_map. exists i. split; [apply in_seq; lia |].
    unfold corner_pairs. rewrite He.
    destruct Hb as [-> | ->]; [left | right; left]; reflexivity.
Qed.

Lemma get_edges_indices :
  exists edges,
    get_edges verts triags eps = Some edges
    /\ forall a b, In (a, b) edges ->
         (a < List.length verts)%nat /\ (b < List.length verts)%nat
         /\ exists t i j,
              In t triags /\ (i < List.length t)%nat
              /\ (j < List.length t)%nat
              /\ (j = (i + 1) mod List.length t
                  \/ j = (i + 2) mod List.length t)%nat
              /\ vequals (nth a verts vzero) (nth i t vzero) eps = true
              /\ vequals (nth j t vzero) (nth b verts vzero) eps = true.
Proof.
  eexists. split; [exact get_edges_closed_form |].
  intros a b H. apply get_edges_member in H.
  destruct H as (Ha & t & i & Ht & Hi & He & Hb).
  split; [exact Ha |].
  assert (H2 : ((i + 1) mod List.length t < List.length t)%nat)
    by (apply Nat.mod_upper_bound; lia).
  assert (H3 : ((i + 2) mod List.length t < List.length t)%nat)
    by (apply Nat.mod_upper_bound; lia).
  destruct Hb as [-> | ->].
  - destruct (corner_found t _ Ht (nth_In _ vzero H2)) as (_ & Hp & Hv).
    split; [exact Hp |].
    exists t, i, ((i + 1) mod List.length t)%nat.
    repeat (split; [assumption || (left; reflexivity) |]). exact Hv.
  - destruct (corner_found t _ Ht (nth_In _ vzero H3)) as (_ & Hp & Hv).
    split; [exact Hp |].
    exists t, i, ((i + 2) mod List.length t)%nat.
    repeat (split; [assumption || (right; reflexivity) |]). exact Hv.
Qed.
End GetEdges.

(** When every corner of every triangle is found among the vertices,
    [get_edges] returns a list of pairs of vertex positions; each pair
    joins a vertex that equals a corner of some triangle with a vertex
    that equals one of the two other corners of that triangle. *)
Theorem get_edges_join_corners :
  forall verts triags eps,
    corners_found verts triags eps ->
    exists edges,
      get_edges verts triags eps = Some edges
      /\ forall a b, In (a, b) edges ->
           (a < List.length verts)%nat /\ (b < List.length verts)%nat
           /\ exists t i j,
                In t triags /\ (i < List.length t)%nat
                /\ (j < List.length t)%nat
                /\ (j = (i + 1) mod List.length t
                    \/ j = (i + 2) mod List.length t)%nat
                /\ vequals (nth a verts vzero) (nth i t vzero) eps = true
                /\ vequals (nth j t vzero) (nth b verts vzero) eps = true.
Proof. exact get_edges_indices. Qed.

Lemma corners_found_In :
  forall verts triags eps,
    0 <= eps ->
    (forall t v, In t triags -> In v t -> In v verts) ->
    corners_found verts triags eps.
Proof.
  intros verts triags eps He Hin t v Ht Hv.
  destruct (In_nth _ _ vzero (Hin t v Ht Hv)) as (k & Hk & Hnth).
  exists k. split; [exact Hk |]. rewrite Hnth. apply vequals_refl. exact He.
Qed.

Lemma get_edges_separated :
  forall verts triags eps,
    0 <= eps ->
    separated eps verts ->
    proper_triangles triags ->
    (forall t v, In t triags -> In v t -> In v verts) ->
    exists edges,
      get_edges verts triags eps = Some edges
      /\ (forall a b,
            In (a, b) edges
            <-> (a < List.length verts)%nat /\ (b < List.length verts)%nat
                /\ exists t i j,
                     In t triags /\ (i < 3)%nat /\ (j < 3)%nat /\ i <> j
                     /\ nth i t vzero = nth a verts vzero
                     /\ nth j t vzero = nth b verts vzero)
      /\ (forall a b, In (a, b) edges -> In (b, a) edges).
Proof.
  intros verts triags eps He Hs Hp Hin.
  pose proof (corners_found_In verts triags eps He Hin) as Hfound.
  eexists. split; [exact (get_edges_closed_form verts triags eps Hfound) |].
  assert (Hiff : forall a b,
    In (a, b)
       (flat_map
          (fun vertidx =>
             flat_map
               (fun t =>
                  flat_map
                    (fun i =>
                       if vequals (nth vertidx verts vzero) (nth i t vzero) eps
                       then
                         [(vertidx,
                           match get_vert_idx verts eps
                                   (nth ((i + 1) mod List.length t) t vzero)
                           with Some k => k | None => 0%nat end);
                          (vertidx,
                           match get_vert_idx verts eps
                                   (nth ((i + 2) mod List.length t) t vzero)
                           with Some k => k | None => 0%nat end)]
                       else [])
                    (seq 0 (List.length t))) triags)
          (seq 0 (List.length verts)))
    <-> (a < List.length verts)%nat /\ (b < List.length verts)%nat
        /\ exists t i j,
             In t triags /\ (i < 3)%nat /\ (j < 3)%nat /\ i <> j
             /\ nth i t vzero = nth a verts vzero
             /\ nth j t vzero = nth b verts vzero).
  { intros a b. rewrite (get_edges_member verts triags eps a b). split.
    - intros (Ha & t & i & Ht & Hi & Hv & Hb).
      pose proof (Hp t Ht) as Hl3. rewrite Hl3 in *.
      assert (Hti : nth i t vzero = nth a verts vzero).
      { symmetry. apply (separated_vequals eps verts); try assumption.
        - apply nth_In. exact Ha.
        - apply (Hin t); [exact Ht |]. apply nth_In. lia. }
      assert (Hj : forall j, (j < 3)%nat -> j <> i ->
                b = match get_vert_idx verts eps (nth j t vzero)
                    with Some k => k | None => 0%nat end ->
                (b < List.length verts)%nat
                /\ nth j t vzero = nth b verts vzero).
      { intros j Hj _ Hbj.
        assert (Hjin : In (nth j t vzero) verts)
          by (apply (Hin t); [exact Ht | apply nth_In; lia]).
        destruct (In_nth _ _ vzero Hjin) as (k & Hk & Hnth).
        rewrite <- Hnth, (get_vert_idx_position eps verts k He Hs Hk) in Hbj.
        subst b. split; [exact Hk | symmetry; exact Hnth]. }
      split; [exact Ha |].
      destruct Hb as [Hb | Hb].
      + destruct (Hj ((i + 1) mod 3)%nat
                     ltac:(apply Nat.mod_upper_bound; lia)
                     ltac:(destruct i as [| [| [| i]]]; cbn; lia) Hb)
          as [Hb1 Hb2].
        split; [exact Hb1 |]. exists t, i, ((i + 1) mod 3)%nat.
        split; [exact Ht |]. split; [lia |].
        split; [apply Nat.mod_upper_bound; lia |].
        split; [destruct i as [| [| [| i]]]; cbn; lia |].
        split; assumption.
      + destruct (Hj ((i + 2) mod 3)%nat
                     ltac:(apply Nat.mod_upper_bound; lia)
                     ltac:(destruct i as [| [| [| i]]]; cbn; lia) Hb)
          as [Hb1 Hb2].
        split; [exact Hb1 |]. exists t, i, ((i + 2) mod 3)%nat.
        split; [exact Ht |]. split; [lia |].
        split; [apply Nat.mod_upper_bound; lia |].
        split; [destruct i as [| [| [| i]]]; cbn; lia |].
        split; assumption.
    - intros (Ha & Hb & t & i & j & Ht & Hi & Hj & Hij & Hti & Htj).
      pose proof (Hp t Ht) as Hl3.
      split; [exact Ha |]. exists t, i.
      split; [exact Ht |]. split; [lia |].
      split; [rewrite Hti; apply vequals_refl; exact He |].
      rewrite Hl3.
      assert (Hpos : match get_vert_idx verts eps (nth j t vzero)
                     with Some k => k | None => 0%nat end = b).
      { rewrite Htj, (get_vert_idx_position eps verts b He Hs Hb).
        reflexivity. }
      destruct i as [| [| [| i]]]; try lia;
        destruct j as [| [| [| j]]]; try lia;
        cbn [Nat.add Nat.modulo Nat.divmod fst snd Nat.sub];
        first [left; symmetry; exact Hpos | right; symmetry; exact Hpos]. }
  split; [exact Hiff |].
  intros a b H. apply Hiff in H. apply Hiff.
  destruct H as (Ha & Hb & t & i & j & Ht & Hi & Hj & Hij & Hti & Htj).
  split; [exact Hb |]. split; [exact Ha |].
  exists t, j, i. repeat (split; [assumption || congruence |]). exact Hti.
Qed.

(** For vertices that are pairwise apart by more than eps and triangles
    whose corners are among them, [get_edges] returns exactly the pairs
    of positions of two different corners of one triangle; so with every
    pair it also returns the reversed pair. *)
Theorem get_edges_both_directions :
  forall verts triags eps,
    0 <= eps ->
    separated eps verts ->
    proper_triangles triags ->
    (forall t v, In t triags -> In v t -> In v verts) ->
    exists edges,
      get_edges verts triags eps = Some edges
      /\ (forall a b,
            In (a, b) edges
            <-> (a < List.length verts)%nat /\ (b < List.length verts)%nat
                /\ exists t i j,
                     In t triags /\ (i < 3)%nat /\ (j < 3)%nat /\ i <> j
                     /\ nth i t vzero = nth a verts vzero
                     /\ nth j t vzero = nth b verts vzero)
      /\ (forall a b, In (a, b) edges -> In (b, a) edges).
Proof. exact get_edges_separated. Qed.

Lemma unit_square_separated : separated hull_eps unit_square.
Proof.
  unfold separated, unit_square, hull_eps. split.
  - repeat constructor; simpl; intuition (try congruence);
      match goal with H : _ = _ |- _ => inversion H; lra end.
  - intros a b Ha Hb Hab. simpl in Ha, Hb.
    unfold vequals.
    destruct Ha as [<- | [<- | [<- | [<- | []]]]];
      destruct Hb as [<- | [<- | [<- | [<- | []]]]];
      try contradiction; cbn [vx vy];
      first [ rewrite (equals_false 0 1) by (right; lra); reflexivity
            | rewrite (equals_false 1 0) by (left; lra); reflexivity
            | rewrite (equals_false 0 1) by (right; lra);
              apply andb_false_r
            | rewrite (equals_false 1 0) by (left; lra);
              apply andb_false_r ].
Qed.

Lemma two_triangles_in_square :
  forall t v, In t two_triangles -> In v t -> In v unit_square.
Proof.
  intros t v [<- | [<- | []]] Hv; cbn in Hv |- *; intuition.
Qed.

Lemma get_edges_join_corners_witness :
  corners_found unit_square two_triangles hull_eps
  /\ exists edges,
       get_edges unit_square two_triangles hull_eps = Some edges.
Proof.
  assert (Hf : corners_found unit_square two_triangles hull_eps).
  { apply corners_found_In; [unfold hull_eps; lra |].
    exact two_triangles_in_square. }
  split; [exact Hf |].
  destruct (get_edges_join_corners unit_square two_triangles hull_eps Hf)
    as (edges & He & _).
  exists edges. exact He.
Defined.

Lemma get_edges_both_directions_witness :
  0 <= hull_eps
  /\ separated hull_eps unit_square
  /\ proper_triangles two_triangles
  /\ exists edges,
       get_edges unit_square two_triangles hull_eps = Some edges
       /\ forall a b, In (a, b) edges -> In (b, a) edges.
Proof.
  assert (He : 0 <= hull_eps) by (unfold hull_eps; lra).
  split; [exact He |].
  split; [exact unit_square_separated |].
  split; [exact two_triangles_proper |].
  destruct (get_edges_both_directions unit_square two_triangles hull_eps He
              unit_square_separated two_triangles_proper
              two_triangles_in_square)
    as (edges & Hres & _ & Hsym).
  exists edges. split; [exact Hres | exact Hsym].
Defined.

(* ------------------------------------------------------------------ *)
(** ** Contour simplification only drops vertices *)
(* ------------------------------------------------------------------ *)

Lemma subseq_refl : forall (A : Type) (l : list A), subseq l l.
Proof.
  intros A l. induction l as [| x l IH]; [apply subseq_nil |].
  apply subseq_keep. exact IH.
Qed.

Lemma subseq_trans :
  forall (A : Type) (l1 l2 l3 : list A),
    subseq l1 l2 -> subseq l2 l3 -> subseq l1 l3.
Proof.
  intros A l1 l2 l3 H12 H23. revert l1 H12.
  induction H23 as [| x l2 l3 H IH | x l2 l3 H IH]; intros l1 H12.
  - exact H12.
  - apply subseq_skip. apply IH. exact H12.
  - inversion H12 as [| y a b Hab | y a b Hab]; subst.
    + apply subseq_skip. apply IH. exact Hab.
    + apply subseq_keep. apply IH. exact Hab.
Qed.

Lemma subseq_In :
  forall (A : Type) (l1 l2 : list A) x, subseq l1 l2 -> In x l1 -> In x l2.
Proof.
  intros A l1 l2 x H. induction H as [| y l1 l2 H IH | y l1 l2 H IH];
    intros Hx.
  - exact Hx.
  - right. apply IH. exact Hx.
  - destruct Hx as [Hx | Hx]; [left; exact Hx | right; apply IH; exact Hx].
Qed.

Lemma subseq_length :
  forall (A : Type) (l1 l2 : list A),
    subseq l1 l2 -> (List.length l1 <= List.length l2)%nat.
Proof.
  intros A l1 l2 H. induction H; cbn [List.length]; lia.
Qed.

Lemma erase_at_subseq :
  forall (A : Type) (l : list A) k, subseq (erase_at k l) l.
Proof.
  intros A l. induction l as [| x l IH]; intros k; cbn [erase_at].
  - destruct k; apply subseq_nil.
  - destruct k; [apply subseq_skip, subseq_refl | apply subseq_keep, IH].
Qed.

Lemma circ_pos_bound :
  forall n it, (0 < n)%nat -> (circ_pos n it < n)%nat.
Proof.
  intros n it Hn. unfold circ_pos.
  pose proof (Z.mod_pos_bound it (Z.of_nat n) ltac:(lia)). lia.
Qed.

Lemma circ_erase_at_length :
  forall contour k,
    contour <> [] ->
    S (List.length (circ_erase_at contour k)) = List.length contour.
Proof.
  intros contour k Hne. unfold circ_erase_at.
  assert (Hn : (0 < List.length contour)%nat)
    by (destruct contour; [contradiction | cbn; lia]).
  rewrite erase_at_length by (apply circ_pos_bound; exact Hn). lia.
Qed.

Lemma remove_staircases_subseq :
  forall fuel min_dist eps contour curidx,
    subseq (remove_staircases fuel min_dist eps contour curidx) contour.
Proof.
  induction fuel as [| f IH]; intros min_dist eps contour curidx;
    cbn [remove_staircases]; [apply subseq_refl |].
  destruct (curidx <? List.length contour + 1)%nat; [| apply subseq_refl].
  destruct (staircase_test _ _ _ _ _ _); [| apply IH].
  eapply subseq_trans; [apply IH |].
  unfold circ_erase_at.
  eapply subseq_trans; apply erase_at_subseq.
Qed.

Lemma remove_straight_returns :
  forall fuel eps contour curidx,
    contour <> [] ->
    (1 <= curidx)%nat ->
    (2 * Z.of_nat (List.length contour) < 2 ^ 64)%Z ->
    (S (2 * List.length contour - 1 - curidx) <= fuel)%nat ->
    exists result,
      remove_straight fuel eps contour curidx = Some result
      /\ result <> [] /\ subseq result contour.
Proof.
  induction fuel as [| f IH]; intros eps contour curidx Hne Hidx Hsize Hfuel;
    [lia |].
  cbn [remove_straight].
  assert (Hn : (0 < List.length contour)%nat)
    by (destruct contour; [contradiction | cbn; lia]).
  assert (Hwrap : size_t_wrap (2 * Z.of_nat (List.length contour) - 1)
                  = (2 * Z.of_nat (List.length contour) - 1)%Z).
  { unfold size_t_wrap. apply Z.mod_small. lia. }
  rewrite Hwrap.
  destruct (Z.of_nat curidx <? 2 * Z.of_nat (List.length contour) - 1)%Z
    eqn:Hc.
  - apply Z.ltb_lt in Hc.
    destruct (Rltb _ eps).
    + assert (Hl := circ_erase_at_length contour curidx Hne).
      destruct (IH eps (circ_erase_at contour curidx) curidx)
        as (result & Hr & Hnn & Hs).
      * intros Hnil. rewrite Hnil in Hl. cbn in Hl. lia.
      * exact Hidx.
      * lia.
      * lia.
      * exists result. split; [exact Hr |]. split; [exact Hnn |].
        eapply subseq_trans; [exact Hs |].
        unfold circ_erase_at. apply erase_at_subseq.
    + destruct (IH eps contour (S curidx)) as (result & Hr & Hnn & Hs);
        [exact Hne | lia | exact Hsize | lia |].
      exists result. split; [exact Hr |]. split; assumption.
  - exists contour. split; [reflexivity |].
    split; [exact Hne | apply subseq_refl].
Qed.

Lemma simplify_contour_subseq :
  forall contour min_dist eps,
    (2 * Z.of_nat (List.length contour) < 2 ^ 64)%Z ->
    remove_staircases (List.length contour + 1) min_dist eps contour 0
      <> [] ->
    exists result,
      simplify_contour contour min_dist eps = Some result
      /\ result <> [] /\ subseq result contour.
Proof.
  intros contour min_dist eps Hsize Hne. unfold simplify_contour.
  set (c1 := remove_staircases _ _ _ _ _) in *.
  assert (Hs1 : subseq c1 contour) by apply remove_staircases_subseq.
  pose proof (subseq_length _ _ _ Hs1) as Hl1.
  destruct (remove_straight_returns (4 * List.length contour + 4) eps c1 1
              Hne ltac:(lia) ltac:(lia) ltac:(lia))
    as (result & Hr & Hnn & Hs).
  exists result. split; [exact Hr |]. split; [exact Hnn |].
  exact (subseq_trans _ _ _ _ Hs Hs1).
Qed.

(** [simplify_contour] only drops vertices.  When the contour fits the
    index arithmetic and the staircase loop leaves a vertex, the function
    returns a contour that is not empty and that is the input with some
    vertices left out, in the order of the input. *)
Theorem simplify_contour_drops_vertices :
  forall contour min_dist eps,
    (2 * Z.of_nat (List.length contour) < 2 ^ 64)%Z ->
    remove_staircases (List.length contour + 1) min_dist eps contour 0
      <> [] ->
    exists result,
      simplify_contour contour min_dist eps = Some result
      /\ result <> [] /\ subseq result contour.
Proof. exact simplify_contour_subseq. Qed.

Lemma notch_contour_staircases :
  remove_staircases (List.length notch_contour + 1) contour_min_dist
    contour_eps notch_contour 0 = notch_contour.
Proof.
  apply remove_staircases_unchanged.
  intros k Hk _. apply notch_contour_tests. simpl in Hk. lia.
Qed.

Lemma simplify_contour_drops_vertices_witness :
  (2 * Z.of_nat (List.length notch_contour) < 2 ^ 64)%Z
  /\ exists result,
       simplify_contour notch_contour contour_min_dist contour_eps
         = Some result
       /\ result <> [] /\ subseq result notch_contour.
Proof.
  split; [cbn; lia |].
  apply (simplify_contour_drops_vertices notch_contour contour_min_dist
           contour_eps).
  - cbn. lia.
  - rewrite notch_contour_staircases. discriminate.
Defined.

(* ------------------------------------------------------------------ *)
(** ** Voronoi diagram: secondary edges *)
(* ------------------------------------------------------------------ *)

Section SecondaryEdges.
Variable G : Type.
Context {IG : IsGraph G R}.
Variable discretize : vec -> t_line -> R -> list vec -> list vec.
Variable pt_inside_poly : list t_line -> vec -> nat -> nat -> R -> bool.
Variable lines : list t_line.
Variable line_groups : list (nat * nat).
Variable remove_in_regions : bool.
Variable edge_eps : R.

Lemma voro_edges_done_primary :
  forall vd,
    voro_edges_done discretize pt_inside_poly lines line_groups
                    remove_in_regions edge_eps (primary_edges_only vd)
    = voro_edges_done discretize pt_inside_poly lines line_groups
                      remove_in_regions edge_eps vd.
Proof.
  intros vd. unfold voro_edges_done.
  change (voro_initial_graph (primary_edges_only vd))
    with (@voro_initial_graph G _ vd).
  generalize (mkvstate (@voro_initial_graph G _ vd) [] []).
  cbn [primary_edges_only vd_edges].
  induction (vd_edges vd) as [| e r IH]; intros st; [reflexivity |].
  cbn [filter fold_left].
  destruct (is_secondary e) eqn:Hsec; cbn [negb fold_left].
  - rewrite IH. f_equal. unfold voro_edge_step. rewrite Hsec. reflexivity.
  - rewrite IH. reflexivity.
Qed.
End SecondaryEdges.

(** Secondary edges of the diagram play no part: [calc_voro] returns the
    same with a builder that leaves them out. *)
Theorem secondary_edges_ignored :
  forall (G : Type) (IG : IsGraph G R)
         (construct : list (Z * Z * Z * Z) -> voronoi_diagram)
         discretize pt_inside_poly lines line_groups remove_in_regions
         edge_eps,
    @calc_voro G IG (fun segments => primary_edges_only (construct segments))
               discretize pt_inside_poly lines line_groups
               remove_in_regions edge_eps
    = @calc_voro G IG construct discretize pt_inside_poly lines line_groups
                 remove_in_regions edge_eps.
Proof.
  intros G IG construct discretize pt_inside_poly lines line_groups
         remove_in_regions edge_eps.
  unfold calc_voro. cbv zeta.
  rewrite (voro_edges_done_primary G discretize pt_inside_poly lines
             line_groups remove_in_regions edge_eps).
  reflexivity.
Qed.

(* ------------------------------------------------------------------ *)
(** ** Voronoi diagram: the end points of the linear bisectors *)
(* ------------------------------------------------------------------ *)

Lemma find_vertex_ptr_same :
  forall p m s k i,
    find_vertex_ptr p (seq s m) k = Some i ->
    (k <= i)%nat /\ p = (s + (i - k))%nat.
Proof.
  intros p m. induction m as [| m IH]; intros s k i H; cbn in H.
  - discriminate.
  - destruct (s =? p)%nat eqn:Hs.
    + apply Nat.eqb_eq in Hs. inversion H; subst. lia.
    + apply IH in H. lia.
Qed.

Lemma get_vertex_idx_same :
  forall vd v i,
    get_vertex_idx (vorovertices vd) v = Some i ->
    v = Some i /\ (i < List.length (vd_vertices vd))%nat.
Proof.
  intros vd v i H. split; [| exact (get_vertex_idx_bound vd v i H)].
  destruct v as [p |]; cbn in H; [| discriminate].
  unfold vorovertices in H. apply find_vertex_ptr_same in H.
  f_equal. lia.
Qed.

Lemma deref_scaled :
  forall edge_eps vd i,
    (i < List.length (vd_vertices vd))%nat ->
    vdiv (deref_vertex vd (Some i)) (voro_scale edge_eps)
    = nth i (voro_vertices edge_eps vd) vzero.
Proof.
  intros edge_eps vd i Hi. unfold deref_vertex, voro_vertices.
  rewrite (nth_indep
             (map (fun v => mkvec (vx v / voro_scale edge_eps)
                                  (vy v / voro_scale edge_eps))
                  (vd_vertices vd))
             vzero
             (mkvec (vx vzero / voro_scale edge_eps)
                    (vy vzero / voro_scale edge_eps)))
    by (rewrite length_map; exact Hi).
  rewrite (map_nth (fun v => mkvec (vx v / voro_scale edge_eps)
                                   (vy v / voro_scale edge_eps))).
  reflexivity.
Qed.

Lemma linear_ends_snoc :
  forall vertices lin line a b,
    linear_ends vertices lin ->
    match a, b with
    | Some i, Some j =>
        fst line = nth i vertices vzero /\ snd line = nth j vertices vzero
    | Some i, None => fst line = nth i vertices vzero
    | None, Some j => fst line = nth j vertices vzero
    | None, None => True
    end ->
    linear_ends vertices (lin ++ [(line, a, b)]).
Proof.
  intros vertices lin line a b Hl Hnew l x y Hin.
  apply in_app_or in Hin. destruct Hin as [Hin | [Heq | []]].
  - exact (Hl l x y Hin).
  - inversion Heq; subst. exact Hnew.
Qed.

Section BisectorEnds.
Variable discretize : vec -> t_line -> R -> list vec -> list vec.
Variable pt_inside_poly : list t_line -> vec -> nat -> nat -> R -> bool.
Variable lines : list t_line.
Variable line_groups : list (nat * nat).
Variable remove_in_regions : bool.
Variable edge_eps : R.
Variable vd : voronoi_diagram.

Let step :=
  @voro_edge_step (AdjacencyMatrix R) _ discretize pt_inside_poly lines
                  line_groups remove_in_regions edge_eps vd.
Let vertices0 := voro_vertices edge_eps vd.

Lemma voro_edge_step_ends :
  forall st e,
    linear_ends vertices0 (vs_linear st) ->
    linear_ends vertices0 (vs_linear (step st e)).
Proof.
  intros st e Hl. unfold step, voro_edge_step.
  destruct (is_secondary e); [exact Hl |].
  destruct (skipped_by_groups _ _ _ _ _ _ _ _ _); [exact Hl |].
  destruct (get_vertex_idx (vorovertices vd) (vertex0 e)) as [i0 |] eqn:H0;
    destruct (get_vertex_idx (vorovertices vd) (vertex1 e)) as [i1 |] eqn:H1;
    cbn [is_some andb negb];
    try (apply get_vertex_idx_same in H0; destruct H0 as [H0 Hb0]);
    try (apply get_vertex_idx_same in H1; destruct H1 as [H1 Hb1]).
  - (* both end points known *)
    rewrite andb_false_r. unfold emit_bisector, is_finite.
    rewrite H0, H1. cbn [is_some andb].
    rewrite andb_true_r.
    destruct (is_curved e).
    + repeat match goal with
      | |- linear_ends _ (vs_linear (match ?x with _ => _ end)) =>
          destruct x
      end; exact Hl.
    + cbn [vs_linear]. apply linear_ends_snoc; [exact Hl |].
      cbn [fst snd]. split; apply deref_scaled; assumption.
  - (* only the first end point known *)
    unfold emit_bisector.
    destruct (is_finite e) eqn:Hfin; cbn [andb]; [exact Hl |].
    rewrite andb_false_r. rewrite H0.
    destruct (get_segment_point lines e false); [| exact Hl].
    destruct (get_segment_point lines e true); [| exact Hl].
    cbn [vs_linear]. apply linear_ends_snoc; [exact Hl |].
    unfold infinite_bisector. cbn [fst].
    apply deref_scaled. exact Hb0.
  - (* only the second end point known *)
    unfold emit_bisector.
    destruct (is_finite e) eqn:Hfin; cbn [andb]; [exact Hl |].
    rewrite andb_false_r. rewrite H1.
    destruct (vertex0 e) as [p0 |] eqn:Hv0.
    + destruct (get_segment_point lines e false); [| exact Hl].
      destruct (get_segment_point lines e true); [| exact Hl].
      exfalso. unfold is_finite in Hfin. rewrite Hv0, H1 in Hfin.
      discriminate Hfin.
    + destruct (get_segment_point lines e false); [| exact Hl].
      destruct (get_segment_point lines e true); [| exact Hl].
      cbn [vs_linear]. apply linear_ends_snoc; [exact Hl |].
      unfold infinite_bisector. cbn [fst].
      apply deref_scaled. exact Hb1.
  - (* no end point known *)
    unfold emit_bisector.
    destruct (is_finite e) eqn:Hfin; cbn [andb]; [exact Hl |].
    rewrite andb_false_r.
    repeat match goal with
    | |- linear_ends _ (vs_linear (match ?x with _ => _ end)) =>
        destruct x
    end; try exact Hl;
    cbn [vs_linear]; (apply linear_ends_snoc; [exact Hl | exact I]).
Qed.

Lemma voro_edges_done_ends :
  linear_ends vertices0
    (vs_linear
       (@voro_edges_done (AdjacencyMatrix R) _ discretize pt_inside_poly
          lines line_groups remove_in_regions edge_eps vd)).
Proof.
  unfold voro_edges_done. fold step.
  assert (Hinit : linear_ends vertices0
            (vs_linear
               (mkvstate (@voro_initial_graph (AdjacencyMatrix R) _ vd)
                         [] []))) by (intros l a b []).
  revert Hinit.
  generalize (mkvstate (@voro_initial_graph (AdjacencyMatrix R) _ vd) [] []).
  induction (vd_edges vd) as [| e r IH]; intros st Hst; cbn [fold_left].
  - exact Hst.
  - apply IH. apply voro_edge_step_ends. exact Hst.
Qed.
End BisectorEnds.

Lemma shifted_vertex :
  forall (vertices : list vec) idx i,
    i <> idx ->
    nth (shift_index idx i) (erase_at idx vertices) vzero
    = nth i vertices vzero.
Proof.
  intros vertices idx i Hne. rewrite erase_at_nth.
  unfold shift_index, skip_idx. f_equal.
  destruct (idx <=? i)%nat eqn:Hle.
  - apply Nat.leb_le in Hle.
    destruct (pred i <? idx)%nat eqn:Hlt;
      [apply Nat.ltb_lt in Hlt | apply Nat.ltb_ge in Hlt]; lia.
  - apply Nat.leb_gt in Hle.
    rewrite (proj2 (Nat.ltb_lt i idx)) by lia. reflexivity.
Qed.

Lemma compact_linear_ends :
  forall idx vertices lin,
    linear_ends vertices lin ->
    linear_ends (erase_at idx vertices) (compact_linear idx lin).
Proof.
  intros idx vertices lin. induction lin as [| [[line a] b] r IH]; intros Hl.
  - intros l x y [].
  - assert (Hr : linear_ends vertices r).
    { intros l x y Hin. apply (Hl l x y). right. exact Hin. }
    pose proof (Hl line a b (or_introl eq_refl)) as Hab.
    cbn [compact_linear].
    destruct (opt_is idx a || opt_is idx b) eqn:Hhit; [apply IH, Hr |].
    apply orb_false_iff in Hhit. destruct Hhit as [Hxa Hxb].
    intros l x y [Heq | Hin]; [| apply (IH Hr l x y Hin)].
    inversion Heq; subst l x y. clear Heq.
    destruct a as [i |]; destruct b as [j |]; cbn [option_map];
      cbn [opt_is] in Hxa, Hxb;
      try (apply Nat.eqb_neq in Hxa); try (apply Nat.eqb_neq in Hxb).
    + destruct Hab as [H1 H2].
      split; rewrite shifted_vertex by assumption; assumption.
    + rewrite shifted_vertex by assumption. exact Hab.
    + rewrite shifted_vertex by assumption. exact Hab.
    + exact I.
Qed.

Lemma remove_vertex_coords_ends :
  forall removed vertices lin par vertices' lin' par',
    linear_ends vertices lin ->
    remove_vertex_coords removed vertices lin par
      = Some (vertices', lin', par') ->
    linear_ends vertices' lin'.
Proof.
  induction removed as [| idx rest IH];
    intros vertices lin par vertices' lin' par' Hl H;
    cbn [remove_vertex_coords] in H.
  - inversion H; subst. exact Hl.
  - destruct (idx <? List.length vertices)%nat; [| discriminate].
    apply (IH _ _ _ _ _ _ (compact_linear_ends idx vertices lin Hl) H).
Qed.

(** The vertex indices that [calc_voro] returns with a linear bisector
    point at the end points of the bisector: for a finite edge the two
    indexed vertices are its two ends; for an edge with one end the
    indexed vertex is the point where the bisector starts. *)
Theorem linear_bisector_indices_point_at_ends :
  forall (construct : list (Z * Z * Z * Z) -> voronoi_diagram)
         (discretize : vec -> t_line -> R -> list vec -> list vec)
         (pt_inside_poly : list t_line -> vec -> nat -> nat -> R -> bool)
         (lines : list t_line) (line_groups : list (nat * nat))
         (remove_in_regions : bool) (edge_eps : R),
  exists vertices lin par (graph : AdjacencyMatrix R),
    calc_voro construct discretize pt_inside_poly lines line_groups
              remove_in_regions edge_eps
      = Some (vertices, lin, par, graph)
    /\ linear_ends vertices lin.
Proof.
  intros construct discretize pt_inside_poly lines line_groups
         remove_in_regions edge_eps.
  destruct (calc_voro_restricts construct discretize pt_inside_poly lines
              line_groups remove_in_regions edge_eps)
    as (K & lin & par & graph & Hres & _).
  set (vd := construct (voro_input lines edge_eps)) in *.
  pose proof (voro_edges_done_ends discretize pt_inside_poly lines
                line_groups remove_in_regions edge_eps vd) as Hends.
  eexists _, lin, par, graph. split; [exact Hres |].
  assert (Hcase : line_groups = [] \/ line_groups <> [])
    by (destruct line_groups; [left; reflexivity | right; discriminate]).
  destruct Hcase as [Hgroups | Hgroups].
  - rewrite (calc_voro_without_groups _ _ _ _ _ _ _ Hgroups) in Hres.
    cbv zeta in Hres. fold vd in Hres. inversion Hres as [[Hv Hlin Hpar Hg]].
    exact Hends.
  - rewrite (calc_voro_with_groups _ _ _ _ _ _ _ Hgroups) in Hres.
    cbv zeta in Hres. fold vd in Hres.
    destruct (remove_vertex_coords _ _ _ _) as [[[v' lin'] par'] |] eqn:Hrun;
      [| discriminate].
    inversion Hres; subst.
    exact (remove_vertex_coords_ends _ _ _ _ _ _ _ Hends Hrun).
Qed.
